(** * ChatBot60 (InterviewAI): the document-grounded evaluation pipeline

    A shallow embedding of the algorithmic core of the server:
    - [utils/pdfProcessor.js]: [chunkText];
    - [utils/gemini.js]: [retryWithBackoff], [generateEmbedding],
      [generateEmbeddings], [generateChatResponse],
      [generateInterviewQuestions], [evaluateAllAnswers],
      [cosineSimilarity], [findSimilarChunks];
    - [models/Chat.js]: [calculateFinalScores];
    - [controllers/documentController.js]: [uploadDocument] from the
      extracted text on;
    - [controllers/chatController.js]: [parseQuestions], [parseAnswers],
      and [generateQuestions] and [submitAnswers] from the session and
      the documents found on;
    - client, [pages/Chat.jsx]: [parseQuestions] and the text that
      [handleSubmitAll] posts.

    JavaScript strings are sequences of code units; here a string is a
    [list ascii], one [ascii] per code unit below 256.  JavaScript numbers
    are IEEE 754 binary64 values, here Rocq's primitive [float].  Integer
    scores that the source obtains with [parseInt] and clamps to 1..10 are
    kept in [Z].  Calls to [console] are not modelled. *)

From Stdlib Require Import Ascii String.
From Stdlib Require Import List ZArith Lia Bool Arith Floats Sorted.
Import ListNotations.

Set Warnings "-register-all".

(* ================================================================== *)
(** * JavaScript strings *)
(* ================================================================== *)

Module JsString.

Definition jstring := list ascii.

Definition js (s : string) : jstring := list_ascii_of_string s.

Definition space : ascii := " "%char.
Definition newline : ascii := ascii_of_nat 10.

(** [\s] of a regular expression and the characters [trim] strips:
    WhiteSpace and LineTerminator, of which TAB, LF, VT, FF, CR, SP and
    NBSP lie below 256. *)
Definition is_space (c : ascii) : bool :=
  let n := nat_of_ascii c in
  ((9 <=? n) && (n <=? 13)) || (n =? 32) || (n =? 160).

(** [\d]: the ten ASCII digits. *)
Definition is_digit (c : ascii) : bool :=
  let n := nat_of_ascii c in (48 <=? n) && (n <=? 57).

(** Canonicalisation of the [i] flag, for a pattern of ASCII characters:
    only the ASCII letters fold. *)
Definition to_lower (c : ascii) : ascii :=
  let n := nat_of_ascii c in
  if (65 <=? n) && (n <=? 90) then ascii_of_nat (n + 32) else c.

Definition eqb_ci (a b : ascii) : bool := Ascii.eqb (to_lower a) (to_lower b).

Fixpoint drop_while (p : ascii -> bool) (s : jstring) : jstring :=
  match s with
  | [] => []
  | c :: r => if p c then drop_while p r else s
  end.

Fixpoint take_while (p : ascii -> bool) (s : jstring) : jstring :=
  match s with
  | [] => []
  | c :: r => if p c then c :: take_while p r else []
  end.

(** [s.trim()] *)
Definition trim (s : jstring) : jstring :=
  rev (drop_while is_space (rev (drop_while is_space s))).

(** [s.replace(/X+/g, by)] for a character class [X]: every maximal run
    of characters of the class becomes the one character [by].
    [in_run] tells that the previous character was in the class. *)
Fixpoint replace_runs (p : ascii -> bool) (by_ : ascii) (in_run : bool)
  (s : jstring) : jstring :=
  match s with
  | [] => []
  | c :: r =>
      if p c then
        if in_run then replace_runs p by_ true r
        else by_ :: replace_runs p by_ true r
      else c :: replace_runs p by_ false r
  end.

(** [s.split(sep)] for a separator of one character; the result always
    has at least one element. *)
Fixpoint split_on (sep : ascii) (s : jstring) : list jstring :=
  match s with
  | [] => [[]]
  | c :: r =>
      if Ascii.eqb c sep then [] :: split_on sep r
      else match split_on sep r with
           | w :: ws => (c :: w) :: ws
           | [] => [[c]]
           end
  end.

(** [ws.join(sep)] *)
Fixpoint join (sep : jstring) (ws : list jstring) : jstring :=
  match ws with
  | [] => []
  | w :: rest =>
      match rest with
      | [] => w
      | _ :: _ => w ++ sep ++ join sep rest
      end
  end.

(** [l.slice(i, j)] for [0 <= i <= j]. *)
Definition slice {A : Type} (i j : nat) (l : list A) : list A :=
  firstn (j - i) (skipn i l).

(** [s] starts with [p], compared as the [i] flag compares; the rest of
    [s] after the prefix. *)
Fixpoint strip_prefix_ci (p s : jstring) : option jstring :=
  match p, s with
  | [], _ => Some s
  | _ :: _, [] => None
  | a :: p', c :: s' => if eqb_ci a c then strip_prefix_ci p' s' else None
  end.

Fixpoint strip_prefix (p s : jstring) : option jstring :=
  match p, s with
  | [], _ => Some s
  | _ :: _, [] => None
  | a :: p', c :: s' => if Ascii.eqb a c then strip_prefix p' s' else None
  end.

(** [a === b] on strings *)
Definition str_eqb (a b : jstring) : bool :=
  if list_eq_dec Ascii.ascii_dec a b then true else false.

(** [s.includes(p)] *)
Fixpoint includes (p s : jstring) : bool :=
  match strip_prefix p s with
  | Some _ => true
  | None => match s with
            | [] => false
            | _ :: r => includes p r
            end
  end.

(** Decimal digits of a natural number, most significant first
    (template literals [${idx + 1}], [${vecA.length}]). *)
Fixpoint digits_of (fuel n : nat) (acc : jstring) : jstring :=
  match fuel with
  | 0 => acc
  | S f =>
      let d := ascii_of_nat (48 + n mod 10) in
      if n <? 10 then d :: acc else digits_of f (n / 10) (d :: acc)
  end.

Definition of_nat (n : nat) : jstring := digits_of (S n) n [].

(** The value of a string of ASCII digits ([parseInt(s, 10)] on a match
    of [\d+]). *)
Definition digit_value (c : ascii) : Z := Z.of_nat (nat_of_ascii c - 48).

Definition parse_digits (s : jstring) : Z :=
  fold_left (fun acc c => 10 * acc + digit_value c)%Z s 0%Z.

End JsString.

Import JsString.

(* ================================================================== *)
(** * utils/pdfProcessor.js *)
(* ================================================================== *)

Module PdfProcessor.

(** The text cleaning of [chunkText]:
    [text.replace(/\s+/g, ' ').replace(/\n+/g, '\n').trim()]. *)
Definition cleanText (text : jstring) : jstring :=
  trim (replace_runs (Ascii.eqb newline) newline false
          (replace_runs is_space space false text)).

(** [cleanedText.split(' ')] *)
Definition words_of (text : jstring) : list jstring :=
  split_on space (cleanText text).

(** The [for (let i = 0; i < words.length; i += wordsPerChunk)] loop.
    [chunks] is the array filled by [push].  The loop is bounded by
    [fuel]: [None] means that the bound was reached before the loop
    condition failed. *)
Fixpoint chunk_loop (fuel : nat) (words : list jstring)
  (wordsPerChunk i : nat) (chunks : list jstring) : option (list jstring) :=
  if length words <=? i then Some chunks
  else
    match fuel with
    | 0 => None
    | S fuel' =>
        let chunk := join [space] (slice i (i + wordsPerChunk) words) in
        let chunks' :=
          if 50 <? length (trim chunk) then chunks ++ [trim chunk]
          else chunks in
        chunk_loop fuel' words wordsPerChunk (i + wordsPerChunk) chunks'
    end.

(** [chunkText(text, wordsPerChunk)].  With [wordsPerChunk >= 1] the loop
    body runs at most [words.length] times, the fuel given here; with
    [wordsPerChunk = 0] the index never advances and the source does not
    return, which is the result [None]. *)
Definition chunkText (text : jstring) (wordsPerChunk : nat)
  : option (list jstring) :=
  let words := words_of text in
  chunk_loop (length words) words wordsPerChunk 0 [].

End PdfProcessor.

(* ================================================================== *)
(** * JavaScript values, errors and effects *)
(* ================================================================== *)

Module Js.

(** The values that reach the functions below. *)
Inductive value : Type :=
| VUndefined
| VNull
| VBool (b : bool)
| VNum (x : float)
| VStr (s : jstring)
| VArr (elems : list value)
| VObj (props : list (string * value)).

(** [!!v] *)
Definition truthy (v : value) : bool :=
  match v with
  | VUndefined | VNull => false
  | VBool b => b
  | VNum x => negb (PrimFloat.is_nan x || PrimFloat.is_zero x)
  | VStr s => negb (length s =? 0)
  | VArr _ | VObj _ => true
  end.

Fixpoint lookup (k : string) (props : list (string * value)) : value :=
  match props with
  | [] => VUndefined
  | (k', v) :: rest => if String.eqb k k' then v else lookup k rest
  end.

(** [v?.k]; also [v.k] where [v] is neither [null] nor [undefined]. *)
Definition get (v : value) (k : string) : value :=
  match v with
  | VObj props => lookup k props
  | _ => VUndefined
  end.

Definition is_array (v : value) : bool :=
  match v with VArr _ => true | _ => false end.

Definition is_string (v : value) : bool :=
  match v with VStr _ => true | _ => false end.

Definition is_number (v : value) : bool :=
  match v with VNum _ => true | _ => false end.

(** An [Error] object as the retry wrapper and the handlers read it:
    [message], [status] and [response.status] ([None]: undefined). *)
Record js_error : Type := mkError {
  err_message : option jstring;
  err_status : option Z;
  err_response_status : option Z
}.

(** [new Error(msg)] *)
Definition Error (msg : jstring) : js_error := mkError (Some msg) None None.

(** [`${error.message}`] *)
Definition message_text (e : js_error) : jstring :=
  match err_message e with
  | Some m => m
  | None => js "undefined"
  end.

(** How a call ends: it returns or it throws. *)
Inductive completion (A : Type) : Type :=
| Normal (a : A)
| Throw (e : js_error).

Arguments Normal {A} a.
Arguments Throw {A} e.

(** What the process has done so far to the outside: the number of calls
    made to the remote service, and the delays, in milliseconds, waited
    with [setTimeout], oldest first. *)
Record world : Type := mkWorld {
  calls : nat;
  slept : list Z
}.

Definition tick (w : world) : world := mkWorld (S (calls w)) (slept w).
Definition sleep (ms : Z) (w : world) : world :=
  mkWorld (calls w) (slept w ++ [ms]).

(** Code that runs in a world and returns or throws ([async] functions
    awaited one after the other). *)
Definition M (A : Type) : Type := world -> completion A * world.

Definition ret {A} (a : A) : M A := fun w => (Normal a, w).
Definition throw {A} (e : js_error) : M A := fun w => (Throw e, w).
Definition bind {A B} (m : M A) (k : A -> M B) : M B :=
  fun w => match m w with
           | (Normal a, w1) => k a w1
           | (Throw e, w1) => (Throw e, w1)
           end.
(** [try { m } catch (error) { h error }] *)
Definition try_catch {A} (m : M A) (h : js_error -> M A) : M A :=
  fun w => match m w with
           | (Normal a, w1) => (Normal a, w1)
           | (Throw e, w1) => h e w1
           end.

(** [Math.min(a, b)] and [Math.max(a, b)] on numbers. *)
Definition Math_min (a b : float) : float :=
  if PrimFloat.is_nan a || PrimFloat.is_nan b then nan
  else if (a <? b)%float then a
  else if (b <? a)%float then b
  else if PrimFloat.get_sign a then a else b.

Definition Math_max (a b : float) : float :=
  if PrimFloat.is_nan a || PrimFloat.is_nan b then nan
  else if (a <? b)%float then b
  else if (b <? a)%float then a
  else if PrimFloat.get_sign a then b else a.

(** The integer a number is, when it is one ([Number.isInteger]). *)
Definition integer_of (x : float) : option Z :=
  match Prim2SF x with
  | S754_zero _ => Some 0%Z
  | S754_finite s m e =>
      let sign := if s then (-1)%Z else 1%Z in
      if (0 <=? e)%Z then Some (sign * (Zpos m * 2 ^ e))%Z
      else if (Zpos m mod 2 ^ (- e) =? 0)%Z
           then Some (sign * (Zpos m / 2 ^ (- e)))%Z
           else None
  | _ => None
  end.

End Js.

Import Js.

Declare Scope js_scope.
Delimit Scope js_scope with js.
Notation "x <- m ;; k" := (bind m (fun x => k))
  (at level 61, m at next level, right associativity) : js_scope.
Open Scope js_scope.

(* ================================================================== *)
(** * utils/gemini.js *)
(* ================================================================== *)

Module Gemini.

(** ** The remote service

    [generationConfig] and the model handle are what the source sends
    with each request.  The answer of the service to a request may depend
    on the request and on how many requests were made before it. *)
Record generationConfig : Type := {
  temperature : float;
  maxOutputTokens : Z
}.

Record model_handle : Type := {
  model : jstring;
  config : generationConfig;
  safetySettings : list (jstring * jstring)
}.

(** What the source reads of a generation response: [response.text()]
    and [response?.candidates?.[0]?.finishReason]. *)
Record gen_response : Type := {
  text : jstring;
  finishReason : option jstring
}.

Record service : Type := {
  embedContent : nat -> jstring -> completion value;
  generateContent : nat -> model_handle -> jstring -> completion gen_response
}.

(** [getTextGenerationModel(config)]: the defaults are overridden by the
    two fields every caller passes. *)
Definition getTextGenerationModel (cfg : generationConfig) : model_handle :=
  {| model := js "gemini-2.5-flash-preview-09-2025";
     config := cfg;
     safetySettings :=
       [ (js "HARM_CATEGORY_HARASSMENT", js "BLOCK_MEDIUM_AND_ABOVE");
         (js "HARM_CATEGORY_HATE_SPEECH", js "BLOCK_MEDIUM_AND_ABOVE");
         (js "HARM_CATEGORY_SEXUALLY_EXPLICIT", js "BLOCK_MEDIUM_AND_ABOVE");
         (js "HARM_CATEGORY_DANGEROUS_CONTENT", js "BLOCK_MEDIUM_AND_ABOVE") ] |}.

(** ** Retry with backoff *)

Definition MAX_RETRIES : nat := 3.
Definition INITIAL_RETRY_DELAY : Z := 1000.

(** [error?.status || error?.response?.status] *)
Definition status_of (error : js_error) : option Z :=
  match err_status error with
  | Some s => if (s =? 0)%Z then err_response_status error else Some s
  | None => err_response_status error
  end.

Definition status_is (error : js_error) (code : Z) : bool :=
  match status_of error with
  | Some s => (s =? code)%Z
  | None => false
  end.

(** [error.message?.includes(needle)], as a condition *)
Definition message_includes (error : js_error) (needle : jstring) : bool :=
  match err_message error with
  | Some m => includes needle m
  | None => false
  end.

Definition isRateLimitError (error : js_error) : bool :=
  status_is error 503 || status_is error 429
  || message_includes error (js "overloaded")
  || message_includes error (js "rate limit").

(** The loop [for (let i = 0; i < retries; i++)] of [retryWithBackoff];
    [remaining] is [retries - i]. *)
Fixpoint retry_loop {A} (fn : M A) (retries remaining i : nat) : M A :=
  match remaining with
  | 0 =>
      throw (Error (js "API call failed after " ++ of_nat retries
                    ++ js " retries."))
  | S remaining' =>
      try_catch fn (fun error =>
        let isLastRetry := i =? retries - 1 in
        if isLastRetry || negb (isRateLimitError error) then throw error
        else
          let delay := (INITIAL_RETRY_DELAY * 2 ^ Z.of_nat i)%Z in
          fun w => retry_loop fn retries remaining' (S i) (sleep delay w))
  end.

Definition retryWithBackoff {A} (fn : M A) (retries : nat) : M A :=
  retry_loop fn retries retries 0.

(** ** Embeddings *)

Definition embeddingDimension : nat := 768.

(** [new Array(embeddingDimension).fill(0)] *)
Definition zero_vector : list value := repeat (VNum 0) embeddingDimension.

(** [!text || typeof text !== 'string' || text.trim().length === 0] *)
Definition blank_text (t : value) : bool :=
  negb (truthy t) || negb (is_string t)
  || match t with
     | VStr s => length (trim s) =? 0
     | _ => true
     end.

(** The function that [generateEmbeddings] hands to the retry wrapper for
    one chunk: one request, then the check of the shape of the answer. *)
Definition embed_attempt (svc : service) (t : jstring) : M (list value) :=
  fun w =>
    match embedContent svc (calls w) t with
    | Throw e => (Throw e, tick w)
    | Normal res =>
        match get (get res "embedding") "values" with
        | VArr values =>
            if negb (length values =? embeddingDimension)
            then (Throw (Error (js "Invalid embedding response for chunk (expected dim "
                                ++ of_nat embeddingDimension ++ js ")")), tick w)
            else (Normal values, tick w)
        | _ =>
            (Throw (Error (js "Invalid embedding response for chunk (expected dim "
                           ++ of_nat embeddingDimension ++ js ")")), tick w)
        end
    end.

(** The body of [for (const text of texts)], for one element. *)
Definition embed_item (svc : service) (t : value) : M (list value) :=
  if blank_text t then ret zero_vector
  else
    match t with
    | VStr s =>
        try_catch (retryWithBackoff (embed_attempt svc s) MAX_RETRIES)
                  (fun chunkError => ret zero_vector)
    | _ => ret zero_vector
    end.

(** The loop itself; [embeddings] is the array filled by [push]. *)
Fixpoint embed_loop (svc : service) (texts : list value)
  (embeddings : list (list value)) : M (list (list value)) :=
  match texts with
  | [] => ret embeddings
  | t :: rest =>
      v <- embed_item svc t ;;
      embed_loop svc rest (embeddings ++ [v])
  end.

Definition generateEmbeddings (svc : service) (texts : value)
  : M (list (list value)) :=
  try_catch
    (match texts with
     | VArr ((_ :: _) as elems) => embed_loop svc elems []
     | _ => throw (Error (js "Input must be a non-empty array of texts for embeddings"))
     end)
    (fun error =>
       throw (Error (js "Failed to generate embeddings: " ++ message_text error))).

(** ** Evaluation of the answers *)

Record evaluation : Type := {
  score : Z;
  relevanceScore : Z;
  correctnessScore : Z;
  feedback : jstring
}.

(** [!qa || typeof qa.question !== 'string' || typeof qa.answer !== 'string'] *)
Definition invalid_pair (qa : value) : bool :=
  negb (truthy qa) || negb (is_string (get qa "question"))
  || negb (is_string (get qa "answer")).

(** The [forEach] that validates the pairs: the error of the first pair
    that fails, if any. *)
Fixpoint validate_pairs (idx : nat) (qas : list value) : option js_error :=
  match qas with
  | [] => None
  | qa :: rest =>
      if invalid_pair qa
      then Some (Error (js "Invalid format for question/answer pair at index "
                        ++ of_nat idx
                        ++ js ". Expected {question: string, answer: string}"))
      else validate_pairs (S idx) rest
  end.

(** [`${v}`] for the two fields of a validated pair. *)
Definition string_of (v : value) : jstring :=
  match v with VStr s => s | _ => [] end.

Fixpoint qa_lines (idx : nat) (qas : list value) : list jstring :=
  match qas with
  | [] => []
  | qa :: rest =>
      (js "Question " ++ of_nat (idx + 1) ++ js ": "
       ++ string_of (get qa "question")
       ++ [newline] ++ js "Candidate's Answer: "
       ++ string_of (get qa "answer"))
      :: qa_lines (S idx) rest
  end.

Definition qaText (qas : list value) : jstring :=
  join [newline; newline] (qa_lines 0 qas).

Definition evaluation_prompt (qas : list value) (resumeContext : jstring)
  : jstring :=
  js "You are an expert interview evaluator specializing in software engineering roles (MERN stack). Evaluate the candidate's responses to ALL interview questions below with DETAILED SCORING based on relevance, correctness, and overall quality, considering the provided resume context.

Interview Questions and Answers:
" ++ qaText qas ++ js "

Relevant Context from Candidate's Resume (use this to gauge experience claims):
" ++ resumeContext ++ js "

Evaluation Task:
For EACH question, provide the following on separate lines:
1.  **Relevance Score** (1-10): How directly and completely does the answer address the specific question asked? (1=Off-topic, 10=Perfectly relevant)
2.  **Correctness Score** (1-10): How technically accurate, logically sound, and factually correct is the answer? Consider best practices for MERN stack development. (1=Incorrect, 10=Flawless)
3.  **Overall Score** (1-10): Your combined assessment of the answer's quality, considering clarity, depth, examples, and relevance to the resume context. (1=Poor, 10=Excellent)
4.  **Feedback** (Max 100 words): Constructive feedback that includes:
    * Specific strengths observed in the answer.
    * Clear areas for improvement with actionable suggestions.
    * Comment on how well the answer aligns with or utilizes experience mentioned in the resume context, if applicable.

Format your response EXACTLY like this template for EACH question, ensuring all labels and score formats are precise:

Question 1:
Relevance: [number]/10
Correctness: [number]/10
Overall: [number]/10
Feedback: [Your detailed feedback for Question 1, max 100 words]

Question 2:
Relevance: [number]/10
Correctness: [number]/10
Overall: [number]/10
Feedback: [Your detailed feedback for Question 2, max 100 words]

[...continue this format for all " ++ of_nat (length qas) ++ js " questions...]

Begin evaluation now:".

(** The function handed to the retry wrapper: one generation request,
    then the check for an empty answer. *)
Definition evaluation_attempt (svc : service) (prompt : jstring) : M jstring :=
  fun w =>
    let handle :=
      getTextGenerationModel {| temperature := 0.5; maxOutputTokens := 2048 |} in
    match generateContent svc (calls w) handle prompt with
    | Throw e => (Throw e, tick w)
    | Normal response =>
        if (length (text response) =? 0)
           || (length (trim (text response)) =? 0)
        then
          match finishReason response with
          | Some reason =>
              if str_eqb reason (js "SAFETY")
              then (Throw (Error (js "Evaluation response blocked due to safety filters.")), tick w)
              else if str_eqb reason (js "MAX_TOKENS")
              then (Throw (Error (js "Evaluation response exceeded maximum length.")), tick w)
              else (Throw (Error (js "Empty evaluation response received from AI model")), tick w)
          | None =>
              (Throw (Error (js "Empty evaluation response received from AI model")), tick w)
          end
        else (Normal (text response), tick w)
    end.

(** A match of [/Question\s+\d+:/i] that starts at the first character
    of [s]: its length.  The three character classes are disjoint, so
    the greedy match is the only one. *)
Definition question_header_at (s : jstring) : option nat :=
  match strip_prefix_ci (js "Question") s with
  | None => None
  | Some r1 =>
      let ws := take_while is_space r1 in
      let r2 := drop_while is_space r1 in
      let ds := take_while is_digit r2 in
      let r3 := drop_while is_digit r2 in
      match ws, ds, r3 with
      | _ :: _, _ :: _, c :: _ =>
          if Ascii.eqb c ":"%char
          then Some (8 + length ws + length ds + 1)
          else None
      | _, _, _ => None
      end
  end.

(** [s.split(/Question\s+\d+:/i)]: [skip] characters of a header are
    still to be passed, [cur] is the piece being read, reversed. *)
Fixpoint split_headers (skip : nat) (cur : jstring) (s : jstring)
  : list jstring :=
  match s with
  | [] => [rev cur]
  | c :: r =>
      match skip with
      | S k => split_headers k cur r
      | 0 =>
          match question_header_at s with
          | Some len => rev cur :: split_headers (len - 1) [] r
          | None => split_headers 0 (c :: cur) r
          end
      end
  end.

(** [evaluationText.split(/Question\s+\d+:/i).filter(block => block.trim())] *)
Definition questionBlocks (evaluationText : jstring) : list jstring :=
  filter (fun block => negb (length (trim block) =? 0))
         (split_headers 0 [] evaluationText).

(** A match of [/<label>\s*(\d+)(?:\s*\/10)?/i] at the first character
    of [s]: the digits captured. *)
Definition score_at (label s : jstring) : option jstring :=
  match strip_prefix_ci label s with
  | None => None
  | Some r =>
      match take_while is_digit (drop_while is_space r) with
      | [] => None
      | ds => Some ds
      end
  end.

(** [block.match(/<label>\s*(\d+)(?:\s*\/10)?/i)]: the leftmost match. *)
Fixpoint score_match (label s : jstring) : option jstring :=
  match score_at label s with
  | Some ds => Some ds
  | None => match s with
            | [] => None
            | _ :: r => score_match label r
            end
  end.

(** [block.match] of the pattern [Feedback:], any white space, then
    everything up to the end of the block (flag [i]): the text captured. *)
Fixpoint feedback_match (s : jstring) : option jstring :=
  match strip_prefix_ci (js "Feedback:") s with
  | Some r => Some (drop_while is_space r)
  | None => match s with
            | [] => None
            | _ :: r => feedback_match r
            end
  end.

(** [Math.max(1, Math.min(10, n || 1))] on an integer. *)
Definition clamp_score (n : Z) : Z :=
  Z.max 1 (Z.min 10 (if (n =? 0)%Z then 1 else n)).

(** The body of the parsing loop, for one block.  The captured digits
    denote a natural number, and [Math.round] of the half-sum of two of
    them is the half-sum rounded up.  The source holds these numbers as
    binary64 values, which are exact below 2^53; above, the number
    differs from the integer but both are clamped to 10. *)
Definition parse_block (raw : jstring) : evaluation :=
  let block := trim raw in
  let relevanceMatch := score_match (js "Relevance:") block in
  let correctnessMatch := score_match (js "Correctness:") block in
  let overallMatch := score_match (js "Overall:") block in
  let feedbackMatch := feedback_match block in
  let relevanceScore :=
    match relevanceMatch with Some ds => parse_digits ds | None => 5%Z end in
  let correctnessScore :=
    match correctnessMatch with Some ds => parse_digits ds | None => 5%Z end in
  let overallScore :=
    match overallMatch with
    | Some ds => parse_digits ds
    | None => ((relevanceScore + correctnessScore + 1) / 2)%Z
    end in
  let feedback :=
    match feedbackMatch with
    | Some f => trim f
    | None => js "Feedback could not be parsed. Please check the raw AI response if needed."
    end in
  {| score := clamp_score overallScore;
     relevanceScore := clamp_score relevanceScore;
     correctnessScore := clamp_score correctnessScore;
     feedback := feedback |}.

Definition missing_evaluation : evaluation :=
  {| score := 1; relevanceScore := 1; correctnessScore := 1;
     feedback := js "Evaluation for this question was missing in the AI response." |}.

(** [while (evaluations.length < questionsAndAnswers.length) push(...)];
    [missing] is the difference of the two lengths. *)
Fixpoint pad_loop (missing : nat) (evaluations : list evaluation)
  : list evaluation :=
  match missing with
  | 0 => evaluations
  | S m => pad_loop m (evaluations ++ [missing_evaluation])
  end.

(** The entry of the [catch] handler for the pair at [index]. *)
Definition fallback_evaluation (error : js_error) (index : nat) : evaluation :=
  {| score := 1; relevanceScore := 1; correctnessScore := 1;
     feedback :=
       js "A critical error occurred during evaluation: "
       ++ message_text error
       ++ js ". Unable to provide feedback for question "
       ++ of_nat (index + 1) ++ js "." |}.

(** [resumeContext] after the substitution of the placeholder. *)
Definition effective_context (resumeContext : value) : jstring :=
  match resumeContext with
  | VStr s =>
      if (length s =? 0) || (length (trim s) =? 0)
      then js "No resume context was available for this evaluation."
      else s
  | _ => js "No resume context was available for this evaluation."
  end.

(** The [try] block of [evaluateAllAnswers]. *)
Definition evaluate_body (svc : service) (questionsAndAnswers resumeContext : value)
  : M (list evaluation) :=
  match questionsAndAnswers with
  | VArr ((_ :: _) as qas) =>
      match validate_pairs 0 qas with
      | Some error => throw error
      | None =>
          let prompt := evaluation_prompt qas (effective_context resumeContext) in
          evaluationText <-
            retryWithBackoff (evaluation_attempt svc prompt) MAX_RETRIES ;;
          let blocks := questionBlocks evaluationText in
          if length blocks =? 0
          then throw (Error (js "Failed to parse evaluation response format. Unexpected AI output."))
          else
            let evaluations := map parse_block blocks in
            let evaluations :=
              pad_loop (length qas - length evaluations) evaluations in
            let evaluations :=
              if length qas <? length evaluations
              then firstn (length qas) evaluations
              else evaluations in
            ret evaluations
      end
  | _ => throw (Error (js "Must provide a non-empty array of questions and answers for evaluation"))
  end.

(** [evaluateAllAnswers(questionsAndAnswers, resumeContext)].  The
    [catch] handler maps over [questionsAndAnswers]; on a value that is
    not an array that call itself throws a [TypeError], whose message
    is the engine's. *)
Definition evaluateAllAnswers (svc : service)
  (questionsAndAnswers resumeContext : value) : M (list evaluation) :=
  try_catch (evaluate_body svc questionsAndAnswers resumeContext)
    (fun error =>
       match questionsAndAnswers with
       | VArr qas =>
           ret (map (fallback_evaluation error) (seq 0 (length qas)))
       | VNull =>
           throw (Error (js "Cannot read properties of null (reading 'map')"))
       | VUndefined =>
           throw (Error (js "Cannot read properties of undefined (reading 'map')"))
       | _ => throw (Error (js "questionsAndAnswers.map is not a function"))
       end).

(** ** Similarity *)

(** The numbers of an array whose elements all are numbers
    ([vec.every(n => typeof n === 'number')]). *)
Fixpoint numbers_of (elems : list value) : option (list float) :=
  match elems with
  | [] => Some []
  | VNum x :: rest =>
      match numbers_of rest with
      | Some xs => Some (x :: xs)
      | None => None
      end
  | _ :: _ => None
  end.

(** [vecA.reduce((sum, a, i) => sum + a * vecB[i], 0)] for two vectors of
    one length. *)
Definition dot (a b : list float) : float :=
  fold_left (fun sum p => (sum + fst p * snd p)%float) (combine a b) 0%float.

(** [vec.reduce((sum, a) => sum + a * a, 0)] *)
Definition sum_squares (a : list float) : float :=
  fold_left (fun sum x => (sum + x * x)%float) a 0%float.

Definition cosineSimilarity (vecA vecB : value) : completion float :=
  match vecA, vecB with
  | VArr a, VArr b =>
      if (length a =? 0) || negb (length a =? length b)
      then Throw (Error (js "Invalid vectors for similarity calculation: lengths differ or vector is empty (A: "
                         ++ of_nat (length a) ++ js ", B: "
                         ++ of_nat (length b) ++ js ")"))
      else
        match numbers_of a, numbers_of b with
        | Some xs, Some ys =>
            let dotProduct := dot xs ys in
            let magnitudeA := PrimFloat.sqrt (sum_squares xs) in
            let magnitudeB := PrimFloat.sqrt (sum_squares ys) in
            if (magnitudeA =? 0)%float || (magnitudeB =? 0)%float
            then Normal 0%float
            else
              let similarity := (dotProduct / (magnitudeA * magnitudeB))%float in
              Normal (Math_max (-1) (Math_min 1 similarity))
        | _, _ => Throw (Error (js "Invalid vectors: elements must be numbers."))
        end
  | _, _ => Normal 0%float
  end.

Record match_entry : Type := {
  index : nat;
  chunk : value;
  similarity : float
}.

(** The value of [topK] that is used: 3 unless [topK] is an integer
    number that is at least 1. *)
Definition effective_topK (topK : value) : nat :=
  match topK with
  | VNum x =>
      match integer_of x with
      | Some k => if (k <? 1)%Z then 3 else Z.to_nat k
      | None => 3
      end
  | _ => 3
  end.

(** The callback of [chunks.map]: [None] is the [null] that marks a chunk
    that is skipped. *)
Definition score_chunk (queryEmbedding : value) (index : nat) (chunk : value)
  : option match_entry :=
  match chunk with
  | VObj _ =>
      match get chunk "embedding" with
      | VArr _ =>
          match cosineSimilarity queryEmbedding (get chunk "embedding") with
          | Normal similarityScore =>
              Some {| index := index; chunk := chunk;
                      similarity := similarityScore |}
          | Throw _ => None
          end
      | _ => None
      end
  | _ => None
  end.

Fixpoint score_chunks (queryEmbedding : value) (index : nat)
  (chunks : list value) : list (option match_entry) :=
  match chunks with
  | [] => []
  | c :: rest =>
      score_chunk queryEmbedding index c
      :: score_chunks queryEmbedding (S index) rest
  end.

(** [.filter(item => item !== null && typeof item.similarity === 'number'
    && !isNaN(item.similarity))] *)
Fixpoint keep_scored (items : list (option match_entry)) : list match_entry :=
  match items with
  | [] => []
  | Some item :: rest =>
      if PrimFloat.is_nan (similarity item) then keep_scored rest
      else item :: keep_scored rest
  | None :: rest => keep_scored rest
  end.

(** The comparator [(a, b) => b.similarity - a.similarity]. *)
Definition by_similarity (a b : match_entry) : float :=
  (similarity b - similarity a)%float.

(** [Array.prototype.sort(compare)], which is stable: an element moves
    behind the elements that [compare] puts strictly before it. *)
Fixpoint insert_sorted {A} (compare : A -> A -> float) (x : A) (l : list A)
  : list A :=
  match l with
  | [] => [x]
  | y :: rest =>
      if (0 <? compare x y)%float then y :: insert_sorted compare x rest
      else x :: l
  end.

Definition sort {A} (compare : A -> A -> float) (l : list A) : list A :=
  fold_right (insert_sorted compare) [] l.

Definition findSimilarChunks (queryEmbedding chunks topK : value)
  : list match_entry :=
  match queryEmbedding with
  | VArr (_ :: _) =>
      match chunks with
      | VArr ((_ :: _) as cs) =>
          let topK := effective_topK topK in
          let similarities := keep_scored (score_chunks queryEmbedding 0 cs) in
          firstn topK (sort by_similarity similarities)
      | _ => []
      end
  | _ => []
  end.

End Gemini.

Import Gemini.

(* ================================================================== *)
(** * controllers/documentController.js *)
(* ================================================================== *)

Module DocumentController.

(** What [uploadDocument] does with the extracted text before it asks for
    embeddings: it answers the request itself, or goes on with chunks. *)
Inductive upload_step : Type :=
| Respond (status : Z) (message : jstring)
| Proceed (textChunks : list jstring).

(** From [extractTextFromPDF] to the check of [textChunks].  [None] is a
    call of [chunkText] that does not return. *)
Definition chunking_step (extractedText : jstring) : option upload_step :=
  if (length extractedText =? 0) || (length (trim extractedText) <? 50)
  then Some (Respond 400 (js "Could not extract sufficient text from PDF. Please ensure the PDF contains selectable text and is not just an image."))
  else
    match PdfProcessor.chunkText extractedText 500 with
    | None => None
    | Some textChunks =>
        if length textChunks =? 0
        then Some (Respond 400 (js "Text extracted, but failed to divide into valid chunks."))
        else Some (Proceed textChunks)
    end.

End DocumentController.

(* ================================================================== *)
(** * models/Chat.js *)
(* ================================================================== *)

Module Chat.

(** A message of the transcript.  A [Number] path of the schema holds a
    number or nothing. *)
Record message : Type := {
  role : jstring;
  content : jstring;
  score : option float;
  relevanceScore : option float;
  correctnessScore : option float
}.

Record chat : Type := {
  messages : list message;
  isCompleted : bool;
  finalScore : option float;
  averageRelevance : option float;
  averageCorrectness : option float
}.

(** The number a natural number or an integer is, rounded to nearest
    when it has more than 53 bits. *)
Definition float_of_Z (z : Z) : float :=
  SF2Prim (binary_normalize prec emax z 0 false).

(** [parseFloat(x)] of a number: the number read back from its decimal
    form, in which a zero has no sign. *)
Definition parseFloat_number (x : float) : float :=
  if PrimFloat.is_zero x then 0%float else x.

(** [x || 0] on a number *)
Definition or_zero (x : float) : float :=
  if PrimFloat.is_nan x || PrimFloat.is_zero x then 0%float else x.

(** [parseFloat(msg.relevanceScore) || 0] *)
Definition score_number (x : float) : float := or_zero (parseFloat_number x).

(** [x.toFixed(1)] writes the integer [n] for which [n / 10 - |x|] is
    closest to zero, the larger one if there are two, as a decimal with
    one digit after the point.  For [|x| = m * 2 ^ e] this is [n]. *)
Definition nearest_tenths (m : positive) (e : Z) : Z :=
  if (0 <=? e)%Z then 10 * Zpos m * 2 ^ e
  else (20 * Zpos m + 2 ^ (- e)) / 2 ^ (1 - e).

(** [parseFloat] of the decimal that [toFixed(1)] writes for the sign
    [s] and the integer [n]: the number nearest to [n / 10]. *)
Definition decimal_tenths (s : bool) (n : Z) : float :=
  match n with
  | Zpos p =>
      SF2Prim (SFdiv prec emax (S754_finite s p 0) (S754_finite false 10 0))
  | _ => if s then (-0)%float else 0%float
  end.

(** [parseFloat(x.toFixed(1))].  A number that is not finite, or whose
    magnitude is at least 1e21, is written by [toFixed] as [String(x)]
    writes it, and read back as itself. *)
Definition round1 (x : float) : float :=
  match Prim2SF x with
  | S754_zero _ => 0%float
  | S754_finite s m e =>
      if (PrimFloat.abs x <? 1e21)%float
      then decimal_tenths s (nearest_tenths m e)
      else x
  | _ => x
  end.

(** The filter of [calculateFinalScores]. *)
Definition is_scored (msg : message) : bool :=
  str_eqb (role msg) (js "assistant")
  && match relevanceScore msg, correctnessScore msg with
     | Some _, Some _ => true
     | _, _ => false
     end.

Definition number_or_nan (x : option float) : float :=
  match x with Some v => v | None => nan end.

(** One turn of [scoredMessages.forEach]: the two running totals. *)
Definition add_scores (totals : float * float) (msg : message)
  : float * float :=
  ((fst totals + score_number (number_or_nan (relevanceScore msg)))%float,
   (snd totals + score_number (number_or_nan (correctnessScore msg)))%float).

Definition calculateFinalScores (this : chat) : chat :=
  let scoredMessages := filter is_scored (messages this) in
  if length scoredMessages =? 0 then
    {| messages := messages this; isCompleted := isCompleted this;
       finalScore := None; averageRelevance := None;
       averageCorrectness := None |}
  else
    let totals := fold_left add_scores scoredMessages (0%float, 0%float) in
    let totalRelevance := fst totals in
    let totalCorrectness := snd totals in
    let count := float_of_Z (Z.of_nat (length scoredMessages)) in
    let avgRelevance := (totalRelevance / count)%float in
    let avgCorrectness := (totalCorrectness / count)%float in
    {| messages := messages this; isCompleted := isCompleted this;
       finalScore := Some (round1 ((avgRelevance + avgCorrectness) / 2)%float);
       averageRelevance := Some (round1 avgRelevance);
       averageCorrectness := Some (round1 avgCorrectness) |}.

End Chat.

(* ================================================================== *)
(** * utils/gemini.js: the single embedding and the text generations *)
(* ================================================================== *)

Module GeminiText.

(** The function that [generateEmbedding] hands to the retry wrapper:
    one request, then the check that the answer holds an array that is
    not empty. *)
Definition single_embed_attempt (svc : service) (t : jstring) : M (list value) :=
  fun w =>
    match embedContent svc (calls w) t with
    | Throw e => (Throw e, tick w)
    | Normal result =>
        match get (get result "embedding") "values" with
        | VArr ((_ :: _) as values) => (Normal values, tick w)
        | _ =>
            (Throw (Error (js "Invalid or empty embedding vector received from API")),
             tick w)
        end
    end.

(** What [text.substring(0, 50)] throws in the [catch] handler of
    [generateEmbedding] when [text] is not a string; the message is the
    engine's. *)
Definition substring_TypeError (t : value) : js_error :=
  match t with
  | VUndefined =>
      Error (js "Cannot read properties of undefined (reading 'substring')")
  | VNull =>
      Error (js "Cannot read properties of null (reading 'substring')")
  | _ => Error (js "text.substring is not a function")
  end.

(** [generateEmbedding(text)] *)
Definition generateEmbedding (svc : service) (t : value) : M (list value) :=
  try_catch
    (match t with
     | VStr s =>
         if blank_text t
         then throw (Error (js "Text for embedding must be a non-empty string"))
         else retryWithBackoff (single_embed_attempt svc s) MAX_RETRIES
     | _ => throw (Error (js "Text for embedding must be a non-empty string"))
     end)
    (fun error =>
       match t with
       | VStr _ =>
           throw (Error (js "Failed to generate embedding: " ++ message_text error))
       | _ => throw (substring_TypeError t)
       end).

(** One generation request and the check for an empty answer, as
    [generateChatResponse] and [generateInterviewQuestions] write it:
    the two differ in the configuration, in the three messages and in
    what they return of the text. *)
Definition generation_attempt (cfg : generationConfig)
  (blocked tooLong empty : jstring) (result : jstring -> jstring)
  (svc : service) (prompt : jstring) : M jstring :=
  fun w =>
    match generateContent svc (calls w) (getTextGenerationModel cfg) prompt with
    | Throw e => (Throw e, tick w)
    | Normal response =>
        if (length (text response) =? 0)
           || (length (trim (text response)) =? 0)
        then
          match finishReason response with
          | Some reason =>
              if str_eqb reason (js "SAFETY")
              then (Throw (Error blocked), tick w)
              else if str_eqb reason (js "MAX_TOKENS")
              then (Throw (Error tooLong), tick w)
              else (Throw (Error empty), tick w)
          | None => (Throw (Error empty), tick w)
          end
        else (Normal (result (text response)), tick w)
    end.

(** The attempt of [generateChatResponse]: temperature 0.7, the text as
    it came. *)
Definition chat_attempt : service -> jstring -> M jstring :=
  generation_attempt
    {| temperature := 0x1.6666666666666p-1; maxOutputTokens := 1024 |}
    (js "Chat response blocked due to safety filters.")
    (js "Chat response exceeded maximum length.")
    (js "Empty response received from AI model")
    (fun text => text).

(** [generateChatResponse(prompt)] *)
Definition generateChatResponse (svc : service) (prompt : value) : M jstring :=
  try_catch
    (match prompt with
     | VStr s =>
         if blank_text prompt
         then throw (Error (js "Prompt must be a non-empty string"))
         else retryWithBackoff (chat_attempt svc s) MAX_RETRIES
     | _ => throw (Error (js "Prompt must be a non-empty string"))
     end)
    (fun error =>
       throw (Error (js "Failed to generate chat response: " ++ message_text error))).

(** The number of questions asked for: [numQuestions = 3] when the
    argument is [undefined]; [None] when the check
    [typeof numQuestions !== 'number' || !Number.isInteger(numQuestions)
     || numQuestions < 2 || numQuestions > 10] fails. *)
Definition question_count (numQuestions : value) : option nat :=
  match numQuestions with
  | VUndefined => Some 3
  | VNum x =>
      match integer_of x with
      | Some k => if (k <? 2)%Z || (10 <? k)%Z then None else Some (Z.to_nat k)
      | None => None
      end
  | _ => None
  end.

Definition quote : ascii := ascii_of_nat 34.

Definition questions_prompt (jdText : jstring) (numQuestions : nat) : jstring :=
  let technicalCount := numQuestions - 1 in
  js "You are a professional technical interviewer. Based on the following job description, generate exactly "
  ++ of_nat numQuestions ++ js " relevant interview questions.

Job Description:
" ++ jdText ++ js "

Requirements:
- Generate exactly " ++ of_nat numQuestions ++ js " questions total.
- The first " ++ of_nat technicalCount ++ js " question(s) MUST be TECHNICAL and/or ROLE-SPECIFIC, directly related to the skills and responsibilities mentioned in the job description. Focus on technologies like MERN stack, React, Node.js, Express, MongoDB, Tailwind CSS if mentioned.
- The LAST question (question " ++ of_nat numQuestions ++ js ") MUST be a BEHAVIORAL question assessing teamwork, problem-solving, handling challenges, or communication skills.
- Ensure technical questions are specific and probe understanding (e.g., "
  ++ [quote] ++ js "Explain how you would..." ++ [quote] ++ js " or "
  ++ [quote] ++ js "Describe a time when you..." ++ [quote] ++ js ").
- Keep all questions clear, concise, and suitable for a real interview.
- Format the output STRICTLY as a numbered list, with each question on a new line, like this:
1. [Question 1 text]
2. [Question 2 text]
...
" ++ of_nat numQuestions ++ js ". [Question " ++ of_nat numQuestions ++ js " text]
- Do NOT include any introductory or concluding text, just the numbered questions.

Generate the questions now:".

(** The attempt of [generateInterviewQuestions]: temperature 0.8, the
    text trimmed.  The check of the numbered format only logs. *)
Definition questions_attempt : service -> jstring -> M jstring :=
  generation_attempt
    {| temperature := 0x1.999999999999ap-1; maxOutputTokens := 2048 |}
    (js "Content blocked by safety filters. Try modifying the job description text.")
    (js "AI response exceeded maximum length (2048 tokens). Try requesting fewer questions or ensure the JD text is concise.")
    (js "Empty response received from AI model when generating questions")
    trim.

Definition overloaded_message : jstring :=
  js "AI service is temporarily overloaded. Please try again in a moment.".
Definition rate_limit_message : jstring :=
  js "Rate limit reached. Please wait a minute and try again.".

(** The [catch] handler of [generateInterviewQuestions]: the error it
    throws for the error it caught.  In the branch of status 400 the
    message is read without [?.], which throws when there is none. *)
Definition friendly_error (error : js_error) : js_error :=
  if status_is error 503 || message_includes error (js "overloaded")
  then Error overloaded_message
  else if status_is error 429 || message_includes error (js "rate limit")
  then Error rate_limit_message
  else if status_is error 404
  then Error (js "AI model not found. Please check API configuration.")
  else if status_is error 400 || message_includes error (js "Invalid request")
  then
    match err_message error with
    | None =>
        Error (js "Cannot read properties of undefined (reading 'includes')")
    | Some m =>
        if includes (js "safety") m || includes (js "blocked") m
        then Error (js "Content blocked by safety filters. Please review the job description text.")
        else Error (js "Invalid request sent to AI service. Please check the job description content.")
    end
  else if message_includes error (js "quota")
  then Error (js "API quota exceeded. Please check your Gemini API usage limits.")
  else Error (js "Unable to generate questions: " ++ message_text error).

(** [generateInterviewQuestions(jdText, numQuestions)] *)
Definition generateInterviewQuestions (svc : service)
  (jdText numQuestions : value) : M jstring :=
  try_catch
    (match jdText with
     | VStr s =>
         if blank_text jdText
         then throw (Error (js "Job description text must be a non-empty string"))
         else
           match question_count numQuestions with
           | None =>
               throw (Error (js "Number of questions must be an integer between 2 and 10"))
           | Some n =>
               retryWithBackoff (questions_attempt svc (questions_prompt s n))
                 MAX_RETRIES
           end
     | _ => throw (Error (js "Job description text must be a non-empty string"))
     end)
    (fun error => throw (friendly_error error)).

End GeminiText.

(* ================================================================== *)
(** * controllers/chatController.js: the two parsers *)
(* ================================================================== *)

Module ChatController.

(** A LineTerminator, which [.] does not match and after which [^]
    matches under the [m] flag: LF and CR lie below 256. *)
Definition is_line_terminator (c : ascii) : bool :=
  let n := nat_of_ascii c in (n =? 10) || (n =? 13).

(** [(.+)] at the first character of [s]: the text captured. *)
Definition dot_plus (s : jstring) : option jstring :=
  match take_while (fun c => negb (is_line_terminator c)) s with
  | [] => None
  | g => Some g
  end.

(** [\s*(.+)] at the first character of [s]: the white space is taken
    greedily, and given back one character at a time while [.+] finds
    nothing to match. *)
Fixpoint spaces_then_text (s : jstring) : option jstring :=
  match s with
  | [] => None
  | c :: r =>
      if is_space c then
        match spaces_then_text r with
        | Some g => Some g
        | None => dot_plus s
        end
      else dot_plus s
  end.

(** [line.match(/^(\d+)\.\s*(.+)/)]: the two groups. *)
Definition question_line (line : jstring) : option (jstring * jstring) :=
  match take_while is_digit line, drop_while is_digit line with
  | (_ :: _) as ds, c :: r =>
      if Ascii.eqb c "."%char
      then match spaces_then_text r with
           | Some g => Some (ds, g)
           | None => None
           end
      else None
  | _, _ => None
  end.

(** A parsed question.  [number] is the integer that the digits denote;
    the source holds it as a binary64 value, which is that integer
    below 2^53. *)
Record question : Type := {
  number : Z;
  text : jstring
}.

(** The body of the loop over the lines, for one line. *)
Definition question_of_line (line : jstring) : list question :=
  match question_line line with
  | Some (ds, g) => [ {| number := parse_digits ds; text := trim g |} ]
  | None => []
  end.

(** [parseQuestions(text)] *)
Definition parseQuestions (text : value) : list question :=
  match text with
  | VStr s =>
      if length s =? 0 then []
      else
        let lines :=
          filter (fun line => negb (length line =? 0))
                 (map trim (split_on newline s)) in
        flat_map question_of_line lines
  | _ => []
  end.

(** A match of [/^\d+\.\s*/gm] that starts at the first character of
    [s], which stands at the start of a line: its length. *)
Definition answer_header_at (s : jstring) : option nat :=
  match take_while is_digit s, drop_while is_digit s with
  | (_ :: _) as ds, c :: r =>
      if Ascii.eqb c "."%char
      then Some (length ds + 1 + length (take_while is_space r))
      else None
  | _, _ => None
  end.

(** [text.split(/^\d+\.\s*/gm)]: [skip] characters of a header are still
    to be passed, [line_start] tells that the character before is a
    line terminator or that there is none, [cur] is the piece being
    read, reversed. *)
Fixpoint split_answers (skip : nat) (line_start : bool) (cur : jstring)
  (s : jstring) : list jstring :=
  match s with
  | [] => [rev cur]
  | c :: r =>
      match skip with
      | S k => split_answers k (is_line_terminator c) cur r
      | 0 =>
          match (if line_start then answer_header_at s else None) with
          | Some len =>
              rev cur :: split_answers (len - 1) (is_line_terminator c) [] r
          | None => split_answers 0 (is_line_terminator c) (c :: cur) r
          end
      end
  end.

Record answer : Type := {
  answer_number : nat;
  answer_text : jstring
}.

(** [text.split(/^\d+\.\s*/gm).filter(Boolean)] *)
Definition potentialAnswers (s : jstring) : list jstring :=
  filter (fun piece => negb (length piece =? 0)) (split_answers 0 true [] s).

(** The body of [for (let i = 0; i < expectedCount; i++)]. *)
Definition answer_at (pieces : list jstring) (i : nat) : list answer :=
  match nth_error pieces i with
  | Some piece =>
      if negb (length piece =? 0)
      then [ {| answer_number := i + 1; answer_text := trim piece |} ]
      else []
  | None => []
  end.

(** [parseAnswers(text, expectedCount)]; [None] is [null]. *)
Definition parseAnswers (text : value) (expectedCount : nat)
  : option (list answer) :=
  match text with
  | VStr s =>
      if length s =? 0 then None
      else
        let pieces := potentialAnswers s in
        if expectedCount <=? length pieces then
          let answers := flat_map (answer_at pieces) (seq 0 expectedCount) in
          if negb (length answers =? expectedCount) then None
          else Some answers
        else None
  | _ => None
  end.

End ChatController.

(* ================================================================== *)
(** * client, pages/Chat.jsx: the questions shown and the answers sent *)
(* ================================================================== *)

Module ChatPage.

(** [parseQuestions(text)] of the page: the lines are not trimmed
    before they are matched. *)
Definition parseQuestions (text : jstring) : list ChatController.question :=
  let lines :=
    filter (fun line => negb (length (trim line) =? 0))
           (split_on newline text) in
  flat_map ChatController.question_of_line lines.




End ChatPage.

(* ================================================================== *)
(** * controllers/documentController.js: from the text to the chunks
      of the document *)
(* ================================================================== *)

Module DocumentUpload.

(** How the handler goes on after the text is extracted: it answers the
    request with a status and a message, or it hands these chunks to
    [Document.create]. *)
Inductive upload_result : Type :=
| Answered (status : Z) (message : jstring)
| Created (chunks : list value).

(** [{ text, embedding: embeddings[index] || [] }] *)
Definition chunk_record (text : jstring) (embedding : option (list value))
  : value :=
  VObj [ ("text"%string, VStr text);
         ("embedding"%string,
          VArr (match embedding with Some e => e | None => [] end)) ].

(** [textChunks.map((text, index) => ...)]; [index] is the position of
    the first text. *)
Fixpoint chunks_from (index : nat) (textChunks : list jstring)
  (embeddings : list (list value)) : list value :=
  match textChunks with
  | [] => []
  | text :: rest =>
      chunk_record text (nth_error embeddings index)
      :: chunks_from (S index) rest embeddings
  end.

Definition chunksWithEmbeddings (textChunks : list jstring)
  (embeddings : list (list value)) : list value :=
  chunks_from 0 textChunks embeddings.

(** The message of the [catch] handler of [uploadDocument] for an error
    with the message [m]. *)
Definition failure_message (m : jstring) : jstring :=
  if includes (js "extract text") m
  then js "Failed to read text from the uploaded PDF. Please ensure it contains selectable text."
  else if includes (js "embedding") m
  then js "Failed to process document content with AI. Please try again later."
  else if includes (js "Cloudinary") m
  then js "Failed to save the uploaded file. Please try again."
  else js "Error uploading document. Please try again.".

(** The part of [uploadDocument] after [extractTextFromPDF] returned
    [extractedText], up to the chunks handed to [Document.create], under
    the [catch] handler of the function.  [None] is a call of
    [chunkText] that does not return.  The handler reads
    [error.message.includes], which throws when there is no message. *)
Definition process_text (svc : service) (extractedText : jstring)
  : M (option upload_result) :=
  try_catch
    (match DocumentController.chunking_step extractedText with
     | None => ret None
     | Some (DocumentController.Respond status message) =>
         ret (Some (Answered status message))
     | Some (DocumentController.Proceed textChunks) =>
         embeddings <- generateEmbeddings svc (VArr (map VStr textChunks)) ;;
         if negb (length embeddings =? length textChunks)
         then ret (Some (Answered 500
                           (js "Error generating embeddings for all text chunks.")))
         else if existsb (fun e : list value => length e =? 0) embeddings
         then ret (Some (Answered 500 (js "Invalid embeddings generated.")))
         else ret (Some (Created (chunksWithEmbeddings textChunks embeddings)))
     end)
    (fun error =>
       match err_message error with
       | Some m => ret (Some (Answered 500 (failure_message m)))
       | None =>
           throw (Error (js "Cannot read properties of undefined (reading 'includes')"))
       end).

(** The [catch] handler of [uploadDocument]: the answer 500, with the
    message chosen after [error.message.includes], which throws when
    the error has no message. *)
Definition upload_failure (error : js_error) : M (option (Z * jstring)) :=
  match err_message error with
  | Some m => ret (Some (500%Z, failure_message m))
  | None =>
      throw (Error (js "Cannot read properties of undefined (reading 'includes')"))
  end.

(** [uploadDocument] from the extracted text on: the answer sent, as
    its status and its message.  [create] is [Document.create] for the
    chunks of the document: [None] when the document is stored, and
    else the error that the call throws (an element of an embedding
    that the schema cannot cast to a number, a validation that fails, a
    failure of the database).  The call stands in the [try] block, so
    that its error reaches the handler like any other. *)
Definition uploadDocument (svc : service)
  (create : list value -> option js_error) (extractedText : jstring)
  : M (option (Z * jstring)) :=
  try_catch
    (match DocumentController.chunking_step extractedText with
     | None => ret None
     | Some (DocumentController.Respond status message) =>
         ret (Some (status, message))
     | Some (DocumentController.Proceed textChunks) =>
         embeddings <- generateEmbeddings svc (VArr (map VStr textChunks)) ;;
         if negb (length embeddings =? length textChunks)
         then ret (Some (500%Z,
                         js "Error generating embeddings for all text chunks."))
         else if existsb (fun e : list value => length e =? 0) embeddings
         then ret (Some (500%Z, js "Invalid embeddings generated."))
         else
           match create (chunksWithEmbeddings textChunks embeddings) with
           | Some error => throw error
           | None =>
               ret (Some (201%Z,
                          js "Document uploaded and processed successfully"))
           end
     end)
    upload_failure.

End DocumentUpload.

(* ================================================================== *)
(** * controllers/chatController.js: the two handlers that call the
      model *)
(* ================================================================== *)

Module ChatHandlers.

(** What a handler does once the session and its documents are read
    from the database: it answers with a status and a message, or saves
    the session (and then answers 200).  The handlers are given what
    the queries found; the database itself is not modelled. *)
Inductive handler_result : Type :=
| Reply (status : Z) (message : jstring)
| Saved (chat : Chat.chat).

(** A message without scores. *)
Definition plain_message (role content : jstring) : Chat.message :=
  {| Chat.role := role; Chat.content := content; Chat.score := None;
     Chat.relevanceScore := None; Chat.correctnessScore := None |}.

(** [chunks.map(chunk => chunk.text).filter(Boolean)]; the schema makes
    [text] a string. *)
Definition chunk_texts (chunks : list value) : list jstring :=
  flat_map (fun chunk =>
              match get chunk "text" with
              | VStr s => if length s =? 0 then [] else [s]
              | _ => []
              end) chunks.

(** [jdDoc.chunks.map(...).filter(Boolean).join('\n\n').substring(0, 4000)] *)
Definition jdText (chunks : list value) : jstring :=
  firstn 4000 (join [newline; newline] (chunk_texts chunks)).

(** [chat.totalQuestions || 3] *)
Definition or_three (totalQuestions : value) : value :=
  if truthy totalQuestions then totalQuestions else VNum 3.

(** [aiError.message || 'Failed to generate questions. Please try again.'] *)
Definition message_or_default (error : js_error) : jstring :=
  match err_message error with
  | Some m =>
      if length m =? 0
      then js "Failed to generate questions. Please try again."
      else m
  | None => js "Failed to generate questions. Please try again."
  end.

(** [generateQuestions], from the lookup of the session on: [chat] is
    the session found, if any, [totalQuestions] its field of that name,
    [resumeDoc] and [jdDoc] the chunks of the two documents of the
    session, if found. *)
Definition generateQuestions (svc : service) (chat : option Chat.chat)
  (totalQuestions : value) (resumeDoc jdDoc : option (list value))
  : M handler_result :=
  match chat with
  | None => ret (Reply 404 (js "Session not found or access denied"))
  | Some chat =>
      match resumeDoc, jdDoc with
      | Some _, Some chunks =>
          let jd := jdText chunks in
          if length jd <? 50
          then ret (Reply 400 (js "Job description text is too short or could not be extracted properly."))
          else
            try_catch
              (questionsText <-
                 GeminiText.generateInterviewQuestions svc (VStr jd)
                   (or_three totalQuestions) ;;
               if (length questionsText =? 0)
                  || (length (trim questionsText) =? 0)
               then throw (Error (js "AI service returned empty content"))
               else
                 ret (Saved
                        {| Chat.messages :=
                             [plain_message (js "assistant") (trim questionsText)];
                           Chat.isCompleted := false;
                           Chat.finalScore := None;
                           Chat.averageRelevance := None;
                           Chat.averageCorrectness := None |}))
              (fun aiError => ret (Reply 500 (message_or_default aiError)))
      | _, _ =>
          ret (Reply 400 (js "Please ensure both resume and job description are uploaded for this session"))
      end
  end.

(** [questions.map((q, idx) => ({ question: q.text,
    answer: answers[idx]?.text || '' }))]; [idx] is the position of the
    first question. *)
Fixpoint pairs_from (idx : nat) (questions : list ChatController.question)
  (answers : list ChatController.answer) : list value :=
  match questions with
  | [] => []
  | q :: rest =>
      VObj [ ("question"%string, VStr (ChatController.text q));
             ("answer"%string,
              VStr (match nth_error answers idx with
                    | Some a => ChatController.answer_text a
                    | None => []
                    end)) ]
      :: pairs_from (S idx) rest answers
  end.

(** The message pushed for the evaluation at [idx]; the score of the
    model is not stored. *)
Definition feedback_message (idx : nat) (e : evaluation) : Chat.message :=
  {| Chat.role := js "assistant";
     Chat.content :=
       js "**Question " ++ of_nat (idx + 1) ++ js " Feedback:**"
       ++ [newline] ++ feedback e;
     Chat.score := None;
     Chat.relevanceScore := Some (Chat.float_of_Z (relevanceScore e));
     Chat.correctnessScore := Some (Chat.float_of_Z (correctnessScore e)) |}.

Fixpoint feedback_messages (idx : nat) (evaluations : list evaluation)
  : list Chat.message :=
  match evaluations with
  | [] => []
  | e :: rest => feedback_message idx e :: feedback_messages (S idx) rest
  end.

(** The message of the answer 400 for answers that cannot be parsed. *)
Definition answers_format_message (count : nat) : jstring :=
  js "Please provide exactly " ++ of_nat count
  ++ js " answers in the format: " ++ [GeminiText.quote]
  ++ js "1. Your answer\n2. Your answer\n..." ++ [GeminiText.quote]
  ++ js " ".

(** [submitAnswers], under its [catch] handler: [answersText] is the
    field of the request, [chat] the session found, if any, and
    [resumeDoc] the [chunks] of the resume of the session, if found. *)
Definition submitAnswers (svc : service) (answersText : value)
  (chat : option Chat.chat) (resumeDoc : option value) : M handler_result :=
  try_catch
    (match answersText with
     | VStr s =>
         if (length s =? 0) || (length (trim s) =? 0)
         then ret (Reply 400 (js "Answers are required"))
         else
           match chat with
           | None => ret (Reply 404 (js "Chat session not found"))
           | Some chat =>
               let questionsText :=
                 match Chat.messages chat with
                 | m :: _ => Chat.content m
                 | [] => []
                 end in
               let questions := ChatController.parseQuestions (VStr questionsText) in
               if length questions =? 0
               then ret (Reply 400 (js "No questions found in session"))
               else
                 match ChatController.parseAnswers answersText (length questions) with
                 | None => ret (Reply 400 (answers_format_message (length questions)))
                 | Some answers =>
                     match resumeDoc with
                     | None => ret (Reply 400 (js "Resume not found for this session"))
                     | Some chunks =>
                         let combinedAnswers :=
                           join [space] (map ChatController.answer_text answers) in
                         queryEmbedding <-
                           GeminiText.generateEmbedding svc (VStr combinedAnswers) ;;
                         let resumeChunks :=
                           findSimilarChunks (VArr queryEmbedding) chunks (VNum 3) in
                         let resumeContext :=
                           join [newline; newline]
                             (map (fun item => string_of (get (chunk item) "text"))
                                  resumeChunks) in
                         let questionsAndAnswers := pairs_from 0 questions answers in
                         evaluations <-
                           evaluateAllAnswers svc (VArr questionsAndAnswers)
                             (VStr resumeContext) ;;
                         ret (Saved
                                (Chat.calculateFinalScores
                                   {| Chat.messages :=
                                        Chat.messages chat
                                        ++ [plain_message (js "user") s]
                                        ++ feedback_messages 0 evaluations;
                                      Chat.isCompleted := true;
                                      Chat.finalScore := Chat.finalScore chat;
                                      Chat.averageRelevance := Chat.averageRelevance chat;
                                      Chat.averageCorrectness := Chat.averageCorrectness chat |}))
                     end
                 end
           end
     | _ =>
         if truthy answersText
         then throw (Error (js "answersText.trim is not a function"))
         else ret (Reply 400 (js "Answers are required"))
     end)
    (fun error => ret (Reply 500 (js "Error processing answers"))).

End ChatHandlers.

(* ================================================================== *)
(** * Vocabulary of the statements *)
(* ================================================================== *)

(** A call of the remote service seen from the retry wrapper: the
    outcome of the call depends on how many calls came before. *)
Definition scripted {A} (outcomes : nat -> completion A) : M A :=
  fun w => (outcomes (calls w), tick w).

(** The delay waited just before attempt [i] (counted from 0), when the
    delays of one run of the wrapper are [delays]: none before the first
    attempt. *)
Definition delay_before_attempt (i : nat) (delays : list Z) : option Z :=
  match i with
  | 0 => None
  | S j => nth_error delays j
  end.

(** The schedule "1000ms * 2^i before attempt i". *)
Definition delays_doubling_from_attempt_0 (attempts : nat) (delays : list Z)
  : Prop :=
  forall i, i < attempts ->
    delay_before_attempt i delays = Some (1000 * 2 ^ Z.of_nat i)%Z.

(** A service that is overloaded on every call. *)
Definition always_overloaded : nat -> completion value :=
  fun _ => Throw (mkError (Some (js "The model is overloaded")) (Some 503%Z) None).

(** The array of the numbers [xs]. *)
Definition vector (xs : list float) : value := VArr (map VNum xs).


(** The vector that stands for the text [t] in the result of a batch,
    when the batch reaches [t] in the world [w], and the world in which
    the batch goes on: a blank text costs no call and gives the zero
    vector; any other text is sent under the retry wrapper, and gives
    the vector of the answer, or the zero vector when the wrapper ends
    with an error. *)
Definition item_outcome (svc : service) (t : value) (w : world)
  : list value * world :=
  match t with
  | VStr s =>
      if (length s =? 0) || (length (trim s) =? 0) then (zero_vector, w)
      else
        match retryWithBackoff (embed_attempt svc s) MAX_RETRIES w with
        | (Normal values, w1) => (values, w1)
        | (Throw _, w1) => (zero_vector, w1)
        end
  | _ => (zero_vector, w)
  end.

(** The texts are handled one after the other, in their order, each in
    the world the one before left. *)
Inductive embedded_in_order (svc : service)
  : world -> list value -> list (list value) -> world -> Prop :=
| embedded_nil : forall w, embedded_in_order svc w [] [] w
| embedded_cons : forall w t rest v vs w1 w2,
    item_outcome svc t w = (v, w1) ->
    embedded_in_order svc w1 rest vs w2 ->
    embedded_in_order svc w (t :: rest) (v :: vs) w2.

(** A service that answers every request with status 503. *)
Definition overloaded_service : service :=
  {| embedContent := fun n _ => always_overloaded n;
     generateContent := fun _ _ _ =>
       Throw (mkError (Some (js "The model is overloaded")) (Some 503%Z) None) |}.

(** The three scores of an entry are within 1..10. *)
Definition scores_in_range (e : evaluation) : Prop :=
  (1 <= relevanceScore e <= 10)%Z
  /\ (1 <= correctnessScore e <= 10)%Z
  /\ (1 <= score e <= 10)%Z.

(** The generation request of [evaluateAllAnswers] under the retry
    wrapper, for the pairs [qas] and the resume context [ctx]. *)
Definition generation (svc : service) (qas : list value) (ctx : value)
  : M jstring :=
  retryWithBackoff
    (evaluation_attempt svc (evaluation_prompt qas (effective_context ctx)))
    MAX_RETRIES.

(** The list of fallback entries for [n] pairs. *)
Definition fallback_list (error : js_error) (n : nat) : list evaluation :=
  map (fallback_evaluation error) (seq 0 n).

(** A pair of a question and an answer, both strings. *)
Definition qa_pair (question answer : jstring) : value :=
  VObj [("question"%string, VStr question); ("answer"%string, VStr answer)].

(** A service whose generation answers every prompt with [reply]. *)
Definition replying_service (reply : jstring) : service :=
  {| embedContent := fun n _ => always_overloaded n;
     generateContent := fun _ _ _ =>
       Normal {| text := reply; finishReason := Some (js "STOP") |} |}.

(** The consecutive windows of [n] elements of [l], the last one with
    what is left; [fuel] bounds their number. *)
Fixpoint windows_fuel {A} (fuel n : nat) (l : list A) : list (list A) :=
  match fuel with
  | 0 => []
  | S f =>
      match l with
      | [] => []
      | _ :: _ => firstn n l :: windows_fuel f n (skipn n l)
      end
  end.

Definition windows {A} (n : nat) (l : list A) : list (list A) :=
  windows_fuel (length l) n l.

(** The chunk a window of words is joined to, and the test under which
    the window is kept: a trimmed length above 50. *)
Definition chunk_of (window : list jstring) : jstring :=
  trim (join [space] window).

Definition kept (window : list jstring) : bool :=
  50 <? length (chunk_of window).

(** The number of words of a chunk: its pieces between single spaces. *)
Definition word_count (chunk : jstring) : nat :=
  length (split_on space chunk).

(** ** The shape of a cleaned text *)

(** No white space but single spaces, none after a space; [prev] tells
    whether a space stands just before. *)
Fixpoint single_spaced (prev : bool) (s : jstring) : bool :=
  match s with
  | [] => true
  | c :: r =>
      if is_space c then Ascii.eqb c space && negb prev && single_spaced true r
      else single_spaced false r
  end.

(** The last character, if any, is no white space. *)
Fixpoint ends_clean (s : jstring) : bool :=
  match s with
  | [] => true
  | c :: r =>
      match r with
      | [] => negb (is_space c)
      | _ :: _ => ends_clean r
      end
  end.

(** [s] without its trailing white space. *)
Fixpoint drop_trailing (s : jstring) : jstring :=
  match s with
  | [] => []
  | c :: r =>
      match drop_trailing r with
      | [] => if is_space c then [] else [c]
      | r' => c :: r'
      end
  end.

(** The words of a text: its maximal runs of characters other than
    white space, in their order.  [cur] is the run being read,
    reversed. *)
Fixpoint words_from (cur : jstring) (s : jstring) : list jstring :=
  match s with
  | [] => match cur with [] => [] | _ :: _ => [rev cur] end
  | c :: r =>
      if is_space c then
        match cur with
        | [] => words_from [] r
        | _ :: _ => rev cur :: words_from [] r
        end
      else words_from (c :: cur) r
  end.

(** The words of the input of [chunkText]. *)
Definition input_words (text : jstring) : list jstring := words_from [] text.

(** A text with irregular white space: 21 words. *)
Definition sample_text : jstring :=
  js "  The candidate   has five years of experience
with Node.js and React, then led a team of four engineers.  Thanks a lot. ".

(** A word: not empty, and free of white space. *)
Definition is_word (w : jstring) : Prop :=
  w <> [] /\ Forall (fun c => is_space c = false) w.

(** ** Scores of a session *)

(** The arithmetic mean of numbers, as the source computes it: the sum
    from the left, starting at 0, divided by the count. *)
Definition mean (xs : list float) : float :=
  (fold_left PrimFloat.add xs 0 / Chat.float_of_Z (Z.of_nat (length xs)))%float.

(** A number other than NaN and the negative zero. *)
Definition ordinary_number (x : float) : bool :=
  negb (PrimFloat.is_nan x)
  && negb (PrimFloat.is_zero x && PrimFloat.get_sign x).

(** The scores of the selected messages, as [calculateFinalScores]
    reads them. *)
Definition relevance_values (msgs : list Chat.message) : list float :=
  map (fun msg => Chat.score_number (Chat.number_or_nan (Chat.relevanceScore msg)))
      msgs.

Definition correctness_values (msgs : list Chat.message) : list float :=
  map (fun msg => Chat.score_number (Chat.number_or_nan (Chat.correctnessScore msg)))
      msgs.

(** An evaluation message with the two scores [r] and [c]. *)
Definition scored_message (r c : float) : Chat.message :=
  {| Chat.role := js "assistant"; Chat.content := js "Feedback";
     Chat.score := None;
     Chat.relevanceScore := Some r; Chat.correctnessScore := Some c |}.

(** A session after the submission of two answers: the list of the
    questions, the answers, and two evaluation messages with relevance
    8 and 6 and correctness 6 and 8. *)
Definition two_answers_session : Chat.chat :=
  {| Chat.messages :=
       [ {| Chat.role := js "assistant"; Chat.content := js "1. Q1";
            Chat.score := None; Chat.relevanceScore := None;
            Chat.correctnessScore := None |};
         {| Chat.role := js "user"; Chat.content := js "1. A1";
            Chat.score := None; Chat.relevanceScore := None;
            Chat.correctnessScore := None |};
         scored_message 8 6; scored_message 6 8 ];
     Chat.isCompleted := true;
     Chat.finalScore := None; Chat.averageRelevance := None;
     Chat.averageCorrectness := None |}.

(** A session with three evaluation messages: relevance 7, 8, 8 and
    correctness 9, 9, 8.  The means are 23/3 and 26/3, and their
    half-sum is 49/6. *)
Definition three_answers_session : Chat.chat :=
  {| Chat.messages :=
       [ scored_message 7 9; scored_message 8 9; scored_message 8 8 ];
     Chat.isCompleted := true;
     Chat.finalScore := None; Chat.averageRelevance := None;
     Chat.averageCorrectness := None |}.

(** The positive zero, as a specification float. *)
Definition SFzero : spec_float := S754_zero false.

(** ** Retrieval *)

(** A chunk with a structurally valid embedding: an object whose
    [embedding] is an array. *)
Definition has_embedding (chunk : value) : bool :=
  match chunk with
  | VObj _ => is_array (get chunk "embedding")
  | _ => false
  end.

Definition validChunkCount (chunks : list value) : nat :=
  length (filter has_embedding chunks).

(** [e1] may stand before [e2] in a list sorted descending by
    similarity. *)
Definition descending (e1 e2 : match_entry) : Prop :=
  (similarity e2 <=? similarity e1)%float = true.

(** A chunk with the text "t" and the embedding [xs]. *)
Definition chunk_with (xs : list float) : value :=
  VObj [("text"%string, VStr (js "t")); ("embedding"%string, vector xs)].

(** ** The two calls made under the retry wrapper *)

(** The outcome of the embedding attempt that is the [n]-th call of the
    service, for the text [t]. *)
Definition embed_outcomes (svc : service) (t : jstring) (n : nat)
  : completion (list value) :=
  fst (embed_attempt svc t (mkWorld n [])).

(** The outcome of the generation attempt that is the [n]-th call of
    the service, for the prompt [prompt]. *)
Definition evaluation_outcomes (svc : service) (prompt : jstring) (n : nat)
  : completion jstring :=
  fst (evaluation_attempt svc prompt (mkWorld n [])).

(* ================================================================== *)
(** * Vocabulary of the further statements *)
(* ================================================================== *)

(** The delay waited after the failed attempt [i], counted from 0. *)
Definition backoff_delay (i : nat) : Z := (1000 * 2 ^ Z.of_nat i)%Z.

(** The outcome of the attempt of [generateEmbedding] that is the
    [n]-th call of the service, for the text [t]. *)
Definition single_embed_outcomes (svc : service) (t : jstring) (n : nat)
  : completion (list value) :=
  fst (GeminiText.single_embed_attempt svc t (mkWorld n [])).

(** The outcome of the attempt of [generateChatResponse] and of
    [generateInterviewQuestions] that is the [n]-th call of the
    service. *)
Definition chat_outcomes (svc : service) (prompt : jstring) (n : nat)
  : completion jstring :=
  fst (GeminiText.chat_attempt svc prompt (mkWorld n [])).

Definition questions_outcomes (svc : service) (prompt : jstring) (n : nat)
  : completion jstring :=
  fst (GeminiText.questions_attempt svc prompt (mkWorld n [])).

(** The message of [e] starts with [prefix]. *)
Definition message_starts_with (prefix : jstring) (e : js_error) : Prop :=
  exists cause, err_message e = Some (prefix ++ cause).

(** The texts of a batch that are sent to the service. *)
Definition sent_texts (texts : list value) : list value :=
  filter (fun t => negb (blank_text t)) texts.

(** The delays [delays] were waited between [w] and [w1], [n] at most,
    each of one or two seconds. *)
Definition waited (w w1 : world) (n : nat) : Prop :=
  exists delays,
    slept w1 = slept w ++ delays
    /\ length delays <= n
    /\ Forall (fun d => d = 1000%Z \/ d = 2000%Z) delays.

(** What a batch does for the text [t] that it reaches in the world
    [w], with the vector [v] it keeps for [t] and the world [w1] in
    which it goes on.  A text that is blank or no string is not sent.
    Any other text [s] is sent [k] times, once at least and three times
    at most, as the requests [calls w], ..., [calls w + k - 1] of the
    service, with a wait of one second after the first and of two
    seconds after the second when they are followed by another; every
    request but the last failed with a retryable error; the vector is
    the one of the last answer, or the zero vector when the last request
    failed too. *)
Definition item_requests (svc : service) (t : value) (w : world)
  (v : list value) (w1 : world) : Prop :=
  if blank_text t then v = zero_vector /\ w1 = w
  else
    exists s k,
      t = VStr s
      /\ 1 <= k <= 3
      /\ calls w1 = calls w + k
      /\ slept w1 = slept w ++ firstn (k - 1) [1000; 2000]%Z
      /\ (forall i, i < k - 1 ->
            exists e, embed_outcomes svc s (calls w + i) = Throw e
                      /\ isRateLimitError e = true)
      /\ v = match embed_outcomes svc s (calls w + (k - 1)) with
             | Normal values => values
             | Throw _ => zero_vector
             end.

(** The texts of a batch are handled one after the other, each as
    [item_requests] tells. *)
Inductive requests_in_order (svc : service)
  : world -> list value -> list (list value) -> world -> Prop :=
| requests_nil : forall w, requests_in_order svc w [] [] w
| requests_cons : forall w t rest v vs w1 w2,
    item_requests svc t w v w1 ->
    requests_in_order svc w1 rest vs w2 ->
    requests_in_order svc w (t :: rest) (v :: vs) w2.

(** ** Numbered lists *)





(** The answers numbered by their position, from 1. *)
Fixpoint answers_from (i : nat) (texts : list jstring)
  : list ChatController.answer :=
  match texts with
  | [] => []
  | t :: rest =>
      {| ChatController.answer_number := i + 1;
         ChatController.answer_text := trim t |}
      :: answers_from (S i) rest
  end.


(** A question with a text that is not empty. *)
Definition has_text (q : ChatController.question) : bool :=
  negb (length (ChatController.text q) =? 0).

(** A line that is blank or does not start with white space. *)
Definition flush_left (line : jstring) : Prop :=
  trim line = [] \/ drop_while is_space line = line.

(** ** Retrieval *)

(** A chunk that is given a similarity: it has an embedding array, and
    its cosine similarity with the query is computed and is a number. *)
Definition scorable (queryEmbedding chunk : value) : bool :=
  has_embedding chunk
  && match cosineSimilarity queryEmbedding (get chunk "embedding") with
     | Normal r => negb (PrimFloat.is_nan r)
     | Throw _ => false
     end.

(** Among entries of one similarity the chunk that comes first in the
    document stands first. *)
Definition ties_in_order (e1 e2 : match_entry) : Prop :=
  similarity e1 = similarity e2 -> index e1 < index e2.

(** The entry of the chunk at [index] with the similarity 0. *)
Definition unranked_entry (index : nat) (chunk : value) : match_entry :=
  {| index := index; chunk := chunk; similarity := 0 |}.

Fixpoint unranked_from (index : nat) (chunks : list value)
  : list match_entry :=
  match chunks with
  | [] => []
  | c :: rest => unranked_entry index c :: unranked_from (S index) rest
  end.

(** An embedding service that fails on every request. *)
Definition unavailable (svc : service) : Prop :=
  forall n t, exists e, embedContent svc n t = Throw e.

(** ** The template of the evaluation *)

(** What the model is asked to write for one question: three scores and
    a feedback. *)
Record reply_entry : Type := {
  reply_relevance : nat;
  reply_correctness : nat;
  reply_overall : nat;
  reply_feedback : jstring
}.

(** The four lines of the template for digits [dr], [dc] and [dv] and
    the feedback [f], after the header of the question. *)
Definition template_lines (dr dc dv f : jstring) : jstring :=
  [newline] ++ js "Relevance: " ++ dr ++ js "/10" ++ [newline]
  ++ js "Correctness: " ++ dc ++ js "/10" ++ [newline]
  ++ js "Overall: " ++ dv ++ js "/10" ++ [newline]
  ++ js "Feedback: " ++ f.

Definition entry_lines (e : reply_entry) : jstring :=
  template_lines (of_nat (reply_relevance e)) (of_nat (reply_correctness e))
    (of_nat (reply_overall e)) (reply_feedback e).

(** The blocks [Question i:] and their four lines, numbered from
    [i + 1]. *)
Fixpoint reply_blocks (i : nat) (entries : list reply_entry) : list jstring :=
  match entries with
  | [] => []
  | e :: rest =>
      (js "Question " ++ of_nat (i + 1) ++ js ":" ++ entry_lines e)
      :: reply_blocks (S i) rest
  end.

(** A reply that follows the template: the blocks, a blank line between
    two of them. *)
Definition template_reply (entries : list reply_entry) : jstring :=
  join [newline; newline] (reply_blocks 0 entries).

(** The evaluation that an entry of the reply stands for. *)
Definition entry_evaluation (e : reply_entry) : evaluation :=
  {| score := clamp_score (Z.of_nat (reply_overall e));
     relevanceScore := clamp_score (Z.of_nat (reply_relevance e));
     correctnessScore := clamp_score (Z.of_nat (reply_correctness e));
     feedback := trim (reply_feedback e) |}.

(** The pattern that splits the reply into blocks finds no header
    [Question N:] inside [f]. *)
Definition no_question_header (f : jstring) : Prop :=
  split_headers 0 [] f = [f].

(** The pieces into which the reply is split after its first header:
    the lines of each entry, with the blank line after them for all
    entries but the last. *)
Fixpoint reply_pieces (entries : list reply_entry) : list jstring :=
  match entries with
  | [] => []
  | e :: rest =>
      match rest with
      | [] => [entry_lines e]
      | _ :: _ => (entry_lines e ++ [newline; newline]) :: reply_pieces rest
      end
  end.

(** ** Sessions *)

(** A number within the scale 1..10 of the scores. *)
Definition in_scale (x : float) : bool := ((1 <=? x) && (x <=? 10))%float.

(** The sums that [k] scores within 1..10 can have. *)
Definition sums_of (k : nat) : list Z := map Z.of_nat (seq k (9 * k + 1)).

(** For [k] scores within 1..10 of each kind, the three averages that
    [calculateFinalScores] stores are within the scale, whatever the
    sums are. *)
Definition averages_in_scale (k : nat) : bool :=
  let count := Chat.float_of_Z (Z.of_nat k) in
  forallb (fun sr =>
    forallb (fun sc =>
      let ar := (Chat.float_of_Z sr / count)%float in
      let ac := (Chat.float_of_Z sc / count)%float in
      in_scale (Chat.round1 ar) && in_scale (Chat.round1 ac)
      && in_scale (Chat.round1 ((ar + ac) / 2)%float))
      (sums_of k)) (sums_of k).

(** Adding a score within 1..10 to a total of at most 100 is exact. *)
Definition additions_exact : bool :=
  forallb (fun a =>
    forallb (fun v =>
      PrimFloat.Leibniz.eqb
        (Chat.float_of_Z a + Chat.score_number (Chat.float_of_Z v))%float
        (Chat.float_of_Z (a + v)))
      (map Z.of_nat (seq 1 10))) (map Z.of_nat (seq 0 101)).

(** The text of the first message of a session, or the empty text. *)
Definition questions_text (session : Chat.chat) : jstring :=
  match Chat.messages session with
  | m :: _ => Chat.content m
  | [] => []
  end.


(** A service that answers every embedding request with the vector
    [values] and every generation request with the text [reply]. *)
Definition answering_service (values : list value) (reply : jstring) : service :=
  {| embedContent := fun _ _ =>
       Normal (VObj [("embedding"%string, VObj [("values"%string, VArr values)])]);
     generateContent := fun _ _ _ =>
       Normal {| text := reply; finishReason := Some (js "STOP") |} |}.

(** A session whose first message is the list of two questions. *)
Definition two_questions_session : Chat.chat :=
  {| Chat.messages :=
       [ ChatHandlers.plain_message (js "assistant")
           (js "1. What is a closure?
2. Tell me about a conflict in a team.") ];
     Chat.isCompleted := false;
     Chat.finalScore := None; Chat.averageRelevance := None;
     Chat.averageCorrectness := None |}.




(* ================================================================== *)
(** * Facts on binary64 numbers *)
(* ================================================================== *)

(** ** Rounding and the sign of a difference *)

Section SubSign.
Local Open Scope Z_scope.

Lemma digits2_pos_bounds : forall m,
  2 ^ (Zpos (digits2_pos m) - 1) <= Zpos m < 2 ^ Zpos (digits2_pos m).
Proof.
  induction m as [m IH|m IH|]; cbn [digits2_pos].
  - rewrite Pos2Z.inj_succ. replace (Z.succ (Zpos (digits2_pos m)) - 1) with (Zpos (digits2_pos m)) by lia.
    rewrite Z.pow_succ_r by lia.
    replace (2 ^ Zpos (digits2_pos m)) with (2 * 2 ^ (Zpos (digits2_pos m) - 1)) in *
      by (rewrite <- Z.pow_succ_r by lia; f_equal; lia).
    lia.
  - rewrite Pos2Z.inj_succ. replace (Z.succ (Zpos (digits2_pos m)) - 1) with (Zpos (digits2_pos m)) by lia.
    rewrite Z.pow_succ_r by lia.
    replace (2 ^ Zpos (digits2_pos m)) with (2 * 2 ^ (Zpos (digits2_pos m) - 1)) in *
      by (rewrite <- Z.pow_succ_r by lia; f_equal; lia).
    lia.
  - cbn. lia.
Qed.

Lemma iter_xO_spec : forall d m, Zpos (Pos.iter xO m d) = Zpos m * 2 ^ Zpos d.
Proof.
  intros d m. induction d as [|d IH] using Pos.peano_ind.
  - cbn. lia.
  - rewrite Pos.iter_succ, Pos2Z.inj_succ, Z.pow_succ_r by lia.
    rewrite Pos2Z.inj_xO, IH. lia.
Qed.

Lemma shl_align_spec : forall mx ex ez,
  ez <= ex -> Zpos (fst (shl_align mx ex ez)) = Zpos mx * 2 ^ (ex - ez).
Proof.
  intros mx ex ez H. unfold shl_align.
  destruct (ez - ex) as [|d|d] eqn:E.
  - replace (ex - ez) with 0 by lia. cbn [fst]. lia.
  - lia.
  - cbn [fst]. rewrite iter_xO_spec. f_equal. f_equal. lia.
Qed.

Lemma shl_align_exponent : forall mx ex ez,
  snd (shl_align mx ex ez) = Z.min ex ez.
Proof.
  intros mx ex ez. unfold shl_align.
  destruct (ez - ex) as [|d|d] eqn:E; cbn [snd]; lia.
Qed.

Lemma shr_1_spec : forall r, 0 <= shr_m r -> shr_m (shr_1 r) = shr_m r / 2.
Proof.
  intros [m r s] H. cbn in *.
  destruct m as [|p|p]; [reflexivity| |lia].
  destruct p as [p|p|]; cbn [shr_m].
  - rewrite Pos2Z.inj_xI. apply Z.div_unique with (r := 1); lia.
  - rewrite Pos2Z.inj_xO. apply Z.div_unique with (r := 0); lia.
  - reflexivity.
Qed.

Lemma iter_shr_1_spec : forall k r,
  0 <= shr_m r -> shr_m (iter_pos shr_1 k r) = shr_m r / 2 ^ Zpos k.
Proof.
  induction k as [k IH|k IH|]; intros r H; cbn [iter_pos].
  - assert (H1 : 0 <= shr_m (shr_1 r)).
    { rewrite shr_1_spec by assumption. apply Z.div_pos; lia. }
    assert (H2 : 0 <= shr_m (iter_pos shr_1 k (shr_1 r))).
    { rewrite IH by assumption. apply Z.div_pos; [assumption|]. apply Z.pow_pos_nonneg; lia. }
    rewrite IH, IH, shr_1_spec by assumption.
    rewrite !Z.div_div by (try apply Z.pow_pos_nonneg; lia).
    f_equal. rewrite (Pos2Z.inj_xI k), Z.add_1_r, Z.pow_succ_r by lia.
    replace (2 * Z.pos k) with (Z.pos k + Z.pos k) by lia.
    rewrite (Z.pow_add_r 2 (Z.pos k) (Z.pos k)) by lia. reflexivity.
  - assert (H2 : 0 <= shr_m (iter_pos shr_1 k r)).
    { rewrite IH by assumption. apply Z.div_pos; [assumption|]. apply Z.pow_pos_nonneg; lia. }
    rewrite IH, IH by assumption.
    rewrite !Z.div_div by (try apply Z.pow_pos_nonneg; lia).
    f_equal. rewrite (Pos2Z.inj_xO k).
    replace (2 * Z.pos k) with (Z.pos k + Z.pos k) by lia.
    rewrite (Z.pow_add_r 2 (Z.pos k) (Z.pos k)) by lia. reflexivity.
  - rewrite shr_1_spec by assumption. reflexivity.
Qed.

Lemma shr_m_of_loc : forall m l, shr_m (shr_record_of_loc m l) = m.
Proof. intros m [|[| |]]; reflexivity. Qed.


Lemma shr_fexp_pos : forall m e l,
  0 < m -> (-1074) <= e ->
  0 < shr_m (fst (shr_fexp prec emax m e l)) /\ (-1074) <= snd (shr_fexp prec emax m e l).
Proof.
  intros m e l Hm He. unfold shr_fexp, shr.
  destruct m as [|p|p]; try lia. cbn [Zdigits2].
  pose proof (digits2_pos_bounds p) as Hd.
  set (d := Zpos (digits2_pos p)) in *.
  destruct (fexp prec emax (d + e) - e) as [|k|k] eqn:E; cbn [fst snd];
    rewrite ?shr_m_of_loc; try (split; lia).
  rewrite iter_shr_1_spec by (rewrite shr_m_of_loc; lia).
  rewrite shr_m_of_loc. split; [|lia].
  unfold fexp, SpecFloat.emin, prec, emax in E.
  assert (Hk : Zpos k = d - 53) by lia.
  apply Z.div_str_pos. split; [apply Z.pow_pos_nonneg; lia|].
  eapply Z.le_trans; [|apply Hd].
  apply Z.pow_le_mono_r; lia.
Qed.

Lemma round_nearest_even_pos : forall m l, 0 < m -> 0 < round_nearest_even m l.
Proof.
  intros m [|[| |]] H; cbn; try lia. destruct (Z.even m); lia.
Qed.

(** Rounding keeps the sign, and a positive number stays above zero. *)
Lemma binary_round_aux_sign : forall s m e l,
  match binary_round_aux prec emax s m e l with
  | S754_zero s' | S754_infinity s' | S754_finite s' _ _ => s' = s
  | S754_nan => True
  end.
Proof.
  intros s m e l. unfold binary_round_aux.
  destruct (shr_fexp prec emax m e l) as [mrs' e'].
  destruct (shr_fexp prec emax _ e' loc_Exact) as [mrs'' e''].
  destruct (shr_m mrs''); auto.
  destruct (e'' <=? emax - prec); auto.
Qed.

Lemma binary_round_aux_pos : forall s m e l,
  0 < m -> (-1074) <= e ->
  match binary_round_aux prec emax s m e l with
  | S754_infinity s' | S754_finite s' _ _ => s' = s
  | _ => False
  end.
Proof.
  intros s m e l Hm He. unfold binary_round_aux.
  pose proof (shr_fexp_pos m e l Hm He) as [H1 H2].
  destruct (shr_fexp prec emax m e l) as [mrs' e']. cbn [fst snd] in *.
  pose proof (shr_fexp_pos _ e' loc_Exact
                (round_nearest_even_pos _ (loc_of_shr_record mrs') H1) H2) as [H3 H4].
  destruct (shr_fexp prec emax _ e' loc_Exact) as [mrs'' e'']. cbn [fst snd] in *.
  destruct (shr_m mrs''); try lia.
  destruct (e'' <=? emax - prec); auto.
Qed.

Lemma fexp_emin : forall z, (-1074) <= fexp prec emax z.
Proof. intros z. unfold fexp, SpecFloat.emin, prec, emax. lia. Qed.

Lemma binary_round_pos : forall s m e,
  (-1074) <= e ->
  match binary_round prec emax s m e with
  | S754_infinity s' | S754_finite s' _ _ => s' = s
  | _ => False
  end.
Proof.
  intros s m e He. unfold binary_round.
  pose proof (shl_align_exponent m e (fexp prec emax (Zpos (digits2_pos m) + e))) as Hs.
  destruct (shl_align m e _) as [mz ez]. cbn [snd] in Hs.
  apply binary_round_aux_pos; [lia|].
  pose proof (fexp_emin (Zpos (digits2_pos m) + e)). lia.
Qed.

Lemma binary_round_sign : forall s m e,
  match binary_round prec emax s m e with
  | S754_zero s' | S754_infinity s' | S754_finite s' _ _ => s' = s
  | S754_nan => True
  end.
Proof.
  intros s m e. unfold binary_round.
  destruct (shl_align m e _) as [mz ez]. apply binary_round_aux_sign.
Qed.


Lemma valid_finite_bounds : forall s m e,
  valid_binary (S754_finite s m e) = true ->
  -1074 <= e /\ Zpos m < 2 ^ 53 /\ (-1074 < e -> 2 ^ 52 <= Zpos m).
Proof.
  intros s m e H. cbn [valid_binary] in H. unfold bounded in H.
  apply andb_prop in H. destruct H as [H _].
  unfold canonical_mantissa in H. apply Z.eqb_eq in H.
  unfold fexp, SpecFloat.emin, prec, emax in H.
  pose proof (digits2_pos_bounds m) as [B1 B2].
  set (d := Zpos (digits2_pos m)) in *.
  assert (Hd : 0 < d) by (unfold d; lia).
  split; [lia|]. split.
  - eapply Z.lt_le_trans; [exact B2|]. apply Z.pow_le_mono_r; lia.
  - intros He. assert (d = 53) by lia.
    replace 52 with (d - 1) by lia. exact B1.
Qed.

Lemma SFltb_zero_negative : forall r,
  match r with
  | S754_zero s' | S754_infinity s' | S754_finite s' _ _ => s' = true
  | S754_nan => True
  end ->
  SFltb SFzero r = false.
Proof. intros [s|s| |s m e] H; cbn in *; subst; reflexivity. Qed.

Lemma SFltb_zero_positive : forall r,
  match r with
  | S754_infinity s' | S754_finite s' _ _ => s' = false
  | _ => False
  end ->
  SFltb SFzero r = true.
Proof. intros [s|s| |s m e] H; cbn in *; subst; try reflexivity; contradiction. Qed.

Lemma binary_normalize_neg : forall p e,
  SFltb SFzero (binary_normalize prec emax (Zneg p) e false) = false.
Proof.
  intros p e. apply SFltb_zero_negative. cbn [binary_normalize].
  apply binary_round_sign.
Qed.

Lemma binary_normalize_pos : forall p e,
  -1074 <= e ->
  SFltb SFzero (binary_normalize prec emax (Zpos p) e false) = true.
Proof.
  intros p e He. apply SFltb_zero_positive. cbn [binary_normalize].
  now apply binary_round_pos.
Qed.

(** The difference of two numbers and the reversed difference are not
    both above zero. *)
Lemma SFsub_asym : forall x y,
  SFltb SFzero (SFsub prec emax x y) = true ->
  SFltb SFzero (SFsub prec emax y x) = false.
Proof.
  intros [sx|sx| |sx mx ex] [sy|sy| |sy my ey];
    try (destruct sx, sy; cbn; congruence);
    try (destruct sx; cbn; congruence);
    try (destruct sy; cbn; congruence);
    try (cbn; congruence).
  cbn [SFsub]. rewrite (Z.min_comm ey ex).
  set (X := cond_Zopp sx (Zpos (fst (shl_align mx ex (Z.min ex ey))))).
  set (Y := cond_Zopp sy (Zpos (fst (shl_align my ey (Z.min ex ey))))).
  destruct (X - Y) as [|p|p] eqn:D.
  - cbn. discriminate.
  - intros _. replace (Y - X) with (Zneg p) by lia. apply binary_normalize_neg.
  - rewrite binary_normalize_neg. discriminate.
Qed.

(** When [y < x], the difference [x - y] is above zero. *)
Lemma SFsub_pos : forall x y,
  valid_binary x = true -> valid_binary y = true ->
  SFltb y x = true ->
  SFltb SFzero (SFsub prec emax x y) = true.
Proof.
  intros [sx|sx| |sx mx ex] [sy|sy| |sy my ey] Vx Vy;
    try (destruct sx, sy; cbn; congruence);
    try (destruct sx; cbn; congruence);
    try (destruct sy; cbn; congruence);
    try (cbn; congruence).
  intros H. cbn [SFsub].
  destruct (valid_finite_bounds _ _ _ Vx) as (Ex & Ux & Lx).
  destruct (valid_finite_bounds _ _ _ Vy) as (Ey & Uy & Ly).
  pose proof (shl_align_spec mx ex (Z.min ex ey) ltac:(lia)) as HX.
  pose proof (shl_align_spec my ey (Z.min ex ey) ltac:(lia)) as HY.
  set (X := Zpos (fst (shl_align mx ex (Z.min ex ey)))) in *.
  set (Y := Zpos (fst (shl_align my ey (Z.min ex ey)))) in *.
  assert (P : forall a b, a < b -> 2 <= 2 ^ (b - Z.min b a) /\ 2 ^ (a - Z.min b a) = 1).
  { intros a b Hab. rewrite Z.min_r by lia. replace (a - a) with 0 by lia.
    split; [|reflexivity]. change 2 with (2 ^ 1) at 1.
    apply Z.pow_le_mono_r; lia. }
  assert (P0 : forall a, 2 ^ (a - Z.min a a) = 1).
  { intros a. rewrite Z.min_id, Z.sub_diag. reflexivity. }
  assert (PX : 0 < X) by (rewrite HX; apply Z.mul_pos_pos; [|apply Z.pow_pos_nonneg]; lia).
  assert (PY : 0 < Y) by (rewrite HY; apply Z.mul_pos_pos; [|apply Z.pow_pos_nonneg]; lia).
  assert (D : 0 < cond_Zopp sx X - cond_Zopp sy Y).
  { unfold SFltb in H. cbn [SFcompare] in H.
    destruct sx, sy; cbn [cond_Zopp]; try discriminate; try lia.
    - (* both negative: y < x means y has the larger magnitude *)
      destruct (ey ?= ex) eqn:C.
      + apply Z.compare_eq in C. subst ey. rewrite P0 in HX, HY.
        destruct (Pos.compare_cont Eq my mx) eqn:C2; try discriminate.
        change (Pos.compare_cont Eq my mx) with (my ?= mx)%positive in C2.
        apply Pos.compare_gt_iff in C2.
        assert (Zpos mx < Zpos my) by (apply Pos2Z.pos_lt_pos; exact C2). lia.
      + discriminate.
      + apply Z.compare_gt_iff in C.
        destruct (P ex ey C) as [Q1 Q2]. rewrite (Z.min_comm ey ex) in Q1, Q2.
        rewrite Q2 in HX. specialize (Ly ltac:(lia)).
        assert (2 ^ 52 * 2 <= Zpos my * 2 ^ (ey - Z.min ex ey))
          by (apply Z.mul_le_mono_nonneg; lia).
        change (2 ^ 52 * 2) with (2 ^ 53) in *. lia.
    - (* both positive *)
      destruct (ey ?= ex) eqn:C.
      + apply Z.compare_eq in C. subst ey. rewrite P0 in HX, HY.
        destruct (Pos.compare_cont Eq my mx) eqn:C2; try discriminate.
        change (Pos.compare_cont Eq my mx) with (my ?= mx)%positive in C2.
        assert (Zpos my < Zpos mx) by (apply Pos2Z.pos_lt_pos; exact C2). lia.
      + assert (C' : ey < ex) by exact C.
        destruct (P ey ex C') as [Q1 Q2].
        rewrite Q2 in HY. specialize (Lx ltac:(lia)).
        assert (2 ^ 52 * 2 <= Zpos mx * 2 ^ (ex - Z.min ex ey))
          by (apply Z.mul_le_mono_nonneg; lia).
        change (2 ^ 52 * 2) with (2 ^ 53) in *. lia.
      + discriminate. }
  destruct (cond_Zopp sx X - cond_Zopp sy Y) as [|p|p]; try lia.
  apply binary_normalize_pos. lia.
Qed.

End SubSign.

(** ** Comparisons *)

Section FloatFacts.

Local Open Scope float_scope.

Lemma SFcompare_antisym : forall x y,
  SFcompare y x = option_map CompOpp (SFcompare x y).
Proof.
  intros [sx|sx| |sx mx ex] [sy|sy| |sy my ey]; cbn;
    try reflexivity;
    try (destruct sx; reflexivity);
    try (destruct sy; reflexivity);
    try (destruct sx, sy; reflexivity).
  destruct sx, sy; try reflexivity;
    rewrite (Z.compare_antisym ex ey);
    destruct (ex ?= ey)%Z; cbn; try reflexivity;
    rewrite (Pos.compare_cont_antisym mx my Eq); cbn;
    destruct (Pos.compare_cont Eq mx my); reflexivity.
Qed.

Lemma is_nan_spec : forall x,
  PrimFloat.is_nan x = false -> Prim2SF x <> S754_nan.
Proof.
  intros x H E. unfold PrimFloat.is_nan in H.
  rewrite FloatAxioms.eqb_spec, E in H. discriminate.
Qed.

Lemma SFcompare_defined : forall x y,
  x <> S754_nan -> y <> S754_nan -> exists c, SFcompare x y = Some c.
Proof.
  intros [sx|sx| |sx mx ex] [sy|sy| |sy my ey] Hx Hy; cbn;
    try congruence; eauto.
Qed.


(** Two numbers are comparable: when [x < y] fails, [y <= x]. *)
Lemma not_ltb_leb : forall x y,
  PrimFloat.is_nan x = false -> PrimFloat.is_nan y = false ->
  (x <? y) = false -> (y <=? x) = true.
Proof.
  intros x y Hx Hy. rewrite ltb_spec, leb_spec. unfold SFltb, SFleb.
  rewrite (SFcompare_antisym (Prim2SF x) (Prim2SF y)).
  destruct (SFcompare_defined _ _ (is_nan_spec _ Hx) (is_nan_spec _ Hy)) as [c ->].
  destruct c; cbn; congruence.
Qed.

(** A number that equals zero is one of the two zeros. *)
Lemma is_zero_cases : forall x,
  PrimFloat.is_zero x = true -> x = 0 \/ x = -0.
Proof.
  intros x H. unfold PrimFloat.is_zero in H. rewrite FloatAxioms.eqb_spec in H.
  rewrite <- (SF2Prim_Prim2SF x).
  change (Prim2SF 0) with (S754_zero false) in H.
  destruct (Prim2SF x) as [s|s| |s m e]; cbn in H.
  - destruct s; [right|left]; reflexivity.
  - destruct s; discriminate.
  - discriminate.
  - destruct s; discriminate.
Qed.


(** When [a < b], the difference [b - a] is above zero; and a difference
    and the reversed difference are not both above zero. *)
Lemma sub_pos_of_ltb : forall a b, (a <? b) = true -> (0 <? b - a) = true.
Proof.
  intros a b H. rewrite ltb_spec in H. rewrite ltb_spec, sub_spec.
  change (Prim2SF 0) with SFzero.
  apply SFsub_pos; auto using Prim2SF_valid.
Qed.

Lemma sub_asym : forall a b, (0 <? a - b) = true -> (0 <? b - a) = false.
Proof.
  intros a b H. rewrite ltb_spec, sub_spec in H. rewrite ltb_spec, sub_spec.
  change (Prim2SF 0) with SFzero in *.
  now apply SFsub_asym.
Qed.

End FloatFacts.

(* ================================================================== *)
(** * Facts on binary64 numbers: the tenth of an integer *)
(* ================================================================== *)

Section Tenths.
Local Open Scope Z_scope.

Lemma digits2_of_bounds : forall m k,
  2 ^ (k - 1) <= Zpos m < 2 ^ k -> Zpos (digits2_pos m) = k.
Proof.
  intros m k [Hlo Hhi].
  pose proof (digits2_pos_bounds m) as [Dlo Dhi].
  set (d := Zpos (digits2_pos m)) in *.
  assert (Hd : 0 < d) by (subst d; lia).
  assert (Hk : 0 < k).
  { destruct (Z_lt_le_dec 0 k) as [H|H]; [exact H|].
    destruct (Z.eq_dec k 0) as [->|Hne]; [cbn in Hhi; lia|].
    rewrite Z.pow_neg_r in Hhi by lia. lia. }
  destruct (Z.lt_trichotomy d k) as [Hlt|[Heq|Hgt]]; [|exact Heq|].
  - assert (2 ^ d <= 2 ^ (k - 1)) by (apply Z.pow_le_mono_r; lia). lia.
  - assert (2 ^ k <= 2 ^ (d - 1)) by (apply Z.pow_le_mono_r; lia). lia.
Qed.

Ltac pows :=
  change (2 ^ 52) with 4503599627370496 in *;
  change (2 ^ 53) with 9007199254740992 in *;
  change (2 ^ 54) with 18014398509481984 in *.

Lemma loc_of_record : forall m l,
  loc_of_shr_record (shr_record_of_loc m l) = l.
Proof. intros m [|[| |]]; reflexivity. Qed.

Lemma round_nearest_even_cases : forall m l,
  round_nearest_even m l = m \/ round_nearest_even m l = m + 1.
Proof.
  intros m [|[| |]]; cbn; auto. destruct (Z.even m); auto.
Qed.

Lemma fexp_normal : forall z, -1021 <= z -> fexp prec emax z = z - 53.
Proof. intros z H. unfold fexp, SpecFloat.emin, prec, emax. lia. Qed.

(** Rounding a mantissa of 53 bits leaves it, or adds one to it. *)
Lemma binary_round_aux_normal : forall s q e l,
  2 ^ 52 <= q < 2 ^ 53 -> -1074 <= e <= 969 ->
  exists mf ef,
    binary_round_aux prec emax s q e l = S754_finite s mf ef
    /\ 2 ^ 52 <= Zpos mf < 2 ^ 53
    /\ ((ef = e /\ Zpos mf = round_nearest_even q l)
        \/ (ef = e + 1 /\ 2 * Zpos mf = round_nearest_even q l)).
Proof.
  intros s q e l Hq He.
  destruct q as [|qp|qp]; try lia.
  assert (Hd : Zdigits2 (Zpos qp) = 53)
    by (apply (digits2_of_bounds qp 53); exact Hq).
  unfold binary_round_aux.
  assert (E1 : shr_fexp prec emax (Zpos qp) e l
               = (shr_record_of_loc (Zpos qp) l, e)).
  { unfold shr_fexp. rewrite Hd, fexp_normal by lia.
    replace (53 + e - 53 - e) with 0 by lia. reflexivity. }
  rewrite E1, shr_m_of_loc, loc_of_record.
  set (m1 := round_nearest_even (Zpos qp) l).
  assert (Hm1 : m1 = Zpos qp \/ m1 = Zpos qp + 1)
    by apply round_nearest_even_cases.
  destruct (Z_lt_le_dec m1 (2 ^ 53)) as [Hlt|Hge].
  - assert (Hpos : 2 ^ 52 <= m1) by lia.
    destruct m1 as [|mp|mp] eqn:Em; try lia.
    assert (Hd1 : Zdigits2 (Zpos mp) = 53)
      by (apply (digits2_of_bounds mp 53); lia).
    assert (E2 : shr_fexp prec emax (Zpos mp) e loc_Exact
                 = (shr_record_of_loc (Zpos mp) loc_Exact, e)).
    { unfold shr_fexp. rewrite Hd1, fexp_normal by lia.
      replace (53 + e - 53 - e) with 0 by lia. reflexivity. }
    rewrite E2. cbn [shr_record_of_loc shr_m].
    assert (El : (e <=? emax - prec) = true)
      by (apply Z.leb_le; unfold emax, prec; lia).
    rewrite El. exists mp, e. split; [reflexivity|]. split; [lia|].
    left. split; reflexivity.
  - assert (Em : m1 = 2 ^ 53) by lia.
    rewrite Em.
    assert (E2 : shr_fexp prec emax (2 ^ 53) e loc_Exact
                 = ({| shr_m := 2 ^ 52; shr_r := false; shr_s := false |}, e + 1)).
    { unfold shr_fexp.
      change (Zdigits2 (2 ^ 53)) with 54.
      rewrite fexp_normal by lia.
      replace (54 + e - 53 - e) with 1 by lia. reflexivity. }
    rewrite E2. cbn [shr_m].
    change (2 ^ 52) with (Zpos (2 ^ 52)).
    assert (El : (e + 1 <=? emax - prec) = true)
      by (apply Z.leb_le; unfold emax, prec; lia).
    rewrite El. exists (2 ^ 52)%positive, (e + 1).
    split; [reflexivity|]. split; [lia|].
    right. split; [reflexivity|]. reflexivity.
Qed.

(** A mantissa of 54 bits is first shifted by one bit. *)
Lemma binary_round_aux_shift : forall s q e l,
  2 ^ 53 <= q < 2 ^ 54 -> -1074 <= e ->
  binary_round_aux prec emax s q e l
  = binary_round_aux prec emax s
      (shr_m (shr_1 (shr_record_of_loc q l))) (e + 1)
      (loc_of_shr_record (shr_1 (shr_record_of_loc q l))).
Proof.
  intros s q e l Hq He.
  destruct q as [|qp|qp]; try lia.
  assert (Hd : Zdigits2 (Zpos qp) = 54)
    by (apply (digits2_of_bounds qp 54); exact Hq).
  set (r1 := shr_1 (shr_record_of_loc (Zpos qp) l)).
  assert (Hm : shr_m r1 = Zpos qp / 2).
  { subst r1. rewrite shr_1_spec; rewrite shr_m_of_loc; [reflexivity|lia]. }
  assert (Hh : 2 ^ 52 <= shr_m r1 < 2 ^ 53).
  { rewrite Hm. split.
    - apply Z.div_le_lower_bound; pows; [lia|clear - Hq; lia].
    - apply Z.div_lt_upper_bound; pows; [lia|clear - Hq; lia]. }
  unfold binary_round_aux at 1.
  assert (E1 : shr_fexp prec emax (Zpos qp) e l = (r1, e + 1)).
  { unfold shr_fexp. rewrite Hd, fexp_normal by lia.
    replace (54 + e - 53 - e) with 1 by lia. reflexivity. }
  rewrite E1.
  unfold binary_round_aux.
  destruct (shr_m r1) as [|hp|hp] eqn:Eh; try lia.
  assert (Hd1 : Zdigits2 (Zpos hp) = 53)
    by (apply (digits2_of_bounds hp 53); lia).
  assert (E2 : shr_fexp prec emax (Zpos hp) (e + 1) (loc_of_shr_record r1)
               = (shr_record_of_loc (Zpos hp) (loc_of_shr_record r1), e + 1)).
  { unfold shr_fexp. rewrite Hd1, fexp_normal by lia.
    replace (53 + (e + 1) - 53 - (e + 1)) with 0 by lia. reflexivity. }
  rewrite E2, shr_m_of_loc, loc_of_record. reflexivity.
Qed.

Lemma new_location_tenth : forall r,
  new_location 10 r
  = if r =? 0 then loc_Exact else loc_Inexact (2 * r ?= 10).
Proof. reflexivity. Qed.

(** The quotient by 10, rounded where it stands. *)
Lemma round_tenth : forall q r, 0 <= r < 10 ->
  -5 <= 10 * round_nearest_even q (new_location 10 r) - (10 * q + r) <= 5.
Proof.
  intros q r Hr. rewrite new_location_tenth.
  destruct (Z.eqb_spec r 0) as [->|Hr0]; cbn [round_nearest_even]; [lia|].
  destruct (Z.compare_spec (2 * r) 10) as [H|H|H]; [|lia|lia].
  destruct (Z.even q); lia.
Qed.

(** The quotient by 10, rounded after a shift by one bit. *)
Lemma round_tenth_shifted : forall qp r, 0 <= r < 10 ->
  let r1 := shr_1 (shr_record_of_loc (Zpos qp) (new_location 10 r)) in
  -10 <= 20 * round_nearest_even (shr_m r1) (loc_of_shr_record r1)
         - (10 * Zpos qp + r) <= 10.
Proof.
  intros qp r Hr. cbv zeta. rewrite new_location_tenth.
  destruct (Z.eqb_spec r 0) as [->|Hr0];
    [|destruct (Z.compare_spec (2 * r) 10) as [H|H|H]];
    destruct qp as [qp|qp|];
    cbn [shr_1 shr_record_of_loc loc_of_shr_record shr_m orb
         round_nearest_even];
    repeat match goal with
           | |- context [Zpos (xI ?x)] => is_var x; rewrite (Pos2Z.inj_xI x)
           | |- context [Zpos (xO ?x)] => is_var x; rewrite (Pos2Z.inj_xO x)
           end;
    try lia;
    match goal with
    | |- context [Z.even ?x] => destruct (Z.even x); lia
    end.
Qed.

(** The quotient of a positive integer below 2^53 by 10: a number with
    a mantissa of 53 bits, at most half a unit of its last bit away from
    the tenth of the integer. *)
Lemma SFdiv_tenths : forall s p,
  Zpos p < 2 ^ 53 ->
  exists mf ef,
    SFdiv prec emax (S754_finite s p 0) (S754_finite false 10 0)
    = S754_finite s mf ef
    /\ 2 ^ 52 <= Zpos mf < 2 ^ 53
    /\ -1074 <= ef < 0
    /\ -5 <= 10 * Zpos mf - Zpos p * 2 ^ (- ef) <= 5.
Proof.
  intros s p Hp.
  pose proof (digits2_pos_bounds p) as [Dlo Dhi].
  set (d := Zpos (digits2_pos p)) in *.
  assert (Hd : 1 <= d <= 53).
  { split; [subst d; lia|].
    destruct (Z_lt_le_dec 53 d) as [H|H]; [|exact H].
    assert (2 ^ 53 <= 2 ^ (d - 1)) by (apply Z.pow_le_mono_r; lia). lia. }
  unfold SFdiv, SFdiv_core_binary.
  change (Zdigits2 (Zpos p)) with d. change (Zdigits2 10) with 4.
  assert (Ee : Z.min (fexp prec emax (d + 0 - (4 + 0))) (0 - 0) = d - 57).
  { unfold fexp, SpecFloat.emin, prec, emax. lia. }
  rewrite Ee.
  destruct (0 - 0 - (d - 57)) as [|k|k] eqn:Ek; try lia.
  rewrite Z.shiftl_mul_pow2 by lia.
  assert (Hk : Zpos k = 57 - d) by lia.
  assert (Hk4 : 2 ^ Zpos k = 4 * 2 ^ (55 - d)).
  { rewrite Hk. replace (57 - d) with (2 + (55 - d)) by lia.
    rewrite Z.pow_add_r by lia. reflexivity. }
  assert (HA : 0 < 2 ^ (55 - d)) by (apply Z.pow_pos_nonneg; lia).
  assert (HM : 2 ^ 56 <= Zpos p * 2 ^ Zpos k < 2 ^ 57).
  { rewrite Hk.
    assert (E56 : 2 ^ 56 = 2 ^ (d - 1) * 2 ^ (57 - d)).
    { rewrite <- Z.pow_add_r by lia. f_equal. lia. }
    assert (E57 : 2 ^ 57 = 2 ^ d * 2 ^ (57 - d)).
    { rewrite <- Z.pow_add_r by lia. f_equal. lia. }
    assert (0 < 2 ^ (57 - d)) by (apply Z.pow_pos_nonneg; lia).
    rewrite E56, E57. split.
    - apply Z.mul_le_mono_nonneg_r; lia.
    - apply Z.mul_lt_mono_pos_r; lia. }
  set (M := Zpos p * 2 ^ Zpos k) in *.
  pose proof (Z_div_mod M 10 ltac:(lia)) as Hdiv.
  destruct (Z.div_eucl M 10) as [q r] eqn:Eq.
  destruct Hdiv as [HMq Hr].
  rewrite xorb_false_r.
  assert (Hq : 2 ^ 52 <= q < 2 ^ 54)
    by (change (2 ^ 56) with 72057594037927936 in HM;
        change (2 ^ 57) with 144115188075855872 in HM;
        change (2 ^ 52) with 4503599627370496;
        change (2 ^ 54) with 18014398509481984; lia).
  assert (Hpow : forall j, 0 <= j <= 2 ->
            Zpos p * 2 ^ (- (d - 57 + j)) * 2 ^ j = M).
  { intros j Hj. subst M. rewrite Hk, <- Z.mul_assoc, <- Z.pow_add_r by lia.
    f_equal. f_equal. lia. }
  destruct (Z_lt_le_dec q (2 ^ 53)) as [Hlt|Hge].
  - destruct (binary_round_aux_normal s q (d - 57) (new_location 10 r))
      as (mf & ef & Hrun & Hmf & Hcase); [lia|lia|].
    exists mf, ef. split; [exact Hrun|]. split; [exact Hmf|].
    pose proof (round_tenth q r Hr) as Hround.
    destruct Hcase as [[-> Hm]|[-> Hm]].
    + split; [lia|]. specialize (Hpow 0 ltac:(lia)).
      rewrite Z.add_0_r in Hpow. change (2 ^ 0) with 1 in Hpow.
      rewrite Hm. lia.
    + split; [lia|]. specialize (Hpow 1 ltac:(lia)).
      change (2 ^ 1) with 2 in Hpow. lia.
  - rewrite binary_round_aux_shift by lia.
    destruct q as [|qp|qp]; try lia.
    pose proof (round_tenth_shifted qp r Hr) as Hround. cbv zeta in Hround.
    set (r1 := shr_1 (shr_record_of_loc (Zpos qp) (new_location 10 r))) in *.
    assert (Hh : 2 ^ 52 <= shr_m r1 < 2 ^ 53).
    { subst r1. rewrite shr_1_spec; rewrite shr_m_of_loc; [|lia]. split.
      - apply Z.div_le_lower_bound; pows; [lia|clear - Hge Hq; lia].
      - apply Z.div_lt_upper_bound; pows; [lia|clear - Hge Hq; lia]. }
    destruct (binary_round_aux_normal s (shr_m r1) (d - 57 + 1)
                (loc_of_shr_record r1))
      as (mf & ef & Hrun & Hmf & Hcase); [lia|lia|].
    exists mf, ef. split; [exact Hrun|]. split; [exact Hmf|].
    destruct Hcase as [[-> Hm]|[-> Hm]].
    + split; [lia|]. specialize (Hpow 1 ltac:(lia)).
      change (2 ^ 1) with 2 in Hpow. lia.
    + split; [lia|]. specialize (Hpow 2 ltac:(lia)).
      replace (d - 57 + 1 + 1) with (d - 57 + 2) by lia.
      change (2 ^ 2) with 4 in Hpow. lia.
Qed.

End Tenths.

(* ================================================================== *)
(** * Facts on binary64 numbers: the order *)
(* ================================================================== *)

Lemma SFcompare_finite_trans : forall s1 m1 e1 s2 m2 e2 s3 m3 e3 c1 c2,
  SFcompare (S754_finite s1 m1 e1) (S754_finite s2 m2 e2) = Some c1 ->
  SFcompare (S754_finite s2 m2 e2) (S754_finite s3 m3 e3) = Some c2 ->
  c1 <> Gt -> c2 <> Gt ->
  exists c3, SFcompare (S754_finite s1 m1 e1) (S754_finite s3 m3 e3) = Some c3
             /\ c3 <> Gt.
Proof.
  intros s1 m1 e1 s2 m2 e2 s3 m3 e3 c1 c2. cbn.
  fold (Pos.compare m1 m2). fold (Pos.compare m2 m3). fold (Pos.compare m1 m3).
  destruct s1, s2, s3; intros [= <-] [= <-] H1 H2; try congruence;
    try (eexists; split; [reflexivity|discriminate]);
    destruct (Z.compare_spec e1 e2), (Z.compare_spec e2 e3),
             (Z.compare_spec e1 e3); try lia; try congruence;
    try (eexists; split; [reflexivity|discriminate]);
    subst;
    destruct (Pos.compare_spec m1 m2), (Pos.compare_spec m2 m3),
             (Pos.compare_spec m1 m3); cbn in *; try lia; try congruence;
    try (eexists; split; [reflexivity|discriminate]).
Qed.

Lemma SFleb_trans : forall x y z,
  SFleb x y = true -> SFleb y z = true -> SFleb x z = true.
Proof.
  intros x y z. unfold SFleb.
  destruct x as [sx|sx| |sx mx ex], y as [sy|sy| |sy my ey],
           z as [sz|sz| |sz mz ez];
    try (cbn; congruence);
    try (destruct sx; cbn; congruence);
    try (destruct sy; cbn; congruence);
    try (destruct sz; cbn; congruence);
    try (destruct sx, sy; cbn; congruence);
    try (destruct sx, sz; cbn; congruence);
    try (destruct sy, sz; cbn; congruence);
    try (destruct sx, sy, sz; cbn; congruence).
  destruct (SFcompare (S754_finite sx mx ex) (S754_finite sy my ey))
    as [c1|] eqn:E1; [|discriminate].
  destruct (SFcompare (S754_finite sy my ey) (S754_finite sz mz ez))
    as [c2|] eqn:E2; [|discriminate].
  intros H1 H2.
  destruct (SFcompare_finite_trans _ _ _ _ _ _ _ _ _ _ _ E1 E2)
    as (c3 & -> & H3).
  - destruct c1; congruence.
  - destruct c2; congruence.
  - destruct c3; congruence.
Qed.

Lemma leb_trans : forall x y z : float,
  (x <=? y)%float = true -> (y <=? z)%float = true -> (x <=? z)%float = true.
Proof. intros x y z. rewrite !leb_spec. apply SFleb_trans. Qed.

Section FloatOrder.
Local Open Scope float_scope.




End FloatOrder.

(* ================================================================== *)
(** * The retry wrapper *)
(* ================================================================== *)

Lemma retry_three_attempts : forall A (outcomes : nat -> completion A) c s,
  retryWithBackoff (scripted outcomes) MAX_RETRIES (mkWorld c s) =
  match outcomes c with
  | Normal a => (Normal a, mkWorld (S c) s)
  | Throw e0 =>
      if isRateLimitError e0 then
        match outcomes (S c) with
        | Normal a => (Normal a, mkWorld (S (S c)) (s ++ [1000%Z]))
        | Throw e1 =>
            if isRateLimitError e1 then
              (outcomes (S (S c)),
               mkWorld (S (S (S c))) ((s ++ [1000%Z]) ++ [2000%Z]))
            else (Throw e1, mkWorld (S (S c)) (s ++ [1000%Z]))
        end
      else (Throw e0, mkWorld (S c) s)
  end.
Proof.
  intros. unfold retryWithBackoff, MAX_RETRIES. cbn [retry_loop].
  unfold try_catch, scripted, throw, tick, sleep, INITIAL_RETRY_DELAY.
  cbn -[isRateLimitError].
  destruct (outcomes c) as [a0|e0]; [reflexivity|].
  destruct (isRateLimitError e0); cbn -[isRateLimitError]; [|reflexivity].
  destruct (outcomes (S c)) as [a1|e1]; [reflexivity|].
  destruct (isRateLimitError e1); cbn -[isRateLimitError]; [|reflexivity].
  destruct (outcomes (S (S c))) as [a2|e2]; reflexivity.
Qed.

(** C8, as the code has it: at most three attempts; an attempt is
    followed by another one only if it failed with a retryable error
    (status 429 or 503, or a message that includes "overloaded" or
    "rate limit"); the wait after the failed attempt [i] (counted from 0)
    is 1000 * 2^i ms, so that one second is waited before the second
    attempt and two seconds before the third, and nothing before the
    first; the result is the outcome of the last attempt made, an error
    unchanged. *)
Theorem retryWithBackoff_policy :
  forall A (outcomes : nat -> completion A) (w : world),
    let run := retryWithBackoff (scripted outcomes) MAX_RETRIES w in
    let attempts := calls (snd run) - calls w in
    1 <= attempts <= 3 /\
    fst run = outcomes (calls w + (attempts - 1)) /\
    slept (snd run) =
      slept w ++ map (fun i => (1000 * 2 ^ Z.of_nat i)%Z) (seq 0 (attempts - 1)) /\
    (forall k, k < attempts - 1 ->
       exists e, outcomes (calls w + k) = Throw e /\ isRateLimitError e = true) /\
    (forall e, fst run = Throw e -> attempts = 3 \/ isRateLimitError e = false).
Proof.
  intros A outcomes [c s] run. subst run.
  rewrite retry_three_attempts. cbn [calls slept].
  assert (E1 : c + 0 = c) by lia.
  assert (E2 : c + 1 = S c) by lia.
  assert (E3 : c + 2 = S (S c)) by lia.
  destruct (outcomes c) as [a0|e0] eqn:H0.
  { cbn [fst snd calls slept]. replace (S c - c) with 1 by lia.
    cbn. rewrite E1, app_nil_r.
    repeat split; auto; try lia; intros; try lia; congruence. }
  destruct (isRateLimitError e0) eqn:R0.
  2:{ cbn [fst snd calls slept]. replace (S c - c) with 1 by lia.
      cbn. rewrite E1, app_nil_r.
      repeat split; auto; try lia; intros; try lia.
      right. congruence. }
  assert (K1 : forall k, k < 1 ->
             exists e, outcomes (c + k) = Throw e /\ isRateLimitError e = true).
  { intros k Hk. assert (k = 0) by lia. subst k. rewrite E1. eauto. }
  destruct (outcomes (S c)) as [a1|e1] eqn:H1.
  { cbn [fst snd calls slept]. replace (S (S c) - c) with 2 by lia.
    cbn. rewrite E2.
    repeat split; auto; try lia; congruence. }
  destruct (isRateLimitError e1) eqn:R1.
  2:{ cbn [fst snd calls slept]. replace (S (S c) - c) with 2 by lia.
      cbn. rewrite E2.
      repeat split; auto; try lia.
      intros e He. right. congruence. }
  cbn [fst snd calls slept]. replace (S (S (S c)) - c) with 3 by lia.
  cbn. rewrite E3, <- app_assoc. cbn.
  repeat split; auto; try lia.
  intros k Hk. destruct k as [|[|k]]; try lia.
  - rewrite E1. eauto.
  - rewrite E2. eauto.
Qed.

(** C8, the schedule as the claim words it, refuted: when every attempt
    is answered with status 503, three attempts are made and the waits
    are 1000 and 2000 ms; 1000 * 2^0 is not waited before attempt 0. *)
Lemma retry_delay_schedule_counterexample :
  let run := retryWithBackoff (scripted always_overloaded) MAX_RETRIES (mkWorld 0 []) in
  calls (snd run) = 3 /\
  slept (snd run) = [1000; 2000]%Z /\
  ~ delays_doubling_from_attempt_0 3 (slept (snd run)).
Proof.
  cbv zeta. split; [reflexivity|]. split; [reflexivity|].
  intros H. specialize (H 0 ltac:(lia)). cbn in H. discriminate.
Qed.

(** The wrapper reads of its argument only what it returns in each
    world; the two functions it is given by [generateEmbeddings] and by
    [evaluateAllAnswers] make one call of the service each, so that the
    policy above is the policy of these two calls. *)
Lemma retry_loop_ext : forall A (fn fn' : M A),
  (forall w, fn w = fn' w) ->
  forall retries remaining i w,
    retry_loop fn retries remaining i w = retry_loop fn' retries remaining i w.
Proof.
  intros A fn fn' Hext retries remaining.
  induction remaining as [|remaining IH]; intros i w; cbn [retry_loop];
    [reflexivity|].
  unfold try_catch. rewrite Hext.
  destruct (fn' w) as [[a|e] w1]; [reflexivity|].
  destruct ((i =? retries - 1) || negb (isRateLimitError e)); [reflexivity|].
  apply IH.
Qed.

Lemma embed_attempt_scripted : forall svc t w,
  embed_attempt svc t w = scripted (embed_outcomes svc t) w.
Proof.
  intros svc t w. unfold scripted, embed_outcomes, embed_attempt.
  cbn [calls].
  destruct (embedContent svc (calls w) t) as [res|e]; [|reflexivity].
  destruct (get (get res "embedding") "values") as [| |b|x|s|values|props];
    try reflexivity.
  destruct (negb (length values =? embeddingDimension)); reflexivity.
Qed.

Lemma evaluation_attempt_scripted : forall svc prompt w,
  evaluation_attempt svc prompt w = scripted (evaluation_outcomes svc prompt) w.
Proof.
  intros svc prompt w. unfold scripted, evaluation_outcomes, evaluation_attempt.
  cbn [calls].
  destruct (generateContent svc (calls w) _ prompt) as [response|e];
    [|reflexivity].
  destruct ((length (text response) =? 0) || (length (trim (text response)) =? 0));
    [|reflexivity].
  destruct (finishReason response) as [reason|]; [|reflexivity].
  destruct (str_eqb reason (js "SAFETY")); [reflexivity|].
  destruct (str_eqb reason (js "MAX_TOKENS")); reflexivity.
Qed.

Lemma retry_of_attempts : forall svc t prompt w,
  retryWithBackoff (embed_attempt svc t) MAX_RETRIES w
  = retryWithBackoff (scripted (embed_outcomes svc t)) MAX_RETRIES w
  /\ retryWithBackoff (evaluation_attempt svc prompt) MAX_RETRIES w
     = retryWithBackoff (scripted (evaluation_outcomes svc prompt)) MAX_RETRIES w.
Proof.
  intros. unfold retryWithBackoff. split; apply retry_loop_ext; intros w0.
  - apply embed_attempt_scripted.
  - apply evaluation_attempt_scripted.
Qed.


(* ================================================================== *)
(** * Cosine similarity *)
(* ================================================================== *)

Lemma numbers_of_vector : forall xs, numbers_of (map VNum xs) = Some xs.
Proof.
  induction xs as [|x xs IH]; cbn; [reflexivity|]. now rewrite IH.
Qed.


Lemma sum_squares_zeros : forall zs,
  Forall (fun z => PrimFloat.is_zero z = true) zs ->
  sum_squares zs = 0%float.
Proof.
  unfold sum_squares. induction 1 as [|z zs Hz _ IH]; cbn; [reflexivity|].
  destruct (is_zero_cases _ Hz) as [-> | ->]; exact IH.
Qed.


(** C10: when either argument is not an array, [cosineSimilarity]
    returns 0 and raises no error. *)
Theorem cosineSimilarity_non_array : forall vecA vecB,
  is_array vecA = false \/ is_array vecB = false ->
  cosineSimilarity vecA vecB = Normal 0%float.
Proof.
  intros vecA vecB [H|H]; destruct vecA, vecB; cbn in *;
    try discriminate; reflexivity.
Qed.

Lemma cosineSimilarity_non_array_witness :
  cosineSimilarity VNull (vector [1%float]) = Normal 0%float.
Proof.
  apply cosineSimilarity_non_array. left. reflexivity.
Defined.

Lemma cosineSimilarity_numbers : forall xs ys,
  xs <> [] -> length xs = length ys ->
  cosineSimilarity (vector xs) (vector ys) =
  if ((PrimFloat.sqrt (sum_squares xs) =? 0) || (PrimFloat.sqrt (sum_squares ys) =? 0))%float
  then Normal 0%float
  else Normal (Math_max (-1) (Math_min 1
         (dot xs ys / (PrimFloat.sqrt (sum_squares xs) * PrimFloat.sqrt (sum_squares ys)))%float)).
Proof.
  intros xs ys Hne Hlen. unfold cosineSimilarity, vector.
  rewrite !length_map, Hlen, Nat.eqb_refl.
  destruct ys as [|y ys]; [destruct xs; [congruence|discriminate]|].
  cbn [length Nat.eqb negb orb].
  rewrite !numbers_of_vector. reflexivity.
Qed.


Section Clamp.
Local Open Scope float_scope.



End Clamp.


(* ================================================================== *)
(** * Embeddings of a batch *)
(* ================================================================== *)

Lemma zero_vector_length : length zero_vector = embeddingDimension.
Proof. apply repeat_length. Qed.

Lemma embed_attempt_dimension : forall svc s w values w1,
  embed_attempt svc s w = (Normal values, w1) ->
  length values = embeddingDimension.
Proof.
  intros svc s w values w1. unfold embed_attempt.
  destruct (embedContent svc (calls w) s) as [res|e]; [|discriminate].
  destruct (get (get res "embedding") "values") as [| |b|x|s0|elems|props];
    try discriminate.
  destruct (length elems =? embeddingDimension) eqn:E; cbn [negb];
    [|discriminate].
  intros [= <- _]. now apply Nat.eqb_eq.
Qed.

Lemma retry_loop_result : forall A (P : A -> Prop) (fn : M A),
  (forall w a w1, fn w = (Normal a, w1) -> P a) ->
  forall retries remaining i w a w1,
    retry_loop fn retries remaining i w = (Normal a, w1) -> P a.
Proof.
  intros A P fn Hfn retries remaining.
  induction remaining as [|remaining IH]; intros i w a w1; cbn [retry_loop].
  - discriminate.
  - unfold try_catch. destruct (fn w) as [[a0|e] w0] eqn:E.
    + intros [= <- _]. eapply Hfn; eauto.
    + destruct ((i =? retries - 1) || negb (isRateLimitError e)).
      * discriminate.
      * apply IH.
Qed.

Lemma blank_text_string : forall s,
  blank_text (VStr s) = (length s =? 0) || (length (trim s) =? 0).
Proof.
  intros s. unfold blank_text. cbn.
  rewrite negb_involutive, orb_false_r. reflexivity.
Qed.

Lemma blank_text_other : forall t, is_string t = false -> blank_text t = true.
Proof.
  intros t H. unfold blank_text. rewrite H. cbn.
  now rewrite orb_true_r.
Qed.

Lemma embed_item_outcome : forall svc t w,
  embed_item svc t w = (Normal (fst (item_outcome svc t w)), snd (item_outcome svc t w)).
Proof.
  intros svc t w. unfold embed_item, item_outcome.
  destruct t as [| |b|x|s|elems|props];
    try (rewrite blank_text_other by reflexivity; reflexivity).
  rewrite blank_text_string.
  destruct ((length s =? 0) || (length (trim s) =? 0)); [reflexivity|].
  unfold try_catch.
  destruct (retryWithBackoff (embed_attempt svc s) MAX_RETRIES w) as [[values|e] w1];
    reflexivity.
Qed.

Lemma item_outcome_dimension : forall svc t w,
  length (fst (item_outcome svc t w)) = embeddingDimension.
Proof.
  intros svc t w. unfold item_outcome.
  destruct t as [| |b|x|s|elems|props]; cbn [fst]; try apply zero_vector_length.
  destruct ((length s =? 0) || (length (trim s) =? 0));
    [apply zero_vector_length|].
  destruct (retryWithBackoff (embed_attempt svc s) MAX_RETRIES w)
    as [[values|e] w1] eqn:E; cbn [fst]; [|apply zero_vector_length].
  unfold retryWithBackoff in E.
  eapply (retry_loop_result _ (fun v => length v = embeddingDimension)); [|exact E].
  intros. eapply embed_attempt_dimension; eauto.
Qed.

Lemma embed_loop_run : forall svc texts embeddings w,
  exists vs w',
    embed_loop svc texts embeddings w = (Normal (embeddings ++ vs), w')
    /\ length vs = length texts
    /\ Forall (fun v => length v = embeddingDimension) vs
    /\ embedded_in_order svc w texts vs w'.
Proof.
  intros svc texts. induction texts as [|t rest IH]; intros embeddings w.
  - exists [], w. cbn. rewrite app_nil_r. repeat split; constructor.
  - cbn [embed_loop]. unfold bind. rewrite embed_item_outcome.
    destruct (item_outcome svc t w) as [v w1] eqn:E. cbn [fst snd].
    destruct (IH (embeddings ++ [v]) w1) as (vs & w' & Hrun & Hlen & Hdim & Hord).
    exists (v :: vs), w'. rewrite Hrun, <- app_assoc. cbn.
    repeat split; auto.
    + constructor; auto.
      pose proof (item_outcome_dimension svc t w) as D. now rewrite E in D.
    + econstructor; eauto.
Qed.

(** C2: for a non-empty array of texts and any behaviour of the service,
    [generateEmbeddings] returns (it does not throw), with one vector for
    each text, every vector of dimension 768, the texts being handled
    one after the other in their order: a text that is empty, blank or
    not a string gives the zero vector in its place, and so does a text
    for which the retry wrapper ends with an error. *)
Theorem generateEmbeddings_total : forall svc texts w,
  texts <> [] ->
  exists vectors w',
    generateEmbeddings svc (VArr texts) w = (Normal vectors, w')
    /\ length vectors = length texts
    /\ Forall (fun v => length v = 768) vectors
    /\ embedded_in_order svc w texts vectors w'
    /\ (forall i t, nth_error texts i = Some t -> blank_text t = true ->
          nth_error vectors i = Some zero_vector).
Proof.
  intros svc texts w Hne.
  destruct (embed_loop_run svc texts [] w) as (vs & w' & Hrun & Hlen & Hdim & Hord).
  exists vs, w'. unfold generateEmbeddings, try_catch.
  destruct texts as [|t rest]; [congruence|].
  rewrite Hrun. cbn [app]. repeat split; auto.
  clear Hrun Hlen Hdim Hne. revert Hord. generalize (t :: rest) as l. clear t rest.
  intros l Hord. induction Hord as [w0|w0 t rest v vs w1 w2 Hitem _ IH].
  - intros [|i] t; discriminate.
  - intros [|i] t'; cbn [nth_error].
    + intros [= <-] Hb. f_equal.
      unfold item_outcome in Hitem.
      destruct t as [| |b|x|s|elems|props]; try (now inversion Hitem).
      rewrite blank_text_string in Hb. rewrite Hb in Hitem. now inversion Hitem.
    + apply IH.
Qed.

Lemma generateEmbeddings_total_witness :
  exists vectors w',
    generateEmbeddings overloaded_service
      (VArr [VStr (js "resume text"); VNull]) (mkWorld 0 [])
    = (Normal vectors, w')
    /\ length vectors = 2.
Proof.
  destruct (generateEmbeddings_total overloaded_service
              [VStr (js "resume text"); VNull] (mkWorld 0 [])
              ltac:(discriminate))
    as (vectors & w' & H & Hlen & _).
  exists vectors, w'. split; [exact H|exact Hlen].
Defined.

(* ================================================================== *)
(** * Evaluation of the answers *)
(* ================================================================== *)

Lemma clamp_score_range : forall n, (1 <= clamp_score n <= 10)%Z.
Proof. intros n. unfold clamp_score. destruct (n =? 0)%Z; lia. Qed.

Lemma parse_block_range : forall raw, scores_in_range (parse_block raw).
Proof.
  intros raw. unfold scores_in_range, parse_block. cbn.
  repeat split; apply clamp_score_range.
Qed.

Lemma missing_evaluation_range : scores_in_range missing_evaluation.
Proof. unfold scores_in_range. cbn. lia. Qed.

Lemma fallback_evaluation_range : forall error i,
  scores_in_range (fallback_evaluation error i).
Proof. intros. unfold scores_in_range. cbn. lia. Qed.

Lemma fallback_list_length : forall error n,
  length (fallback_list error n) = n.
Proof. intros. unfold fallback_list. now rewrite length_map, length_seq. Qed.

Lemma fallback_list_range : forall error n,
  Forall scores_in_range (fallback_list error n).
Proof.
  intros. unfold fallback_list. apply Forall_map, Forall_forall.
  intros i _. apply fallback_evaluation_range.
Qed.

Lemma pad_loop_repeat : forall missing evaluations,
  pad_loop missing evaluations = evaluations ++ repeat missing_evaluation missing.
Proof.
  induction missing as [|m IH]; intros evaluations; cbn.
  - now rewrite app_nil_r.
  - rewrite IH, <- app_assoc. reflexivity.
Qed.

Lemma validate_pairs_valid : forall qas idx,
  Forall (fun qa => invalid_pair qa = false) qas ->
  validate_pairs idx qas = None.
Proof.
  induction qas as [|qa rest IH]; intros idx H; cbn; [reflexivity|].
  inversion H as [|? ? Hqa Hrest]; subst. rewrite Hqa. now apply IH.
Qed.


(** The entries that the parsing part of [evaluateAllAnswers] makes of
    the blocks, for [n] pairs. *)
Lemma parsed_entries : forall blocks n,
  (if n <? length (pad_loop (n - length (map parse_block blocks)) (map parse_block blocks))
   then firstn n (pad_loop (n - length (map parse_block blocks)) (map parse_block blocks))
   else pad_loop (n - length (map parse_block blocks)) (map parse_block blocks))
  = firstn n (map parse_block blocks
              ++ repeat missing_evaluation (n - length blocks)).
Proof.
  intros blocks n. rewrite pad_loop_repeat, length_map.
  destruct (n <? _) eqn:E; [reflexivity|].
  apply Nat.ltb_ge in E. symmetry. apply firstn_all2. exact E.
Qed.

Lemma parsed_entries_length : forall blocks n,
  length (firstn n (map parse_block blocks
                    ++ repeat missing_evaluation (n - length blocks))) = n.
Proof.
  intros. rewrite length_firstn, length_app, length_map, repeat_length. lia.
Qed.

Lemma Forall_first_n : forall A (P : A -> Prop) n l,
  Forall P l -> Forall P (firstn n l).
Proof.
  induction n as [|n IH]; intros l H; cbn; [constructor|].
  destruct H; constructor; auto.
Qed.

Lemma parsed_entries_range : forall blocks n,
  Forall scores_in_range
    (firstn n (map parse_block blocks
               ++ repeat missing_evaluation (n - length blocks))).
Proof.
  intros. apply Forall_first_n, Forall_app. split.
  - apply Forall_map, Forall_forall. intros b _. apply parse_block_range.
  - apply Forall_forall. intros e He. apply repeat_spec in He. subst.
    apply missing_evaluation_range.
Qed.

(** What [evaluateAllAnswers] returns on an array, case by case. *)
Lemma evaluateAllAnswers_array : forall svc qas ctx w,
  evaluateAllAnswers svc (VArr qas) ctx w =
  match qas with
  | [] =>
      (Normal [], w)
  | _ :: _ =>
      match validate_pairs 0 qas with
      | Some error => (Normal (fallback_list error (length qas)), w)
      | None =>
          match generation svc qas ctx w with
          | (Throw error, w1) =>
              (Normal (fallback_list error (length qas)), w1)
          | (Normal evaluationText, w1) =>
              match questionBlocks evaluationText with
              | [] =>
                  (Normal (fallback_list
                             (Error (js "Failed to parse evaluation response format. Unexpected AI output."))
                             (length qas)), w1)
              | (_ :: _) as blocks =>
                  (Normal (firstn (length qas)
                             (map parse_block blocks
                              ++ repeat missing_evaluation
                                   (length qas - length blocks))), w1)
              end
          end
      end
  end.
Proof.
  intros svc qas ctx w. unfold evaluateAllAnswers, try_catch, evaluate_body.
  destruct qas as [|qa rest]; [reflexivity|].
  destruct (validate_pairs 0 (qa :: rest)) as [error|]; [reflexivity|].
  unfold bind, generation.
  destruct (retryWithBackoff _ MAX_RETRIES w) as [[evaluationText|error] w1];
    [|reflexivity].
  destruct (questionBlocks evaluationText) as [|b blocks]; [reflexivity|].
  change (length (b :: blocks) =? 0) with false. cbv iota zeta. unfold ret.
  rewrite (parsed_entries (b :: blocks) (length (qa :: rest))). reflexivity.
Qed.





(* ================================================================== *)
(** * Chunking *)
(* ================================================================== *)

(** ** White space after the cleaning *)

Lemma replace_runs_single_spaced : forall s prev,
  single_spaced prev (replace_runs is_space space prev s) = true.
Proof.
  induction s as [|c r IH]; intros prev; cbn; [reflexivity|].
  destruct (is_space c) eqn:E.
  - destruct prev; [apply IH|]. cbn. apply IH.
  - cbn. rewrite E. apply IH.
Qed.

Lemma single_spaced_no_newline : forall s prev,
  single_spaced prev s = true ->
  Forall (fun c => Ascii.eqb newline c = false) s.
Proof.
  induction s as [|c r IH]; intros prev H; constructor.
  - cbn in H. destruct (is_space c) eqn:E.
    + apply andb_prop in H. destruct H as [H _].
      apply andb_prop in H. destruct H as [H _].
      apply Ascii.eqb_eq in H. subst c. reflexivity.
    + destruct (Ascii.eqb newline c) eqn:N; [|reflexivity].
      apply Ascii.eqb_eq in N. subst c. discriminate.
  - cbn in H. destruct (is_space c).
    + apply andb_prop in H. destruct H as [_ H]. eapply IH; eauto.
    + eapply IH; eauto.
Qed.

Lemma replace_runs_absent : forall p by_ s prev,
  Forall (fun c => p c = false) s -> replace_runs p by_ prev s = s.
Proof.
  induction s as [|c r IH]; intros prev H; cbn; [reflexivity|].
  inversion H as [|? ? Hc Hr]; subst. rewrite Hc. f_equal. now apply IH.
Qed.

Lemma drop_while_app : forall a b,
  drop_while is_space (a ++ b) =
  if forallb is_space a then drop_while is_space b
  else drop_while is_space a ++ b.
Proof.
  induction a as [|c a IH]; intros b; cbn; [reflexivity|].
  destruct (is_space c); cbn; [apply IH|reflexivity].
Qed.

Lemma drop_while_all : forall a,
  forallb is_space a = true -> drop_while is_space a = [].
Proof.
  induction a as [|c a IH]; cbn; [reflexivity|].
  destruct (is_space c); cbn; [exact IH|discriminate].
Qed.

Lemma drop_trailing_nil : forall s,
  drop_trailing s = [] <-> forallb is_space s = true.
Proof.
  induction s as [|c r IH]; cbn; [tauto|].
  destruct (drop_trailing r) as [|d r'] eqn:E.
  - destruct (is_space c); cbn.
    + rewrite <- IH. tauto.
    + split; discriminate.
  - split; [discriminate|]. intros H. apply andb_prop in H.
    destruct H as [_ H]. apply IH in H. discriminate.
Qed.

Lemma forallb_reverse : forall (p : ascii -> bool) l,
  forallb p (rev l) = forallb p l.
Proof.
  induction l as [|c l IH]; cbn; [reflexivity|].
  rewrite forallb_app, IH. cbn. rewrite andb_true_r. apply andb_comm.
Qed.

Lemma rev_drop_while_rev : forall s,
  rev (drop_while is_space (rev s)) = drop_trailing s.
Proof.
  induction s as [|c r IH]; cbn; [reflexivity|].
  rewrite drop_while_app.
  destruct (forallb is_space (rev r)) eqn:E.
  - assert (H : drop_trailing r = []).
    { rewrite <- IH, drop_while_all; auto. }
    rewrite H. cbn. destruct (is_space c); reflexivity.
  - rewrite rev_app_distr, IH. cbn.
    destruct (drop_trailing r) as [|d r'] eqn:D; [|reflexivity].
    apply drop_trailing_nil in D.
    rewrite forallb_reverse in E. congruence.
Qed.

Lemma trim_drop_trailing : forall s,
  trim s = drop_trailing (drop_while is_space s).
Proof. intros s. unfold trim. apply rev_drop_while_rev. Qed.

Lemma drop_while_single_spaced : forall s prev,
  single_spaced prev s = true ->
  single_spaced true (drop_while is_space s) = true.
Proof.
  induction s as [|c r IH]; intros prev H; cbn; [reflexivity|].
  cbn in H. destruct (is_space c) eqn:E.
  - apply andb_prop in H. destruct H as [_ H]. eapply IH; eauto.
  - cbn. rewrite E. exact H.
Qed.

Lemma single_spaced_cons : forall prev c r,
  single_spaced prev (c :: r) =
  if is_space c then Ascii.eqb c space && negb prev && single_spaced true r
  else single_spaced false r.
Proof. reflexivity. Qed.

Lemma drop_trailing_single_spaced : forall s prev,
  single_spaced prev s = true -> single_spaced prev (drop_trailing s) = true.
Proof.
  induction s as [|c r IH]; intros prev H; [reflexivity|].
  rewrite single_spaced_cons in H. cbn [drop_trailing].
  destruct (is_space c) eqn:E.
  - apply andb_prop in H. destruct H as [H1 H2].
    specialize (IH true H2).
    destruct (drop_trailing r) as [|d r']; [reflexivity|].
    rewrite single_spaced_cons, E, H1. exact IH.
  - specialize (IH false H).
    destruct (drop_trailing r) as [|d r'].
    + rewrite single_spaced_cons, E. reflexivity.
    + rewrite single_spaced_cons, E. exact IH.
Qed.

Lemma drop_trailing_ends_clean : forall s, ends_clean (drop_trailing s) = true.
Proof.
  induction s as [|c r IH]; cbn; [reflexivity|].
  destruct (drop_trailing r) as [|d r'].
  - destruct (is_space c) eqn:E; cbn; [reflexivity|now rewrite E].
  - exact IH.
Qed.

Lemma ends_clean_fixed : forall s, ends_clean s = true -> drop_trailing s = s.
Proof.
  induction s as [|c r IH]; cbn; [reflexivity|].
  destruct r as [|d r'].
  - cbn. intros H. destruct (is_space c); [discriminate|reflexivity].
  - intros H. rewrite (IH H). reflexivity.
Qed.

(** The cleaned text is single-spaced, with no white space at either
    end. *)
Lemma cleanText_shape : forall text,
  single_spaced true (PdfProcessor.cleanText text) = true
  /\ ends_clean (PdfProcessor.cleanText text) = true.
Proof.
  intros text. unfold PdfProcessor.cleanText.
  pose proof (replace_runs_single_spaced text false) as H.
  rewrite (replace_runs_absent _ _ _ _ (single_spaced_no_newline _ _ H)).
  rewrite trim_drop_trailing. split.
  - apply drop_trailing_single_spaced. eapply drop_while_single_spaced; eauto.
  - apply drop_trailing_ends_clean.
Qed.

(** ** The words of a cleaned text *)

Lemma split_on_cons : forall sep s, exists w ws, split_on sep s = w :: ws.
Proof.
  intros sep s. destruct s as [|c r]; cbn; [eauto|].
  destruct (Ascii.eqb c sep); [eauto|].
  destruct (split_on sep r); eauto.
Qed.

Lemma is_space_space : is_space space = true.
Proof. reflexivity. Qed.

Lemma not_space_neq : forall c, is_space c = false -> Ascii.eqb c space = false.
Proof.
  intros c H. destruct (Ascii.eqb c space) eqn:E; [|reflexivity].
  apply Ascii.eqb_eq in E. subst c. discriminate.
Qed.

(** The pieces of a single-spaced text that ends clean: the first one is
    free of white space, and not empty when the text neither is empty
    nor starts with a space; the others are words. *)
Lemma split_single_spaced : forall s prev,
  single_spaced prev s = true -> ends_clean s = true ->
  exists w ws,
    split_on space s = w :: ws
    /\ Forall (fun c => is_space c = false) w
    /\ Forall is_word ws
    /\ (prev = true -> s <> [] -> w <> []).
Proof.
  induction s as [|c r IH]; intros prev H He.
  - exists [], []. cbn. repeat split; auto; congruence.
  - rewrite single_spaced_cons in H. cbn [split_on].
    destruct (is_space c) eqn:E.
    + apply andb_prop in H. destruct H as [H1 H2].
      apply andb_prop in H1. destruct H1 as [Hc Hp].
      rewrite Hc.
      assert (Hr : r <> []).
      { intros ->. cbn in He. rewrite E in He. discriminate. }
      assert (He' : ends_clean r = true).
      { destruct r; [congruence|exact He]. }
      destruct (IH true H2 He') as (w & ws & Hs & Hw & Hws & Hne).
      exists [], (w :: ws). rewrite Hs. repeat split; auto.
      * constructor; auto. split; auto.
      * destruct prev; discriminate.
    + rewrite (not_space_neq _ E).
      assert (He' : ends_clean r = true).
      { destruct r; [reflexivity|exact He]. }
      destruct (IH false H He') as (w & ws & Hs & Hw & Hws & _).
      exists (c :: w), ws. rewrite Hs. repeat split; auto. discriminate.
Qed.

(** The words of a text: the one empty string when nothing is left of
    the text after the cleaning, words otherwise. *)
Lemma words_of_shape : forall text,
  PdfProcessor.words_of text = [[]] \/ Forall is_word (PdfProcessor.words_of text).
Proof.
  intros text. unfold PdfProcessor.words_of.
  destruct (cleanText_shape text) as [H1 H2].
  destruct (split_single_spaced _ _ H1 H2) as (w & ws & Hs & Hw & Hws & Hne).
  rewrite Hs. destruct (PdfProcessor.cleanText text) as [|c r] eqn:E.
  - left. cbn in Hs. congruence.
  - right. constructor; auto. split; auto. apply Hne; [reflexivity|discriminate].
Qed.

(** ** Joining and splitting words *)

Lemma split_on_no_sep : forall w,
  Forall (fun c => is_space c = false) w -> split_on space w = [w].
Proof.
  induction 1 as [|c w Hc _ IH]; cbn; [reflexivity|].
  rewrite (not_space_neq _ Hc), IH. reflexivity.
Qed.

Lemma split_on_app : forall w rest,
  Forall (fun c => is_space c = false) w ->
  split_on space (w ++ space :: rest) = w :: split_on space rest.
Proof.
  induction 1 as [|c w Hc _ IH]; cbn [app split_on].
  - reflexivity.
  - rewrite (not_space_neq _ Hc), IH. reflexivity.
Qed.

Lemma split_join : forall ws,
  ws <> [] -> Forall (Forall (fun c => is_space c = false)) ws ->
  split_on space (join [space] ws) = ws.
Proof.
  induction ws as [|w rest IH]; intros Hne H; [congruence|].
  inversion H as [|? ? Hw Hrest]; subst. cbn [join].
  destruct rest as [|w' rest'].
  - now apply split_on_no_sep.
  - cbn [app]. rewrite split_on_app by assumption.
    rewrite IH; [reflexivity|discriminate|assumption].
Qed.

Lemma ends_clean_app : forall a b, b <> [] -> ends_clean (a ++ b) = ends_clean b.
Proof.
  induction a as [|c a IH]; intros b Hb; [reflexivity|].
  cbn [app ends_clean]. destruct (a ++ b) eqn:E.
  - destruct a; [cbn in E; congruence|discriminate].
  - rewrite <- E. now apply IH.
Qed.

Lemma ends_clean_word : forall w, is_word w -> ends_clean w = true.
Proof.
  intros w [Hne H]. induction H as [|c w Hc _ IH]; [congruence|].
  cbn. destruct w as [|d w']; [now rewrite Hc|]. apply IH. discriminate.
Qed.

Lemma join_words_shape : forall ws,
  ws <> [] -> Forall is_word ws ->
  join [space] ws <> []
  /\ drop_while is_space (join [space] ws) = join [space] ws
  /\ ends_clean (join [space] ws) = true.
Proof.
  induction ws as [|w rest IH]; intros Hne H; [congruence|].
  inversion H as [|? ? Hw Hrest]; subst.
  destruct Hw as [Hwne Hw]. destruct w as [|c w]; [congruence|].
  inversion Hw as [|? ? Hc _]; subst.
  cbn [join]. destruct rest as [|w' rest'].
  - repeat split; [discriminate|cbn; now rewrite Hc|].
    apply ends_clean_word. split; [discriminate|assumption].
  - destruct IH as (I1 & _ & I3); [discriminate|assumption|].
    repeat split.
    + discriminate.
    + cbn. now rewrite Hc.
    + rewrite app_assoc, ends_clean_app; assumption.
Qed.

(** A window of words is joined to a chunk that [trim] leaves as it is
    and that has as many words as the window. *)
Lemma chunk_of_window : forall window,
  window <> [] -> window = [[]] \/ Forall is_word window ->
  chunk_of window = join [space] window
  /\ word_count (chunk_of window) = length window.
Proof.
  intros window Hne [-> | H]; [split; reflexivity|].
  destruct (join_words_shape _ Hne H) as (_ & H2 & H3).
  unfold chunk_of, word_count.
  rewrite trim_drop_trailing, H2, (ends_clean_fixed _ H3).
  split; [reflexivity|]. rewrite split_join; [reflexivity|assumption|].
  eapply Forall_impl; [|exact H]. intros w [_ Hw]. exact Hw.
Qed.

(** ** Windows *)

Lemma windows_fuel_concat : forall A fuel n (l : list A),
  1 <= n -> length l <= fuel -> concat (windows_fuel fuel n l) = l.
Proof.
  induction fuel as [|fuel IH]; intros n l Hn Hl.
  - destruct l; [reflexivity|cbn in Hl; lia].
  - destruct l as [|x l]; [reflexivity|].
    cbn [windows_fuel concat]. rewrite IH.
    + apply firstn_skipn.
    + exact Hn.
    + rewrite length_skipn. cbn [length] in *. lia.
Qed.

Lemma windows_fuel_nth : forall A fuel n (l : list A) i window,
  nth_error (windows_fuel fuel n l) i = Some window ->
  window = firstn n (skipn (i * n) l) /\ skipn (i * n) l <> [].
Proof.
  induction fuel as [|fuel IH]; intros n l i window H.
  - destruct i; discriminate.
  - destruct l as [|x l]; [destruct i; discriminate|].
    cbn [windows_fuel] in H. destruct i as [|i].
    + cbn in H. injection H as <-. cbn [Nat.mul skipn]. split; [reflexivity|discriminate].
    + cbn [nth_error] in H. apply IH in H.
      rewrite skipn_skipn in H. replace (S i * n) with (i * n + n) by lia.
      exact H.
Qed.

Lemma windows_fuel_Forall : forall A (P : A -> Prop) fuel n (l : list A),
  Forall P l -> Forall (Forall P) (windows_fuel fuel n l).
Proof.
  induction fuel as [|fuel IH]; intros n l H; [constructor|].
  destruct l as [|x l]; [constructor|]. cbn [windows_fuel]. constructor.
  - now apply Forall_first_n.
  - apply IH. rewrite <- (firstn_skipn n (x :: l)) in H.
    apply Forall_app in H. tauto.
Qed.

Lemma list_sum_concat_length : forall A (ll : list (list A)),
  list_sum (map (@length A) ll) = length (concat ll).
Proof.
  induction ll as [|l ll IH]; [reflexivity|].
  cbn [map concat]. rewrite length_app, <- IH. reflexivity.
Qed.

Lemma list_sum_filter_split : forall A (f : A -> nat) (p : A -> bool) l,
  list_sum (map f (filter p l))
  + list_sum (map f (filter (fun x => negb (p x)) l))
  = list_sum (map f l).
Proof.
  induction l as [|x l IH]; [reflexivity|].
  cbn [map filter]. destruct (p x); cbn [negb map];
    change (list_sum (?a :: ?r)) with (a + list_sum r); lia.
Qed.

(** ** The loop *)

Lemma chunk_loop_windows : forall fuel words n i chunks,
  1 <= n -> length words - i <= fuel ->
  PdfProcessor.chunk_loop fuel words n i chunks =
  Some (chunks ++ map chunk_of (filter kept (windows_fuel fuel n (skipn i words)))).
Proof.
  induction fuel as [|fuel IH]; intros words n i chunks Hn Hf;
    cbn [PdfProcessor.chunk_loop].
  - assert (E : (length words <=? i) = true) by (apply Nat.leb_le; lia).
    rewrite E. cbn. now rewrite app_nil_r.
  - destruct (length words <=? i) eqn:E.
    + apply Nat.leb_le in E. rewrite skipn_all2 by exact E.
      cbn. now rewrite app_nil_r.
    + apply Nat.leb_gt in E.
      destruct (skipn i words) as [|x rest] eqn:S.
      { apply (f_equal (@length _)) in S. rewrite length_skipn in S.
        cbn in S. lia. }
      cbn [windows_fuel]. rewrite <- S.
      unfold slice. replace (i + n - i) with n by lia.
      rewrite IH by lia.
      replace (i + n) with (n + i) by lia.
      rewrite <- (skipn_skipn n i words).
      cbn [filter]. unfold kept at 2. unfold chunk_of at 2 3.
      destruct (50 <? length (trim (join [space] (firstn n (skipn i words))))).
      * cbn [map]. rewrite <- app_assoc. reflexivity.
      * reflexivity.
Qed.

Lemma windows_nonempty : forall A fuel n (l : list A) window,
  1 <= n -> In window (windows_fuel fuel n l) -> window <> [].
Proof.
  intros A fuel n l window Hn Hin.
  apply In_nth_error in Hin. destruct Hin as [i Hi].
  apply windows_fuel_nth in Hi. destruct Hi as [-> Hne].
  destruct (skipn (i * n) l); [congruence|].
  destruct n; [lia|discriminate].
Qed.

Lemma windows_of_words : forall text n window,
  1 <= n -> In window (windows n (PdfProcessor.words_of text)) ->
  window <> [] /\ (window = [[]] \/ Forall is_word window).
Proof.
  intros text n window Hn Hin. split.
  - eapply windows_nonempty; eauto.
  - destruct (words_of_shape text) as [E|H].
    + left. rewrite E in Hin. unfold windows in Hin. cbn in Hin.
      destruct n; [lia|]. cbn in Hin. rewrite firstn_nil in Hin.
      destruct Hin as [<-|[]]. reflexivity.
    + right. pose proof (windows_fuel_Forall _ _ (length (PdfProcessor.words_of text)) n _ H) as F.
      rewrite Forall_forall in F. now apply F.
Qed.

(** ** The words of the input *)

Lemma join_split_on : forall sep s, join [sep] (split_on sep s) = s.
Proof.
  intros sep s. induction s as [|c r IH]; [reflexivity|].
  cbn [split_on]. destruct (split_on_cons sep r) as (w & ws & E).
  rewrite E in *. destruct (Ascii.eqb c sep) eqn:Hc.
  - apply Ascii.eqb_eq in Hc. subst c.
    change (join [sep] ([] :: w :: ws)) with (sep :: join [sep] (w :: ws)).
    now rewrite IH.
  - destruct ws as [|w' ws'].
    + cbn in *. now rewrite IH.
    + change (join [sep] ((c :: w) :: w' :: ws'))
        with (c :: (w ++ [sep] ++ join [sep] (w' :: ws'))).
      change (join [sep] (w :: w' :: ws'))
        with (w ++ [sep] ++ join [sep] (w' :: ws')) in IH.
      now rewrite IH.
Qed.

Lemma words_from_replace_runs : forall s cur prev,
  (prev = true -> cur = []) ->
  words_from cur (replace_runs is_space space prev s) = words_from cur s.
Proof.
  induction s as [|c r IH]; intros cur prev Hprev; [reflexivity|].
  cbn [replace_runs words_from]. destruct (is_space c) eqn:Hc.
  - destruct prev.
    + rewrite (Hprev eq_refl). apply IH. reflexivity.
    + cbn [words_from]. rewrite is_space_space.
      rewrite (IH [] true) by reflexivity. reflexivity.
  - cbn [words_from]. rewrite Hc. apply IH. discriminate.
Qed.

Lemma words_from_drop_while : forall s,
  words_from [] (drop_while is_space s) = words_from [] s.
Proof.
  induction s as [|c r IH]; [reflexivity|].
  cbn [drop_while]. destruct (is_space c) eqn:Hc.
  - rewrite IH. cbn [words_from]. now rewrite Hc.
  - reflexivity.
Qed.

Lemma words_from_spaces : forall s cur,
  forallb is_space s = true ->
  words_from cur s = match cur with [] => [] | _ :: _ => [rev cur] end.
Proof.
  induction s as [|c r IH]; intros cur H; [reflexivity|].
  cbn [forallb] in H. apply andb_true_iff in H as [Hc Hr].
  cbn [words_from]. rewrite Hc, (IH [] Hr). destruct cur; reflexivity.
Qed.

Lemma words_from_cons : forall cur c r,
  words_from cur (c :: r)
  = if is_space c then
      match cur with
      | [] => words_from [] r
      | _ :: _ => rev cur :: words_from [] r
      end
    else words_from (c :: cur) r.
Proof. reflexivity. Qed.

Lemma words_from_drop_trailing : forall s cur,
  words_from cur (drop_trailing s) = words_from cur s.
Proof.
  induction s as [|c r IH]; intros cur; [reflexivity|].
  cbn [drop_trailing]. destruct (drop_trailing r) as [|a l] eqn:E.
  - apply drop_trailing_nil in E.
    destruct (is_space c) eqn:Hc.
    + cbn [words_from]. rewrite Hc, (words_from_spaces r [] E).
      destruct cur; reflexivity.
    + cbn [words_from]. rewrite Hc, (words_from_spaces r (c :: cur) E).
      reflexivity.
  - rewrite !(words_from_cons cur c). destruct (is_space c).
    + rewrite <- (IH []). destruct cur; reflexivity.
    + apply IH.
Qed.

Lemma words_from_word : forall w cur rest,
  Forall (fun c => is_space c = false) w ->
  words_from cur (w ++ rest) = words_from (rev w ++ cur) rest.
Proof.
  induction w as [|c w IH]; intros cur rest H; [reflexivity|].
  inversion H as [|? ? Hc Hw]; subst.
  cbn [app words_from]. rewrite Hc, (IH (c :: cur) rest Hw).
  cbn [rev]. now rewrite <- app_assoc.
Qed.

Lemma words_from_join : forall ws,
  Forall is_word ws -> words_from [] (join [space] ws) = ws.
Proof.
  induction 1 as [|w rest [Hne Hw] Hrest IH]; [reflexivity|].
  assert (Hrev : rev w <> []).
  { intros E. apply Hne. rewrite <- (rev_involutive w), E. reflexivity. }
  destruct rest as [|w' rest'].
  - cbn [join]. rewrite <- (app_nil_r w) at 1.
    rewrite words_from_word by exact Hw. rewrite app_nil_r.
    cbn [words_from]. destruct (rev w) eqn:E; [congruence|].
    rewrite <- E, rev_involutive. reflexivity.
  - change (join [space] (w :: w' :: rest'))
      with (w ++ space :: join [space] (w' :: rest')).
    rewrite words_from_word by exact Hw. rewrite app_nil_r.
    cbn [words_from]. rewrite is_space_space.
    destruct (rev w) eqn:E; [congruence|].
    rewrite <- E, rev_involutive, IH. reflexivity.
Qed.

Lemma words_from_concat : forall s cur,
  concat (words_from cur s)
  = rev cur ++ filter (fun c => negb (is_space c)) s.
Proof.
  induction s as [|c r IH]; intros cur.
  - cbn. destruct cur; [reflexivity|]. cbn [concat]. now rewrite !app_nil_r.
  - cbn [words_from filter]. destruct (is_space c) eqn:Hc; cbn [negb].
    + destruct cur as [|x cur'].
      * apply IH.
      * cbn [concat]. rewrite IH. reflexivity.
    + rewrite IH. cbn [rev]. now rewrite <- app_assoc.
Qed.

Lemma words_from_words : forall s cur,
  Forall (fun c => is_space c = false) cur ->
  Forall is_word (words_from cur s).
Proof.
  assert (Hflush : forall cur, cur <> [] ->
            Forall (fun c => is_space c = false) cur -> is_word (rev cur)).
  { intros cur Hne H. split.
    - intros E. apply Hne. rewrite <- (rev_involutive cur), E. reflexivity.
    - apply Forall_rev. exact H. }
  induction s as [|c r IH]; intros cur H.
  - cbn. destruct cur; constructor; [|constructor].
    apply Hflush; [discriminate|exact H].
  - cbn [words_from]. destruct (is_space c) eqn:Hc.
    + destruct cur as [|x cur']; [apply IH; constructor|].
      constructor; [apply Hflush; [discriminate|exact H]|].
      apply IH. constructor.
    + apply IH. constructor; assumption.
Qed.

(** The cleaning keeps the words of the text, and joins them by single
    spaces; [split] then gives them back, or the one empty string when
    there is no word. *)
Lemma cleanText_words : forall text,
  PdfProcessor.cleanText text = join [space] (input_words text)
  /\ (input_words text <> [] -> PdfProcessor.words_of text = input_words text)
  /\ (input_words text = [] -> PdfProcessor.words_of text = [[]]).
Proof.
  intros text.
  assert (Hsame : input_words (PdfProcessor.cleanText text) = input_words text).
  { unfold input_words, PdfProcessor.cleanText.
    pose proof (replace_runs_single_spaced text false) as H.
    rewrite (replace_runs_absent _ _ _ _ (single_spaced_no_newline _ _ H)).
    rewrite trim_drop_trailing, words_from_drop_trailing, words_from_drop_while.
    apply words_from_replace_runs. discriminate. }
  pose proof (join_split_on space (PdfProcessor.cleanText text)) as Hjoin.
  fold (PdfProcessor.words_of text) in Hjoin.
  destruct (words_of_shape text) as [Hw|Hw].
  - rewrite Hw in Hjoin. cbn in Hjoin.
    rewrite <- Hjoin in Hsame. cbn in Hsame.
    rewrite <- Hsame, <- Hjoin.
    split; [reflexivity|]. split; [intros H; now destruct H|].
    intros _. exact Hw.
  - assert (Hin : input_words text = PdfProcessor.words_of text).
    { rewrite <- Hsame, <- Hjoin. unfold input_words.
      now apply words_from_join. }
    rewrite Hin. repeat split; auto.
    intros E. unfold PdfProcessor.words_of in E.
    destruct (split_on_cons space (PdfProcessor.cleanText text)) as (w & ws & Hs).
    congruence.
Qed.

(** C5: for [wordsPerChunk >= 1] the call returns.  The words of the
    input are its maximal runs of characters other than white space.
    The cleaning joins them by single spaces, so that the text is split
    into these words (or into the one empty string, when the input has
    no word).  The words, cut in consecutive windows of [wordsPerChunk]
    words (window [i] is
    [words.slice(i * wordsPerChunk, (i + 1) * wordsPerChunk)]; joined end
    to end the windows give the words back), are joined window by
    window, and the result is the list, in this order, of the chunks of
    the windows whose trimmed chunk is longer than 50 characters.  A
    chunk has as many words as its window, so that the words of the
    returned chunks and the words of the discarded windows add up to
    the words of the input. *)
Theorem chunkText_windows : forall text wordsPerChunk,
  1 <= wordsPerChunk ->
  let words := PdfProcessor.words_of text in
  let wins := windows wordsPerChunk words in
  (Forall is_word (input_words text)
   /\ concat (input_words text) = filter (fun c => negb (is_space c)) text
   /\ PdfProcessor.cleanText text = join [space] (input_words text)
   /\ (input_words text <> [] -> words = input_words text)
   /\ (input_words text = [] ->
         words = [[]] /\ PdfProcessor.chunkText text wordsPerChunk = Some []))
  /\ (words = [[]] \/ Forall is_word words)
  /\ concat wins = words
  /\ (forall i window, nth_error wins i = Some window ->
        window = slice (i * wordsPerChunk) (i * wordsPerChunk + wordsPerChunk) words
        /\ window <> [])
  /\ PdfProcessor.chunkText text wordsPerChunk
     = Some (map chunk_of (filter kept wins))
  /\ (forall window, In window wins ->
        chunk_of window = join [space] window
        /\ word_count (chunk_of window) = length window
        /\ (kept window = false <-> length (trim (join [space] window)) <= 50))
  /\ list_sum (map word_count (map chunk_of (filter kept wins)))
     + list_sum (map (@length jstring) (filter (fun w => negb (kept w)) wins))
     = length words
  /\ (input_words text <> [] ->
        list_sum (map word_count (map chunk_of (filter kept wins)))
        + list_sum (map (@length jstring) (filter (fun w => negb (kept w)) wins))
        = length (input_words text)).
Proof.
  intros text n Hn words wins.
  assert (Hshape : forall window, In window wins ->
            chunk_of window = join [space] window
            /\ word_count (chunk_of window) = length window).
  { intros window Hin.
    destruct (windows_of_words text n window Hn Hin) as [Hne Hw].
    now apply chunk_of_window. }
  assert (Hconcat : concat wins = words).
  { apply windows_fuel_concat; [exact Hn|reflexivity]. }
  assert (Hrun : PdfProcessor.chunkText text n
                 = Some (map chunk_of (filter kept wins))).
  { unfold PdfProcessor.chunkText. fold words.
    rewrite chunk_loop_windows by lia. reflexivity. }
  assert (Hsum : list_sum (map word_count (map chunk_of (filter kept wins)))
                 + list_sum (map (@length jstring)
                               (filter (fun w => negb (kept w)) wins))
                 = length words).
  { rewrite map_map.
    rewrite (map_ext_in (fun w => word_count (chunk_of w)) (@length jstring)).
    + rewrite list_sum_filter_split, list_sum_concat_length, Hconcat. reflexivity.
    + intros w Hw. apply filter_In in Hw. destruct Hw as [Hw _].
      now apply Hshape. }
  destruct (cleanText_words text) as (Hclean & Hwords & Hnone).
  split; [|split; [apply words_of_shape|]].
  { split; [apply words_from_words; constructor|].
    split; [apply (words_from_concat text [])|].
    split; [exact Hclean|]. split; [exact Hwords|].
    intros Hnil. split; [now apply Hnone|].
    rewrite Hrun. subst wins words. rewrite (Hnone Hnil).
    destruct n as [|n']; [lia|].
    unfold windows. cbn [length windows_fuel firstn].
    rewrite firstn_nil. reflexivity. }
  split; [exact Hconcat|]. split; [|split; [exact Hrun|split; [|split]]].
  - intros i window Hi. unfold wins, windows in Hi.
    pose proof (windows_nonempty _ _ _ _ _ Hn (nth_error_In _ _ Hi)) as Hne.
    apply windows_fuel_nth in Hi. destruct Hi as [-> _].
    split; [|exact Hne]. unfold slice.
    replace (i * n + n - i * n) with n by lia. reflexivity.
  - intros window Hin. destruct (Hshape window Hin) as [H1 H2].
    repeat split; auto.
    + unfold kept, chunk_of. intros H. apply Nat.ltb_ge in H. exact H.
    + unfold kept, chunk_of. intros H. apply Nat.ltb_ge. exact H.
  - exact Hsum.
  - intros Hne. rewrite Hsum. unfold words. now rewrite (Hwords Hne).
Qed.

Lemma chunkText_windows_witness :
  PdfProcessor.words_of sample_text = input_words sample_text
  /\ length (input_words sample_text) = 21
  /\ PdfProcessor.chunkText sample_text 10
     = Some [js "The candidate has five years of experience with Node.js and"]
  /\ map (@length jstring)
       (filter (fun w => negb (kept w))
          (windows 10 (PdfProcessor.words_of sample_text)))
     = [10; 1].
Proof.
  destruct (chunkText_windows sample_text 10)
    as ((_ & _ & _ & Hwords & _) & _ & _ & _ & Hrun & _); [lia|].
  split; [apply Hwords; vm_compute; discriminate|].
  split; [vm_compute; reflexivity|].
  split; [rewrite Hrun|]; vm_compute; reflexivity.
Defined.

(** ** An empty list of chunks *)

Lemma chunkText_returns : forall text n,
  1 <= n -> exists chunks, PdfProcessor.chunkText text n = Some chunks.
Proof.
  intros text n Hn. unfold PdfProcessor.chunkText.
  rewrite chunk_loop_windows by lia. eauto.
Qed.

(** C7 refuted: on a text of white space, and on a text shorter than
    the minimum, [chunkText] returns the empty list; the controller then
    answers the request with status 400. *)
Lemma chunkText_empty_counterexample :
  PdfProcessor.chunkText (js "     ") 500 = Some []
  /\ PdfProcessor.chunkText (js "Curriculum vitae") 500 = Some []
  /\ DocumentController.chunking_step (js "     ")
     = Some (DocumentController.Respond 400
               (js "Could not extract sufficient text from PDF. Please ensure the PDF contains selectable text and is not just an image."))
  /\ exists text,
       length (trim text) = 62
       /\ PdfProcessor.chunkText text 500 = Some []
       /\ DocumentController.chunking_step text
          = Some (DocumentController.Respond 400
                    (js "Text extracted, but failed to divide into valid chunks.")).
Proof.
  split; [reflexivity|]. split; [reflexivity|]. split; [reflexivity|].
  exists (js "a" ++ repeat space 60 ++ js "b").
  repeat split; vm_compute; reflexivity.
Qed.

(** C7, as the code has it: [chunkText] returns its list, empty or not,
    and raises no error.  An empty list is signalled by the caller,
    [uploadDocument], which answers the request with status 400; it does
    so already, before chunking, for a text whose trimmed length is
    below 50, and it goes on to the embeddings only with a list that is
    not empty. *)
Theorem empty_chunks_rejected_by_caller : forall extractedText,
  (exists chunks, PdfProcessor.chunkText extractedText 500 = Some chunks)
  /\ (PdfProcessor.chunkText extractedText 500 = Some [] ->
        exists message,
          DocumentController.chunking_step extractedText
          = Some (DocumentController.Respond 400 message))
  /\ (length (trim extractedText) < 50 ->
        DocumentController.chunking_step extractedText
        = Some (DocumentController.Respond 400
                  (js "Could not extract sufficient text from PDF. Please ensure the PDF contains selectable text and is not just an image.")))
  /\ (forall textChunks,
        DocumentController.chunking_step extractedText
        = Some (DocumentController.Proceed textChunks) ->
        textChunks <> []
        /\ PdfProcessor.chunkText extractedText 500 = Some textChunks).
Proof.
  intros extractedText. unfold DocumentController.chunking_step.
  split; [apply chunkText_returns; lia|]. split; [|split].
  - intros H. destruct (_ || _); [eauto|]. rewrite H. cbn. eauto.
  - intros H. apply Nat.ltb_lt in H. rewrite H, orb_true_r. reflexivity.
  - intros textChunks. destruct (_ || _); [discriminate|].
    destruct (PdfProcessor.chunkText extractedText 500) as [chunks|];
      [|discriminate].
    destruct chunks as [|c chunks]; cbn; [discriminate|].
    intros [= <-]. split; [discriminate|reflexivity].
Qed.

(* ================================================================== *)
(** * Scores of a session *)
(* ================================================================== *)

Lemma score_number_ordinary : forall x,
  ordinary_number x = true -> Chat.score_number x = x.
Proof.
  intros x H. unfold ordinary_number in H.
  apply andb_prop in H. destruct H as [Hn Hz].
  apply negb_true_iff in Hn. apply negb_true_iff in Hz.
  unfold Chat.score_number, Chat.parseFloat_number, Chat.or_zero.
  destruct (PrimFloat.is_zero x) eqn:Z.
  - cbn in Hz. destruct (is_zero_cases x Z) as [-> | ->].
    + reflexivity.
    + discriminate.
  - rewrite Hn, Z. reflexivity.
Qed.

Lemma fold_add_scores : forall msgs totals,
  fold_left Chat.add_scores msgs totals =
  (fold_left PrimFloat.add (relevance_values msgs) (fst totals),
   fold_left PrimFloat.add (correctness_values msgs) (snd totals)).
Proof.
  induction msgs as [|msg msgs IH]; intros [tr tc]; [reflexivity|].
  cbn [fold_left relevance_values correctness_values map].
  rewrite IH. reflexivity.
Qed.

(** [toFixed(1)] takes the integer nearest to ten times the magnitude,
    the larger one of two. *)
Lemma nearest_tenths_spec : forall m e,
  let n := Chat.nearest_tenths m e in
  ((0 <= e)%Z -> n = (10 * Zpos m * 2 ^ e)%Z)
  /\ ((e < 0)%Z ->
        ((2 * n - 1) * 2 ^ (- e) <= 20 * Zpos m < (2 * n + 1) * 2 ^ (- e))%Z).
Proof.
  intros m e n. subst n. unfold Chat.nearest_tenths. split.
  - intros H. apply Z.leb_le in H. now rewrite H.
  - intros H. assert (E : (0 <=? e)%Z = false) by (apply Z.leb_gt; lia).
    rewrite E. replace (1 - e)%Z with (- e + 1)%Z by lia.
    rewrite Z.pow_add_r by lia. change (2 ^ 1)%Z with 2%Z.
    assert (D : (0 < 2 ^ (- e))%Z) by (apply Z.pow_pos_nonneg; lia).
    set (d := (2 ^ (- e))%Z) in *.
    pose proof (Z.div_mod (20 * Zpos m + d) (d * 2) ltac:(lia)) as Hdm.
    pose proof (Z.mod_pos_bound (20 * Zpos m + d) (d * 2) ltac:(lia)) as Hb.
    set (q := ((20 * Zpos m + d) / (d * 2))%Z) in *.
    nia.
Qed.

(** The number that [toFixed(1)] and [parseFloat] give for a number
    whose nearest count of tenths [n] is positive and below 2^53: it has
    the sign of the number, a mantissa of 53 bits, and lies at most half
    a unit of the last bit of this mantissa away from [n / 10]. *)
Lemma round1_nearest_tenth : forall x s m e,
  Prim2SF x = S754_finite s m e ->
  (PrimFloat.abs x <? 1e21)%float = true ->
  (0 < Chat.nearest_tenths m e < 2 ^ 53)%Z ->
  exists m' e',
    Prim2SF (Chat.round1 x) = S754_finite s m' e'
    /\ (2 ^ 52 <= Zpos m' < 2 ^ 53)%Z
    /\ (e' < 0)%Z
    /\ (-5 <= 10 * Zpos m' - Chat.nearest_tenths m e * 2 ^ (- e') <= 5)%Z.
Proof.
  intros x s m e Hx Hlt Hn.
  unfold Chat.round1. rewrite Hx, Hlt.
  destruct (Chat.nearest_tenths m e) as [|p|p]; try lia.
  destruct (SFdiv_tenths s p (proj2 Hn)) as (mf & ef & Hdiv & Hmf & Hef & Hnear).
  exists mf, ef. unfold Chat.decimal_tenths. rewrite Hdiv.
  rewrite Prim2SF_SF2Prim.
  - split; [reflexivity|]. split; [exact Hmf|]. split; [lia|exact Hnear].
  - unfold valid_binary, bounded, canonical_mantissa.
    rewrite (digits2_of_bounds mf 53) by exact Hmf.
    rewrite fexp_normal by lia.
    apply andb_true_iff. split.
    + apply Z.eqb_eq. lia.
    + apply Z.leb_le. unfold emax, prec. lia.
Qed.

(** C9: [calculateFinalScores] selects the messages of role
    "assistant" that carry a number in [relevanceScore] and in
    [correctnessScore].  With none, the three fields are left undefined.
    Otherwise [averageRelevance] and [averageCorrectness] are the means
    of the two scores, and [finalScore] the half-sum of the two means,
    each rounded to one decimal place.  The scores are read with
    [parseFloat(s) || 0], which is [s] for every number but NaN and the
    negative zero.

    The rounding to one decimal place of a number [x] of magnitude
    [m * 2 ^ e] below 1e21 is this: [n] is the integer nearest to ten
    times the magnitude, the larger one of two; for [n = 0] the result
    is the zero of the sign of [x]; for [0 < n < 2 ^ 53] the result is
    the binary64 number nearest to [n / 10], with the sign of [x]: a
    number [m' * 2 ^ e'] with a mantissa of 53 bits and
    [|m' * 2 ^ e' - n / 10| <= 2 ^ e' / 2].

    For relevance 8, 6 and correctness 6, 8 the three fields are 7.  For
    relevance 7, 8, 8 and correctness 9, 9, 8 the means 23/3 and 26/3
    and their half-sum 49/6 are stored as 7.7, 8.7 and 8.2. *)
Theorem calculateFinalScores_spec : forall this,
  let selected := filter Chat.is_scored (Chat.messages this) in
  let result := Chat.calculateFinalScores this in
  (forall msg, In msg selected <->
     In msg (Chat.messages this)
     /\ Chat.role msg = js "assistant"
     /\ (exists r, Chat.relevanceScore msg = Some r)
     /\ (exists c, Chat.correctnessScore msg = Some c))
  /\ (selected = [] ->
        Chat.finalScore result = None
        /\ Chat.averageRelevance result = None
        /\ Chat.averageCorrectness result = None)
  /\ (selected <> [] ->
        Chat.averageRelevance result
        = Some (Chat.round1 (mean (relevance_values selected)))
        /\ Chat.averageCorrectness result
           = Some (Chat.round1 (mean (correctness_values selected)))
        /\ Chat.finalScore result
           = Some (Chat.round1 ((mean (relevance_values selected)
                                 + mean (correctness_values selected)) / 2)%float))
  /\ (forall x, ordinary_number x = true -> Chat.score_number x = x)
  /\ (forall x s m e,
        Prim2SF x = S754_finite s m e ->
        (PrimFloat.abs x <? 1e21)%float = true ->
        Chat.round1 x = Chat.decimal_tenths s (Chat.nearest_tenths m e)
        /\ ((0 <= e)%Z -> Chat.nearest_tenths m e = (10 * Zpos m * 2 ^ e)%Z)
        /\ ((e < 0)%Z ->
              ((2 * Chat.nearest_tenths m e - 1) * 2 ^ (- e)
               <= 20 * Zpos m
               < (2 * Chat.nearest_tenths m e + 1) * 2 ^ (- e))%Z)
        /\ (Chat.nearest_tenths m e = 0%Z ->
              Chat.round1 x = if s then (-0)%float else 0%float)
        /\ ((0 < Chat.nearest_tenths m e < 2 ^ 53)%Z ->
              exists m' e',
                Prim2SF (Chat.round1 x) = S754_finite s m' e'
                /\ (2 ^ 52 <= Zpos m' < 2 ^ 53)%Z
                /\ (e' < 0)%Z
                /\ (-5 <= 10 * Zpos m'
                          - Chat.nearest_tenths m e * 2 ^ (- e') <= 5)%Z))
  /\ (Chat.averageRelevance (Chat.calculateFinalScores two_answers_session) = Some 7%float
      /\ Chat.averageCorrectness (Chat.calculateFinalScores two_answers_session) = Some 7%float
      /\ Chat.finalScore (Chat.calculateFinalScores two_answers_session) = Some 7%float)
  /\ (Chat.averageRelevance (Chat.calculateFinalScores three_answers_session)
      = Some (77 / 10)%float
      /\ Chat.averageCorrectness (Chat.calculateFinalScores three_answers_session)
         = Some (87 / 10)%float
      /\ Chat.finalScore (Chat.calculateFinalScores three_answers_session)
         = Some (82 / 10)%float).
Proof.
  intros this selected result.
  split; [|split; [|split; [|split; [|split; [|split]]]]].
  - intros msg. unfold selected. rewrite filter_In. unfold Chat.is_scored.
    split.
    + intros [Hin H]. apply andb_prop in H. destruct H as [Hr Hs].
      split; [exact Hin|]. split.
      * unfold str_eqb in Hr. destruct (list_eq_dec _ _ _); [assumption|discriminate].
      * destruct (Chat.relevanceScore msg), (Chat.correctnessScore msg);
          try discriminate. eauto.
    + intros (Hin & Hr & [r Hrel] & [c Hcor]). split; [exact Hin|].
      rewrite Hr, Hrel, Hcor. unfold str_eqb.
      destruct (list_eq_dec _ _ _); [reflexivity|congruence].
  - intros H. unfold result, Chat.calculateFinalScores. fold selected.
    rewrite H. cbn. auto.
  - intros H. unfold result, Chat.calculateFinalScores. fold selected.
    destruct selected as [|msg rest] eqn:E; [congruence|].
    change (length (msg :: rest) =? 0) with false. cbv iota zeta.
    rewrite fold_add_scores. cbn [fst snd Chat.finalScore
      Chat.averageRelevance Chat.averageCorrectness].
    unfold mean, relevance_values, correctness_values. rewrite !length_map.
    auto.
  - exact score_number_ordinary.
  - intros x s m e Hx Hlt.
    assert (Hround : Chat.round1 x
                     = Chat.decimal_tenths s (Chat.nearest_tenths m e)).
    { unfold Chat.round1. rewrite Hx, Hlt. reflexivity. }
    split; [exact Hround|].
    split; [apply nearest_tenths_spec|].
    split; [apply nearest_tenths_spec|]. split.
    + intros Hz. rewrite Hround, Hz. reflexivity.
    + now apply round1_nearest_tenth.
  - vm_compute. auto.
  - vm_compute. auto.
Qed.

(* ================================================================== *)
(** * Retrieval of similar chunks *)
(* ================================================================== *)

(** ** The sort *)

Lemma insert_sorted_In : forall A (compare : A -> A -> float) x l e,
  In e (insert_sorted compare x l) <-> e = x \/ In e l.
Proof.
  induction l as [|y rest IH]; intros e; cbn.
  - intuition congruence.
  - destruct (0 <? compare x y)%float; cbn; [rewrite IH|]; intuition congruence.
Qed.

Lemma sort_In : forall A (compare : A -> A -> float) l e,
  In e (sort compare l) <-> In e l.
Proof.
  unfold sort. induction l as [|x l IH]; intros e; cbn [fold_right]; [tauto|].
  rewrite insert_sorted_In, IH. cbn. intuition congruence.
Qed.

Lemma insert_sorted_length : forall A (compare : A -> A -> float) x l,
  length (insert_sorted compare x l) = S (length l).
Proof.
  induction l as [|y rest IH]; cbn; [reflexivity|].
  destruct (0 <? compare x y)%float; cbn; [now rewrite IH|reflexivity].
Qed.

Lemma sort_length : forall A (compare : A -> A -> float) l,
  length (sort compare l) = length l.
Proof.
  unfold sort. induction l as [|x l IH]; cbn [fold_right length]; [reflexivity|].
  now rewrite insert_sorted_length, IH.
Qed.

(** What the comparator decides, in terms of the order of numbers. *)
Lemma by_similarity_after : forall x y,
  PrimFloat.is_nan (similarity x) = false ->
  PrimFloat.is_nan (similarity y) = false ->
  (0 <? by_similarity x y)%float = true -> descending y x.
Proof.
  intros x y Hx Hy H. unfold by_similarity in H. unfold descending.
  apply not_ltb_leb; auto.
  destruct (similarity y <? similarity x)%float eqn:E; [|reflexivity].
  apply sub_pos_of_ltb in E. apply sub_asym in H. congruence.
Qed.

Lemma by_similarity_not_after : forall x y,
  PrimFloat.is_nan (similarity x) = false ->
  PrimFloat.is_nan (similarity y) = false ->
  (0 <? by_similarity x y)%float = false -> descending x y.
Proof.
  intros x y Hx Hy H. unfold by_similarity in H. unfold descending.
  apply not_ltb_leb; auto.
  destruct (similarity x <? similarity y)%float eqn:E; [|reflexivity].
  apply sub_pos_of_ltb in E. congruence.
Qed.

Lemma insert_sorted_HdRel : forall y x l,
  descending y x -> HdRel descending y l ->
  HdRel descending y (insert_sorted by_similarity x l).
Proof.
  intros y x l Hyx Hl. destruct l as [|z rest]; cbn [insert_sorted].
  - constructor. exact Hyx.
  - destruct (0 <? by_similarity x z)%float; constructor.
    + inversion Hl; assumption.
    + exact Hyx.
Qed.

Lemma insert_sorted_Sorted : forall x l,
  PrimFloat.is_nan (similarity x) = false ->
  Forall (fun e => PrimFloat.is_nan (similarity e) = false) l ->
  Sorted descending l ->
  Sorted descending (insert_sorted by_similarity x l).
Proof.
  intros x l Hx. induction l as [|y rest IH]; intros Hl Hs; cbn [insert_sorted].
  - repeat constructor.
  - inversion Hl as [|? ? Hy Hrest]; subst.
    inversion Hs as [|? ? Hs' Hhd]; subst.
    destruct (0 <? by_similarity x y)%float eqn:E.
    + constructor; [now apply IH|].
      apply insert_sorted_HdRel; [|exact Hhd].
      now apply by_similarity_after.
    + constructor; [exact Hs|]. constructor.
      now apply by_similarity_not_after.
Qed.

Lemma sort_Sorted : forall l,
  Forall (fun e => PrimFloat.is_nan (similarity e) = false) l ->
  Sorted descending (sort by_similarity l).
Proof.
  induction 1 as [|x l Hx Hl IH]; [constructor|].
  change (sort by_similarity (x :: l))
    with (insert_sorted by_similarity x (sort by_similarity l)).
  apply insert_sorted_Sorted; auto.
  apply Forall_forall. intros e He. apply sort_In in He.
  rewrite Forall_forall in Hl. now apply Hl.
Qed.


Lemma firstn_In : forall A k (l : list A) e, In e (firstn k l) -> In e l.
Proof.
  induction k as [|k IH]; intros l e H; cbn in H; [contradiction|].
  destruct l as [|x l]; [contradiction|]. cbn in *. intuition.
Qed.

(** ** The scoring of the chunks *)

Lemma score_chunk_some : forall q i c e,
  score_chunk q i c = Some e ->
  index e = i /\ chunk e = c /\ has_embedding c = true
  /\ cosineSimilarity q (get c "embedding") = Normal (similarity e).
Proof.
  intros q i c e. unfold score_chunk, has_embedding.
  destruct c as [| |b|x|s|elems|props]; try discriminate.
  destruct (get (VObj props) "embedding") as [| |b|x|s|elems|props'] eqn:G;
    try discriminate.
  destruct (cosineSimilarity q (VArr elems)) as [r|err] eqn:C; [|discriminate].
  intros [= <-]. cbn. auto.
Qed.


Lemma keep_scored_In : forall q cs i0 e,
  In e (keep_scored (score_chunks q i0 cs)) ->
  i0 <= index e
  /\ nth_error cs (index e - i0) = Some (chunk e)
  /\ has_embedding (chunk e) = true
  /\ cosineSimilarity q (get (chunk e) "embedding") = Normal (similarity e)
  /\ PrimFloat.is_nan (similarity e) = false.
Proof.
  intros q cs. induction cs as [|c rest IH]; intros i0 e H; [contradiction|].
  cbn [score_chunks keep_scored] in H.
  assert (Hrest : In e (keep_scored (score_chunks q (S i0) rest)) ->
            i0 <= index e
            /\ nth_error (c :: rest) (index e - i0) = Some (chunk e)
            /\ has_embedding (chunk e) = true
            /\ cosineSimilarity q (get (chunk e) "embedding") = Normal (similarity e)
            /\ PrimFloat.is_nan (similarity e) = false).
  { intros Hin. destruct (IH _ _ Hin) as (H1 & H2 & H3).
    split; [lia|]. split; [|exact H3].
    replace (index e - i0) with (S (index e - S i0)) by lia. exact H2. }
  destruct (score_chunk q i0 c) as [item|] eqn:S; [|auto].
  destruct (PrimFloat.is_nan (similarity item)) eqn:N; [auto|].
  destruct H as [<- | H]; [|auto].
  destruct (score_chunk_some _ _ _ _ S) as (H1 & H2 & H3 & H4).
  rewrite H1, H2, Nat.sub_diag. cbn. repeat split; auto.
Qed.



(** C3, the bound as the claim words it, refuted: with [topK = 0], and
    with [topK = -2], the function goes on with 3, and of four valid
    chunks it returns three, more than [min(topK, validChunkCount)]. *)
Lemma findSimilarChunks_topK_counterexample :
  let chunks :=
    [chunk_with [1; 0]; chunk_with [0; 1]; chunk_with [1; 1];
     chunk_with [2; 1]]%float in
  let result := findSimilarChunks (vector [1; 0]%float) (VArr chunks) (VNum 0) in
  validChunkCount chunks = 4
  /\ map index result = [0; 3; 2]
  /\ ~ length result <= Nat.min 0 (validChunkCount chunks)
  /\ length (findSimilarChunks (vector [1; 0]%float) (VArr chunks) (VNum (-2)))
     = 3.
Proof.
  cbv zeta. split; [reflexivity|]. split; [vm_compute; reflexivity|].
  split; [|vm_compute; reflexivity].
  intros H. vm_compute in H. lia.
Qed.


(* ================================================================== *)
(** * The retry wrapper, for any number of retries *)
(* ================================================================== *)

Lemma retry_loop_scripted : forall A (outcomes : nat -> completion A)
    retries remaining i w,
  i + remaining = retries -> 1 <= remaining ->
  exists k,
    k < remaining
    /\ retry_loop (scripted outcomes) retries remaining i w
       = (outcomes (calls w + k),
          mkWorld (calls w + S k) (slept w ++ map backoff_delay (seq i k)))
    /\ (forall j, j < k ->
          exists e, outcomes (calls w + j) = Throw e
                    /\ isRateLimitError e = true)
    /\ (forall e, outcomes (calls w + k) = Throw e ->
          k = remaining - 1 \/ isRateLimitError e = false).
Proof.
  intros A outcomes retries remaining.
  induction remaining as [|r IH]; intros i w Hsum Hpos; [lia|].
  cbn [retry_loop]. unfold try_catch at 1. unfold scripted at 1.
  assert (E0 : calls w + 0 = calls w) by lia.
  destruct (outcomes (calls w)) as [a|e] eqn:Ho.
  { exists 0. rewrite E0, Ho. cbn [seq map]. rewrite app_nil_r.
    replace (calls w + 1) with (S (calls w)) by lia.
    split; [lia|]. split; [reflexivity|].
    split; [intros; lia | intros; discriminate]. }
  destruct ((i =? retries - 1) || negb (isRateLimitError e)) eqn:Hstop.
  { exists 0. rewrite E0, Ho. cbn [seq map]. rewrite app_nil_r.
    replace (calls w + 1) with (S (calls w)) by lia.
    split; [lia|]. split; [reflexivity|]. split; [intros; lia|].
    - intros e' He'. injection He' as <-.
      apply orb_true_iff in Hstop as [Hi|Hn].
      + apply Nat.eqb_eq in Hi. left. lia.
      + right. now apply negb_true_iff in Hn. }
  apply orb_false_iff in Hstop as [Hi Hn].
  apply Nat.eqb_neq in Hi. apply negb_false_iff in Hn.
  destruct (IH (S i) (sleep (INITIAL_RETRY_DELAY * 2 ^ Z.of_nat i) (tick w)))
    as (k & Hk & Hrun & Hbefore & Hlast); [lia | lia |].
  exists (S k). cbn [calls slept sleep tick] in *.
  split; [lia|]. split; [|split].
  - rewrite Hrun. cbn [seq map]. unfold backoff_delay at 2, INITIAL_RETRY_DELAY.
    rewrite <- app_assoc. cbn [app].
    replace (S (calls w) + k) with (calls w + S k) by lia.
    replace (S (calls w) + S k) with (calls w + S (S k)) by lia.
    reflexivity.
  - intros j Hj. destruct j as [|j].
    + rewrite E0. eauto.
    + replace (calls w + S j) with (S (calls w) + j) by lia.
      apply Hbefore. lia.
  - intros e' He'.
    replace (calls w + S k) with (S (calls w) + k) in He' by lia.
    destruct (Hlast e' He') as [H|H]; [left; lia | now right].
Qed.

(** What three attempts under the wrapper amount to for a scripted
    call: the outcome of attempt [k], after [k] retryable failures. *)
Lemma retry_scripted_outcome : forall A (outcomes : nat -> completion A) w,
  exists k,
    k < 3
    /\ retryWithBackoff (scripted outcomes) MAX_RETRIES w
       = (outcomes (calls w + k),
          mkWorld (calls w + S k) (slept w ++ firstn k [1000; 2000]%Z))
    /\ (forall j, j < k ->
          exists e, outcomes (calls w + j) = Throw e
                    /\ isRateLimitError e = true)
    /\ (forall e, outcomes (calls w + k) = Throw e ->
          k = 2 \/ isRateLimitError e = false).
Proof.
  intros A outcomes w.
  destruct (retry_loop_scripted A outcomes MAX_RETRIES MAX_RETRIES 0 w)
    as (k & Hk & Hrun & Hbefore & Hlast); [reflexivity | unfold MAX_RETRIES; lia |].
  unfold MAX_RETRIES in Hk. exists k. split; [exact Hk|].
  split; [|split; [exact Hbefore|exact Hlast]].
  unfold retryWithBackoff. rewrite Hrun.
  destruct k as [|[|[|k]]]; try lia; reflexivity.
Qed.

(** X1.  [retryWithBackoff(fn, retries)] for any [retries]: with
    [retries = 0] the function is never called and the error of the
    safeguard after the loop is thrown; with [retries >= 1] between 1
    and [retries] attempts are made, every attempt but the last failed
    with a retryable error, the wait after the failed attempt [i] is
    1000 * 2^i ms, the result is the outcome of the last attempt, and
    an error that is retryable is only the result after [retries]
    attempts. *)
Theorem retryWithBackoff_any_retries :
  forall A (outcomes : nat -> completion A) (retries : nat) (w : world),
    let run := retryWithBackoff (scripted outcomes) retries w in
    let attempts := calls (snd run) - calls w in
    (retries = 0 ->
       run = (Throw (Error (js "API call failed after 0 retries.")), w))
    /\ (1 <= retries ->
          1 <= attempts <= retries
          /\ fst run = outcomes (calls w + (attempts - 1))
          /\ slept (snd run)
             = slept w ++ map backoff_delay (seq 0 (attempts - 1))
          /\ (forall k, k < attempts - 1 ->
                exists e, outcomes (calls w + k) = Throw e
                          /\ isRateLimitError e = true)
          /\ (forall e, fst run = Throw e ->
                attempts = retries \/ isRateLimitError e = false)).
Proof.
  intros A outcomes retries w run attempts. split.
  - intros ->. reflexivity.
  - intros Hpos.
    destruct (retry_loop_scripted A outcomes retries retries 0 w)
      as (k & Hk & Hrun & Hbefore & Hlast); [reflexivity | exact Hpos |].
    subst attempts run. unfold retryWithBackoff. rewrite Hrun.
    cbn [fst snd calls slept].
    replace (calls w + S k - calls w) with (S k) by lia.
    replace (S k - 1) with k by lia.
    repeat split; try lia; auto.
    intros e He. destruct (Hlast e He) as [H|H]; [left; lia | now right].
Qed.

(* ================================================================== *)
(** * The single embedding and the text generations *)
(* ================================================================== *)

Lemma single_embed_attempt_scripted : forall svc t w,
  GeminiText.single_embed_attempt svc t w
  = scripted (single_embed_outcomes svc t) w.
Proof.
  intros svc t w.
  unfold scripted, single_embed_outcomes, GeminiText.single_embed_attempt.
  cbn [calls].
  destruct (embedContent svc (calls w) t) as [res|e]; [|reflexivity].
  destruct (get (get res "embedding") "values") as [| |b|x|s|[|v values]|props];
    reflexivity.
Qed.

Lemma generation_attempt_scripted :
  forall cfg blocked tooLong empty result svc prompt w,
    GeminiText.generation_attempt cfg blocked tooLong empty result svc prompt w
    = scripted
        (fun n => fst (GeminiText.generation_attempt cfg blocked tooLong empty
                         result svc prompt (mkWorld n []))) w.
Proof.
  intros. unfold scripted, GeminiText.generation_attempt. cbn [calls].
  destruct (generateContent svc (calls w) _ prompt) as [response|e];
    [|reflexivity].
  destruct ((length (text response) =? 0) || (length (trim (text response)) =? 0));
    [|reflexivity].
  destruct (finishReason response) as [reason|]; [|reflexivity].
  destruct (str_eqb reason (js "SAFETY")); [reflexivity|].
  destruct (str_eqb reason (js "MAX_TOKENS")); reflexivity.
Qed.

(** A text returned by a generation attempt is the text of the answer
    to that call, and is not blank. *)
Lemma generation_attempt_normal :
  forall cfg blocked tooLong empty result svc prompt n t,
    fst (GeminiText.generation_attempt cfg blocked tooLong empty result svc
           prompt (mkWorld n [])) = Normal t ->
    exists response,
      generateContent svc n (getTextGenerationModel cfg) prompt = Normal response
      /\ t = result (text response)
      /\ trim (text response) <> [].
Proof.
  intros cfg blocked tooLong empty result svc prompt n t.
  unfold GeminiText.generation_attempt. cbn [calls].
  destruct (generateContent svc n _ prompt) as [response|e]; [|discriminate].
  destruct ((length (text response) =? 0) || (length (trim (text response)) =? 0))
    eqn:Hblank.
  - destruct (finishReason response) as [reason|]; [|discriminate].
    destruct (str_eqb reason (js "SAFETY")); [discriminate|].
    destruct (str_eqb reason (js "MAX_TOKENS")); discriminate.
  - cbn [fst]. intros [= <-]. exists response.
    apply orb_false_iff in Hblank as [_ Hb]. apply Nat.eqb_neq in Hb.
    repeat split. intros E. rewrite E in Hb. now apply Hb.
Qed.

(** An error thrown by a generation attempt itself, and not by the
    service, is no retryable error. *)
Lemma generation_attempt_throw :
  forall cfg blocked tooLong empty result svc prompt n e,
    fst (GeminiText.generation_attempt cfg blocked tooLong empty result svc
           prompt (mkWorld n [])) = Throw e ->
    generateContent svc n (getTextGenerationModel cfg) prompt = Throw e
    \/ e = Error blocked \/ e = Error tooLong \/ e = Error empty.
Proof.
  intros cfg blocked tooLong empty result svc prompt n e.
  unfold GeminiText.generation_attempt. cbn [calls].
  destruct (generateContent svc n _ prompt) as [response|e0].
  - destruct ((length (text response) =? 0) || (length (trim (text response)) =? 0));
      [|discriminate].
    destruct (finishReason response) as [reason|].
    + destruct (str_eqb reason (js "SAFETY")); [intros [= <-]; auto|].
      destruct (str_eqb reason (js "MAX_TOKENS")); intros [= <-]; auto.
    + intros [= <-]; auto.
  - cbn [fst]. intros [= <-]. now left.
Qed.

Lemma trim_idempotent : forall s, trim (trim s) = trim s.
Proof.
  intros s. rewrite (trim_drop_trailing (trim s)), (trim_drop_trailing s).
  set (d := drop_while is_space s).
  assert (Hd : drop_while is_space (drop_trailing d) = drop_trailing d).
  { subst d. destruct (drop_while is_space s) as [|c r] eqn:E; [reflexivity|].
    assert (Hc : is_space c = false).
    { clear -E. induction s as [|x s IH]; [discriminate|].
      cbn in E. destruct (is_space x) eqn:Hx; [auto|].
      injection E as <- _. exact Hx. }
    cbn [drop_trailing]. destruct (drop_trailing r) as [|c' r'].
    - rewrite Hc. cbn. now rewrite Hc.
    - cbn. now rewrite Hc. }
  rewrite Hd. apply ends_clean_fixed, drop_trailing_ends_clean.
Qed.

(** X2.  [generateEmbedding(text)] on a string makes at most three
    requests.  A blank string costs no request and gives the error of
    the validation under the prefix of the function.  A vector that is
    returned is the array of the answer to the last request made, and is
    not empty; whatever its length: the dimension is not checked here.
    An error always carries the prefix.  On a value that is not a string
    the [catch] handler itself throws, at [text.substring], and no
    request is made. *)
Theorem generateEmbedding_outcome : forall svc t w,
  let run := GeminiText.generateEmbedding svc t w in
  (forall s, t = VStr s ->
     calls w <= calls (snd run) <= calls w + 3
     /\ (blank_text t = true ->
           run = (Throw (Error (js "Failed to generate embedding: Text for embedding must be a non-empty string")), w))
     /\ match fst run with
        | Normal values =>
            values <> []
            /\ exists result,
                 embedContent svc (calls (snd run) - 1) s = Normal result
                 /\ get (get result "embedding") "values" = VArr values
        | Throw e =>
            message_starts_with (js "Failed to generate embedding: ") e
        end)
  /\ (is_string t = false ->
        run = (Throw (GeminiText.substring_TypeError t), w)).
Proof.
  intros svc t w run. split.
  - intros s ->. subst run. unfold GeminiText.generateEmbedding, try_catch.
    destruct (blank_text (VStr s)) eqn:Hblank.
    { cbn [throw fst snd]. repeat split; try lia.
      eexists; reflexivity. }
    unfold retryWithBackoff.
    rewrite (retry_loop_ext _ _ _ (single_embed_attempt_scripted svc s)).
    destruct (retry_scripted_outcome _ (single_embed_outcomes svc s) w)
      as (k & Hk & Hrun & _ & _).
    unfold retryWithBackoff in Hrun. rewrite Hrun.
    destruct (single_embed_outcomes svc s (calls w + k)) as [values|e] eqn:Ho.
    + cbn [fst snd calls]. split; [lia|]. split; [discriminate|].
      replace (calls w + S k - 1) with (calls w + k) by lia.
      unfold single_embed_outcomes, GeminiText.single_embed_attempt in Ho.
      cbn [calls] in Ho.
      destruct (embedContent svc (calls w + k) s) as [res|e0]; [|discriminate].
      destruct (get (get res "embedding") "values")
        as [| |b|x|s0|[|v vs]|props] eqn:Hv; try discriminate.
      cbn [fst] in Ho. injection Ho as <-.
      split; [discriminate|]. exists res. split; [reflexivity|exact Hv].
    + cbn [throw fst snd calls]. split; [lia|]. split; [discriminate|].
      eexists; reflexivity.
  - intros Hs. subst run.
    destruct t; try discriminate; reflexivity.
Qed.

(** X3.  [generateChatResponse(prompt)] makes at most three requests,
    and none for a prompt that is not a string or is blank.  A text
    that is returned is the text of the answer to the last request
    made, unchanged, and is not blank.  An error always carries the
    prefix of the function. *)
Theorem generateChatResponse_outcome : forall svc prompt w,
  let run := GeminiText.generateChatResponse svc prompt w in
  calls w <= calls (snd run) <= calls w + 3
  /\ (blank_text prompt = true ->
        run = (Throw (Error (js "Failed to generate chat response: Prompt must be a non-empty string")), w))
  /\ match fst run with
     | Normal t =>
         trim t <> []
         /\ exists s response,
              prompt = VStr s
              /\ generateContent svc (calls (snd run) - 1)
                   (getTextGenerationModel
                      {| temperature := 0x1.6666666666666p-1;
                         maxOutputTokens := 1024 |}) s
                 = Normal response
              /\ text response = t
     | Throw e =>
         message_starts_with (js "Failed to generate chat response: ") e
     end.
Proof.
  intros svc prompt w run. subst run.
  unfold GeminiText.generateChatResponse, try_catch.
  destruct prompt as [| |b|x|s|elems|props];
    try (cbn [throw fst snd blank_text]; repeat split; try lia;
         eexists; reflexivity).
  destruct (blank_text (VStr s)) eqn:Hblank.
  { cbn [throw fst snd]. repeat split; try lia. eexists; reflexivity. }
  unfold retryWithBackoff, GeminiText.chat_attempt.
  rewrite (retry_loop_ext _ _ _ (generation_attempt_scripted _ _ _ _ _ svc s)).
  match goal with
  | |- context [retry_loop (scripted ?o) _ _ _ _] =>
      destruct (retry_scripted_outcome _ o w) as (k & Hk & Hrun & _ & _)
  end.
  unfold retryWithBackoff in Hrun. rewrite Hrun. clear Hrun.
  destruct (fst (GeminiText.generation_attempt _ _ _ _ _ svc s
                   (mkWorld (calls w + k) []))) as [t|e] eqn:Ho.
  - cbn [fst snd calls]. split; [lia|]. split; [discriminate|].
    apply generation_attempt_normal in Ho as (response & Hr & -> & Hne).
    split; [exact Hne|]. exists s, response.
    replace (calls w + S k - 1) with (calls w + k) by lia.
    repeat split. exact Hr.
  - cbn [throw fst snd calls]. split; [lia|]. split; [discriminate|].
    eexists; reflexivity.
Qed.

Lemma question_count_number : forall x n,
  GeminiText.question_count (VNum x) = Some n
  <-> integer_of x = Some (Z.of_nat n) /\ 2 <= n <= 10.
Proof.
  intros x n. unfold GeminiText.question_count.
  destruct (integer_of x) as [k|]; [|split; [discriminate|intros [H _]; discriminate]].
  destruct ((k <? 2)%Z || (10 <? k)%Z) eqn:Hk.
  - split; [discriminate|]. intros [[= ->] Hn].
    apply orb_true_iff in Hk as [H|H]; apply Z.ltb_lt in H; lia.
  - apply orb_false_iff in Hk as [H2 H10].
    apply Z.ltb_ge in H2. apply Z.ltb_ge in H10.
    split.
    + intros [= <-]. rewrite Z2Nat.id by lia. split; [reflexivity|lia].
    + intros [[= ->] _]. now rewrite Nat2Z.id.
Qed.

(** The two messages of overload are given to retryable errors only. *)
Lemma friendly_error_retryable : forall error,
  err_message (GeminiText.friendly_error error) = Some GeminiText.overloaded_message
  \/ err_message (GeminiText.friendly_error error) = Some GeminiText.rate_limit_message ->
  isRateLimitError error = true.
Proof.
  intros error. unfold GeminiText.friendly_error, isRateLimitError.
  destruct (status_is error 503) eqn:H503; [reflexivity|].
  destruct (message_includes error (js "overloaded")) eqn:Hov;
    [intros _; now rewrite orb_true_r|].
  destruct (status_is error 429) eqn:H429; [reflexivity|].
  destruct (message_includes error (js "rate limit")) eqn:Hrl; [reflexivity|].
  cbn [orb].
  destruct (status_is error 404);
    [intros [H|H]; vm_compute in H; discriminate|].
  destruct (status_is error 400 || message_includes error (js "Invalid request")).
  { destruct (err_message error) as [m|];
      [|intros [H|H]; vm_compute in H; discriminate].
    destruct (includes (js "safety") m || includes (js "blocked") m);
      intros [H|H]; vm_compute in H; discriminate. }
  destruct (message_includes error (js "quota"));
    [intros [H|H]; vm_compute in H; discriminate|].
  intros [H|H]; cbn in H; discriminate.
Qed.

(** X4.  A text that [generateInterviewQuestions] returns is not empty
    and has no white space at either end: it is the trimmed text of the
    answer to the last of at most three requests, made with the prompt
    for a job description that is not blank and a number of questions
    within 2..10. *)
Theorem generateInterviewQuestions_text :
  forall svc jdText numQuestions w t w',
    GeminiText.generateInterviewQuestions svc jdText numQuestions w
    = (Normal t, w') ->
    t <> [] /\ trim t = t
    /\ exists s n response,
         jdText = VStr s /\ trim s <> []
         /\ GeminiText.question_count numQuestions = Some n
         /\ calls w < calls w' <= calls w + 3
         /\ generateContent svc (calls w' - 1)
              (getTextGenerationModel
                 {| temperature := 0x1.999999999999ap-1;
                    maxOutputTokens := 2048 |})
              (GeminiText.questions_prompt s n)
            = Normal response
         /\ t = trim (text response).
Proof.
  intros svc jdText numQuestions w t w'.
  unfold GeminiText.generateInterviewQuestions, try_catch.
  destruct jdText as [| |b|x|s|elems|props]; try discriminate.
  destruct (blank_text (VStr s)) eqn:Hblank; [discriminate|].
  destruct (GeminiText.question_count numQuestions) as [n|] eqn:Hn;
    [|discriminate].
  unfold retryWithBackoff, GeminiText.questions_attempt.
  rewrite (retry_loop_ext _ _ _ (generation_attempt_scripted _ _ _ _ _ svc _)).
  match goal with
  | |- context [retry_loop (scripted ?o) _ _ _ _] =>
      destruct (retry_scripted_outcome _ o w) as (k & Hk & Hrun & _ & _)
  end.
  unfold retryWithBackoff in Hrun. rewrite Hrun. clear Hrun.
  destruct (fst (GeminiText.generation_attempt _ _ _ _ _ svc _
                   (mkWorld (calls w + k) []))) as [t0|e] eqn:Ho;
    [|discriminate].
  intros [= <- <-].
  apply generation_attempt_normal in Ho as (response & Hr & -> & Hne).
  split; [exact Hne|]. split; [apply trim_idempotent|].
  exists s, n, response. cbn [calls].
  replace (calls w + S k - 1) with (calls w + k) by lia.
  rewrite blank_text_string in Hblank.
  apply orb_false_iff in Hblank as [_ Hb]. apply Nat.eqb_neq in Hb.
  repeat split; try lia; auto.
  intros E. rewrite E in Hb. now apply Hb.
Qed.

Lemma generateInterviewQuestions_text_witness :
  let reply := js "1. What is a closure?
2. Tell me about a conflict in a team.
" in
  trim reply <> [] /\ trim (trim reply) = trim reply.
Proof.
  intros reply.
  destruct (generateInterviewQuestions_text (replying_service reply)
              (VStr (js "We look for a developer who knows React and Node.js."))
              (VNum 2) (mkWorld 0 []) (trim reply) (mkWorld 1 []))
    as (Hne & Htrim & _).
  - vm_compute. reflexivity.
  - split; [exact Hne | exact Htrim].
Defined.

(** X5.  Arguments that fail the validation of
    [generateInterviewQuestions] cost no request, and the error says
    which argument it was, under the prefix of the function; the number
    of questions is accepted exactly when it is an integer within
    2..10, and is 3 when it is left out. *)
Theorem generateInterviewQuestions_invalid_arguments :
  forall svc jdText numQuestions w,
    let run := GeminiText.generateInterviewQuestions svc jdText numQuestions w in
    (blank_text jdText = true ->
       run = (Throw (Error (js "Unable to generate questions: Job description text must be a non-empty string")), w))
    /\ (blank_text jdText = false ->
        GeminiText.question_count numQuestions = None ->
          run = (Throw (Error (js "Unable to generate questions: Number of questions must be an integer between 2 and 10")), w))
    /\ (forall x n,
          GeminiText.question_count (VNum x) = Some n
          <-> integer_of x = Some (Z.of_nat n) /\ 2 <= n <= 10)
    /\ GeminiText.question_count VUndefined = Some 3
    /\ (forall v, is_number v = false -> v <> VUndefined ->
          GeminiText.question_count v = None).
Proof.
  intros svc jdText numQuestions w run. subst run.
  unfold GeminiText.generateInterviewQuestions, try_catch.
  split; [|split; [|split; [|split]]].
  - intros Hblank.
    destruct jdText as [| |b|x|s|elems|props];
      try (vm_compute; reflexivity).
    rewrite Hblank. vm_compute. reflexivity.
  - intros Hblank Hn.
    destruct jdText as [| |b|x|s|elems|props];
      try (rewrite blank_text_other in Hblank by reflexivity; discriminate).
    rewrite Hblank, Hn. vm_compute. reflexivity.
  - apply question_count_number.
  - reflexivity.
  - intros v Hv Hu. destruct v; try reflexivity; [congruence|discriminate].
Qed.

(** X6.  [generateInterviewQuestions] reports that the service is
    overloaded, or that the rate limit is reached, only after three
    requests, with one second waited after the first and two after the
    second. *)
Theorem generateInterviewQuestions_overload_after_three_attempts :
  forall svc jdText numQuestions w e w',
    GeminiText.generateInterviewQuestions svc jdText numQuestions w
    = (Throw e, w') ->
    err_message e = Some GeminiText.overloaded_message
    \/ err_message e = Some GeminiText.rate_limit_message ->
    calls w' = calls w + 3 /\ slept w' = slept w ++ [1000; 2000]%Z.
Proof.
  intros svc jdText numQuestions w e w'.
  unfold GeminiText.generateInterviewQuestions, try_catch.
  destruct jdText as [| |b|x|s|elems|props];
    try (cbn [throw]; intros [= <- <-] [H|H]; vm_compute in H; discriminate).
  destruct (blank_text (VStr s));
    [cbn [throw]; intros [= <- <-] [H|H]; vm_compute in H; discriminate|].
  destruct (GeminiText.question_count numQuestions) as [n|];
    [|cbn [throw]; intros [= <- <-] [H|H]; vm_compute in H; discriminate].
  unfold retryWithBackoff, GeminiText.questions_attempt.
  rewrite (retry_loop_ext _ _ _ (generation_attempt_scripted _ _ _ _ _ svc _)).
  match goal with
  | |- context [retry_loop (scripted ?o) _ _ _ _] =>
      destruct (retry_scripted_outcome _ o w) as (k & Hk & Hrun & _ & Hlast)
  end.
  unfold retryWithBackoff in Hrun. rewrite Hrun. clear Hrun.
  destruct (fst (GeminiText.generation_attempt _ _ _ _ _ svc _
                   (mkWorld (calls w + k) []))) as [t0|e0] eqn:Ho;
    [discriminate|].
  cbn [throw]. intros [= <- <-] Hmsg.
  apply friendly_error_retryable in Hmsg.
  destruct (Hlast e0 eq_refl) as [-> | Hno]; [|congruence].
  cbn [calls slept firstn]. split; [lia|reflexivity].
Qed.

Lemma generateInterviewQuestions_overload_after_three_attempts_witness :
  snd (GeminiText.generateInterviewQuestions overloaded_service
         (VStr (js "We look for a developer who knows React and Node.js."))
         (VNum 5) (mkWorld 0 []))
  = mkWorld 3 [1000; 2000]%Z.
Proof.
  destruct (generateInterviewQuestions_overload_after_three_attempts
              overloaded_service
              (VStr (js "We look for a developer who knows React and Node.js."))
              (VNum 5) (mkWorld 0 [])
              (Error GeminiText.overloaded_message)
              (mkWorld 3 [1000; 2000]%Z)) as [_ _].
  - vm_compute. reflexivity.
  - left. reflexivity.
  - vm_compute. reflexivity.
Defined.

(* ================================================================== *)
(** * The requests of a batch of embeddings *)
(* ================================================================== *)

Lemma item_outcome_budget : forall svc t w,
  let w1 := snd (item_outcome svc t w) in
  (blank_text t = true -> item_outcome svc t w = (zero_vector, w))
  /\ (blank_text t = false ->
        calls w < calls w1 <= calls w + 3 /\ waited w w1 2).
Proof.
  intros svc t w. unfold item_outcome.
  destruct t as [| |b|x|s|elems|props];
    try (split; [reflexivity|];
         intros H; rewrite blank_text_other in H by reflexivity; discriminate).
  rewrite blank_text_string.
  destruct ((length s =? 0) || (length (trim s) =? 0)).
  { split; [reflexivity|discriminate]. }
  split; [discriminate|]. intros _.
  destruct (retry_of_attempts svc s [] w) as [-> _].
  destruct (retry_scripted_outcome _ (embed_outcomes svc s) w)
    as (k & Hk & Hrun & _ & _).
  rewrite Hrun.
  assert (Hw : waited w (mkWorld (calls w + S k)
                           (slept w ++ firstn k [1000; 2000]%Z)) 2).
  { exists (firstn k [1000; 2000]%Z). cbn [slept]. split; [reflexivity|].
    destruct k as [|[|[|k]]]; try lia; cbn; (split; [lia|]);
      repeat (apply Forall_cons; [lia|]); apply Forall_nil. }
  destruct (embed_outcomes svc s (calls w + k)); cbn [snd calls];
    (split; [lia|exact Hw]).
Qed.

Lemma embedded_in_order_budget : forall svc w texts vectors w',
  embedded_in_order svc w texts vectors w' ->
  calls w <= calls w' <= calls w + 3 * length (sent_texts texts)
  /\ length (sent_texts texts) <= calls w' - calls w
  /\ waited w w' (2 * length (sent_texts texts))
  /\ (sent_texts texts = [] ->
        w' = w /\ vectors = repeat zero_vector (length texts)).
Proof.
  intros svc w texts vectors w' H.
  induction H as [w|w t rest v vs w1 w2 Hitem _ IH].
  - cbn. repeat split; try lia.
    exists []. rewrite app_nil_r. repeat split; auto.
  - destruct IH as (Hc & Hmin & (ds & Hds & Hlen & Hall) & Hnone).
    destruct (item_outcome_budget svc t w) as [Hblank Hsent].
    rewrite Hitem in Hblank, Hsent. cbn [snd] in Hsent.
    unfold sent_texts in *. cbn [filter].
    destruct (blank_text t) eqn:Hb; cbn [negb].
    + specialize (Hblank eq_refl). injection Hblank as -> ->.
      split; [exact Hc|]. split; [exact Hmin|].
      split; [exists ds; auto|].
      intros Hnil. destruct (Hnone Hnil) as [-> ->].
      split; reflexivity.
    + destruct (Hsent eq_refl) as (Hc1 & (ds1 & Hds1 & Hlen1 & Hall1)).
      cbn [length]. split; [lia|]. split; [lia|].
      split; [|discriminate].
      exists (ds1 ++ ds). rewrite Hds, Hds1, <- app_assoc.
      split; [reflexivity|]. split.
      * rewrite length_app. lia.
      * apply Forall_app. split; assumption.
Qed.

Lemma item_outcome_requests : forall svc t w v w1,
  item_outcome svc t w = (v, w1) -> item_requests svc t w v w1.
Proof.
  intros svc t w v w1. unfold item_outcome, item_requests.
  destruct t as [| |b|x|s|elems|props];
    try (rewrite blank_text_other by reflexivity; intros [= <- <-]; auto).
  rewrite blank_text_string.
  destruct ((length s =? 0) || (length (trim s) =? 0));
    [intros [= <- <-]; auto|].
  destruct (retry_of_attempts svc s [] w) as [-> _].
  destruct (retry_scripted_outcome _ (embed_outcomes svc s) w)
    as (k & Hk & -> & Hbefore & _).
  intros Hrun. exists s, (S k).
  replace (S k - 1) with k by lia.
  split; [reflexivity|]. split; [lia|].
  destruct (embed_outcomes svc s (calls w + k)) as [values|e];
    injection Hrun as <- <-; cbn [calls slept];
    (split; [lia|split; [reflexivity|split; [exact Hbefore|reflexivity]]]).
Qed.

Lemma embedded_requests : forall svc w texts vectors w',
  embedded_in_order svc w texts vectors w' ->
  requests_in_order svc w texts vectors w'.
Proof.
  induction 1 as [w|w t rest v vs w1 w2 Hitem _ IH]; [constructor|].
  econstructor; [|exact IH]. now apply item_outcome_requests.
Qed.

(** X7.  A batch of embeddings handles its texts in their order.  A
    text that is blank or no string is not sent; every other text is
    sent at least once and at most three times, in requests that follow
    one another, each but the last failed with a retryable error, and
    its vector is that of its last request, or the zero vector.  In all,
    the batch makes at least one and at most three requests for each
    text that is sent, and waits at most twice for each, one or two
    seconds at a time; a batch without such a text makes no request,
    waits for nothing and returns zero vectors only. *)
Theorem generateEmbeddings_request_budget : forall svc texts w,
  texts <> [] ->
  exists vectors w',
    generateEmbeddings svc (VArr texts) w = (Normal vectors, w')
    /\ requests_in_order svc w texts vectors w'
    /\ length (sent_texts texts) <= calls w' - calls w
    /\ calls w <= calls w' <= calls w + 3 * length (sent_texts texts)
    /\ (exists delays,
          slept w' = slept w ++ delays
          /\ length delays <= 2 * length (sent_texts texts)
          /\ Forall (fun d => d = 1000%Z \/ d = 2000%Z) delays)
    /\ (sent_texts texts = [] ->
          w' = w /\ vectors = repeat zero_vector (length texts)).
Proof.
  intros svc texts w Hne.
  destruct (embed_loop_run svc texts [] w) as (vs & w' & Hrun & _ & _ & Hord).
  exists vs, w'.
  destruct (embedded_in_order_budget svc w texts vs w' Hord)
    as (Hc & Hmin & Hw & Hnone).
  split; [|split; [now apply embedded_requests|]].
  - unfold generateEmbeddings, try_catch.
    destruct texts as [|t rest]; [congruence|].
    rewrite Hrun. reflexivity.
  - split; [exact Hmin|split; [exact Hc|split; [exact Hw|exact Hnone]]].
Qed.

Lemma generateEmbeddings_request_budget_witness :
  exists vectors w',
    generateEmbeddings overloaded_service
      (VArr [VStr (js "resume text"); VNull; VStr (js "   ")]) (mkWorld 0 [])
    = (Normal vectors, w')
    /\ requests_in_order overloaded_service (mkWorld 0 [])
         [VStr (js "resume text"); VNull; VStr (js "   ")] vectors w'
    /\ 1 <= calls w' - 0 /\ calls w' <= 3.
Proof.
  destruct (generateEmbeddings_request_budget overloaded_service
              [VStr (js "resume text"); VNull; VStr (js "   ")] (mkWorld 0 []))
    as (vectors & w' & Hrun & Hreq & Hmin & Hmax & _).
  - discriminate.
  - exists vectors, w'. split; [exact Hrun|]. split; [exact Hreq|].
    assert (E : length (sent_texts [VStr (js "resume text"); VNull; VStr (js "   ")]) = 1)
      by (vm_compute; reflexivity).
    rewrite E in Hmin, Hmax. cbn [calls] in Hmin, Hmax. lia.
Defined.

(* ================================================================== *)
(** * Decimal digits *)
(* ================================================================== *)

Lemma parse_digits_app : forall a b,
  parse_digits (a ++ b)
  = fold_left (fun acc c => 10 * acc + digit_value c)%Z b (parse_digits a).
Proof. intros a b. unfold parse_digits. apply fold_left_app. Qed.

Lemma digit_of_nat : forall d,
  d < 10 ->
  is_digit (ascii_of_nat (48 + d)) = true
  /\ digit_value (ascii_of_nat (48 + d)) = Z.of_nat d.
Proof.
  intros d Hd. unfold is_digit, digit_value.
  rewrite nat_ascii_embedding by lia.
  split.
  - apply andb_true_iff. split; apply Nat.leb_le; lia.
  - f_equal. lia.
Qed.

Lemma digits_of_spec : forall fuel n acc,
  n < fuel ->
  exists ds,
    digits_of fuel n acc = ds ++ acc
    /\ ds <> []
    /\ forallb is_digit ds = true
    /\ parse_digits ds = Z.of_nat n.
Proof.
  induction fuel as [|f IH]; intros n acc Hn; [lia|].
  cbn [digits_of].
  assert (Hmod : n mod 10 < 10) by (apply Nat.mod_upper_bound; lia).
  destruct (digit_of_nat (n mod 10) Hmod) as [Hd Hv].
  destruct (n <? 10) eqn:Hlt.
  - apply Nat.ltb_lt in Hlt. exists [ascii_of_nat (48 + n mod 10)].
    split; [reflexivity|]. split; [discriminate|].
    split; [cbn [forallb]; now rewrite Hd|].
    unfold parse_digits. cbn [fold_left]. rewrite Hv.
    rewrite Nat.mod_small by lia. lia.
  - apply Nat.ltb_ge in Hlt.
    assert (Hdiv : n / 10 < f).
    { assert (n / 10 < n) by (apply Nat.div_lt; lia). lia. }
    destruct (IH (n / 10) (ascii_of_nat (48 + n mod 10) :: acc) Hdiv)
      as (ds & Hds & Hne & Hall & Hval).
    exists (ds ++ [ascii_of_nat (48 + n mod 10)]).
    split; [rewrite Hds, <- app_assoc; reflexivity|].
    split; [destruct ds; discriminate|].
    split.
    + rewrite forallb_app, Hall. cbn [forallb andb]. now rewrite Hd.
    + rewrite parse_digits_app, Hval. cbn [fold_left]. rewrite Hv.
      rewrite (Nat.div_mod_eq n 10) at 3. lia.
Qed.

Lemma of_nat_digits : forall n,
  of_nat n <> []
  /\ forallb is_digit (of_nat n) = true
  /\ parse_digits (of_nat n) = Z.of_nat n.
Proof.
  intros n. unfold of_nat.
  destruct (digits_of_spec (S n) n []) as (ds & Hds & Hne & Hall & Hval); [lia|].
  rewrite Hds, app_nil_r. auto.
Qed.


(* ================================================================== *)
(** * Prefixes taken and dropped *)
(* ================================================================== *)

Lemma take_drop_while : forall p s, take_while p s ++ drop_while p s = s.
Proof.
  intros p s. induction s as [|c r IH]; [reflexivity|].
  cbn. destruct (p c); [cbn; now rewrite IH|reflexivity].
Qed.

Lemma take_while_all : forall p s, forallb p (take_while p s) = true.
Proof.
  intros p s. induction s as [|c r IH]; [reflexivity|].
  cbn. destruct (p c) eqn:Hc; [cbn; now rewrite Hc|reflexivity].
Qed.

Lemma take_while_app_stop : forall p a c r,
  forallb p a = true -> p c = false ->
  take_while p (a ++ c :: r) = a /\ drop_while p (a ++ c :: r) = c :: r.
Proof.
  intros p a c r Ha Hc. induction a as [|x a IH].
  - cbn. now rewrite Hc.
  - cbn in Ha. apply andb_true_iff in Ha as [Hx Ha].
    cbn. rewrite Hx. destruct (IH Ha) as [-> ->]. split; reflexivity.
Qed.

Lemma take_while_whole : forall p a,
  forallb p a = true -> take_while p a = a /\ drop_while p a = [].
Proof.
  intros p a Ha. induction a as [|x a IH]; [split; reflexivity|].
  cbn in Ha. apply andb_true_iff in Ha as [Hx Ha].
  cbn. rewrite Hx. destruct (IH Ha) as [-> ->]. split; reflexivity.
Qed.

Lemma drop_while_head : forall p s c r,
  drop_while p s = c :: r -> p c = false.
Proof.
  intros p s c r. induction s as [|x s IH]; [discriminate|].
  cbn. destruct (p x) eqn:Hx; [exact IH|].
  intros [= <- _]. exact Hx.
Qed.





(** A string that is its own trimming starts and ends with a character
    that is no white space. *)
Lemma trimmed_head : forall c r,
  trim (c :: r) = c :: r -> is_space c = false.
Proof.
  intros c r H. rewrite trim_drop_trailing in H.
  destruct (is_space c) eqn:Hc; [|reflexivity].
  exfalso. cbn [drop_while] in H. rewrite Hc in H.
  assert (L : forall s, length (drop_trailing s) <= length s).
  { induction s as [|x s IH]; [cbn; lia|].
    cbn. destruct (drop_trailing s); [destruct (is_space x)|]; cbn in *; lia. }
  assert (D : forall s, length (drop_while is_space s) <= length s).
  { induction s as [|x s IH]; [cbn; lia|].
    cbn. destruct (is_space x); cbn; lia. }
  pose proof (L (drop_while is_space r)) as H1.
  pose proof (D r) as H2.
  rewrite H in H1. cbn in H1. lia.
Qed.



Lemma trimmed_drop_while : forall s, trim s = s -> drop_while is_space s = s.
Proof.
  intros [|c r] H; [reflexivity|].
  cbn. now rewrite (trimmed_head c r H).
Qed.

Lemma line_terminator_space : forall c,
  ChatController.is_line_terminator c = true -> is_space c = true.
Proof.
  intros c. unfold ChatController.is_line_terminator, is_space.
  intros H. apply orb_true_iff in H as [H|H]; apply Nat.eqb_eq in H;
    rewrite H; reflexivity.
Qed.

Lemma digit_not_space : forall c, is_digit c = true -> is_space c = false.
Proof.
  intros c. unfold is_digit, is_space. intros H.
  apply andb_true_iff in H as [H1 H2].
  apply Nat.leb_le in H1. apply Nat.leb_le in H2.
  repeat (apply orb_false_iff; split).
  - apply andb_false_iff. right. apply Nat.leb_gt. lia.
  - apply Nat.eqb_neq. lia.
  - apply Nat.eqb_neq. lia.
Qed.

(* ================================================================== *)
(** * Splitting and joining at one character *)
(* ================================================================== *)




(* ================================================================== *)
(** * parseQuestions *)
(* ================================================================== *)

Lemma dot_plus_head : forall c r,
  ChatController.is_line_terminator c = false ->
  exists g,
    ChatController.dot_plus (c :: r) = Some (c :: g)
    /\ Forall (fun x => ChatController.is_line_terminator x = false) (c :: g)
    /\ exists rest, r = g ++ rest.
Proof.
  intros c r Hc. unfold ChatController.dot_plus. cbn [take_while].
  rewrite Hc. cbn [negb].
  exists (take_while (fun x => negb (ChatController.is_line_terminator x)) r).
  split; [reflexivity|]. split.
  - constructor; [exact Hc|].
    pose proof (take_while_all
                  (fun x => negb (ChatController.is_line_terminator x)) r) as H.
    rewrite forallb_forall in H. apply Forall_forall. intros x Hx.
    specialize (H x Hx). now apply negb_true_iff in H.
  - exists (drop_while (fun x => negb (ChatController.is_line_terminator x)) r).
    symmetry. apply take_drop_while.
Qed.

Lemma not_space_not_terminator : forall c,
  is_space c = false -> ChatController.is_line_terminator c = false.
Proof.
  intros c Hc. destruct (ChatController.is_line_terminator c) eqn:H;
    [|reflexivity].
  apply line_terminator_space in H. congruence.
Qed.

(** On a text that does not end with white space, [\s*(.+)] takes all
    the white space at the start and captures from the first other
    character on. *)
Lemma spaces_then_text_clean : forall r,
  r <> [] -> ends_clean r = true ->
  exists ws c g rest,
    r = ws ++ (c :: g) ++ rest
    /\ forallb is_space ws = true
    /\ is_space c = false
    /\ ChatController.spaces_then_text r = Some (c :: g)
    /\ Forall (fun x => ChatController.is_line_terminator x = false) (c :: g).
Proof.
  induction r as [|c r IH]; intros Hne Hclean; [congruence|].
  cbn [ChatController.spaces_then_text].
  destruct (is_space c) eqn:Hc.
  - destruct r as [|c' r'].
    { cbn in Hclean. rewrite Hc in Hclean. discriminate. }
    destruct IH as (ws & x & g & rest & Hr & Hws & Hx & Hrun & Hall);
      [discriminate | exact Hclean |].
    exists (c :: ws), x, g, rest. rewrite Hrun.
    split; [cbn; now rewrite Hr|].
    split; [cbn; now rewrite Hc|]. auto.
  - destruct (dot_plus_head c r (not_space_not_terminator c Hc))
      as (g & Hg & Hall & rest & Hrest).
    exists [], c, g, rest. rewrite Hg.
    split; [cbn; now rewrite Hrest|]. auto.
Qed.

Lemma drop_trailing_split : forall s,
  exists sp, s = drop_trailing s ++ sp /\ forallb is_space sp = true.
Proof.
  induction s as [|c r (sp & Hsp & Hall)]; [exists []; split; reflexivity|].
  cbn [drop_trailing]. destruct (drop_trailing r) as [|c' r'] eqn:E.
  - destruct (is_space c) eqn:Hc.
    + exists (c :: sp). cbn in Hsp. subst r. split; [reflexivity|].
      cbn. now rewrite Hc.
    + exists sp. cbn in Hsp. subst r. split; [reflexivity|exact Hall].
  - exists sp. split; [|exact Hall]. rewrite Hsp at 1. reflexivity.
Qed.

Lemma trim_text_found : forall c g,
  is_space c = false ->
  trim (c :: g) <> []
  /\ exists sp, c :: g = trim (c :: g) ++ sp /\ forallb is_space sp = true.
Proof.
  intros c g Hc. rewrite trim_drop_trailing. cbn [drop_while]. rewrite Hc.
  split.
  - intros E. apply drop_trailing_nil in E. cbn in E. now rewrite Hc in E.
  - apply drop_trailing_split.
Qed.









(* ================================================================== *)
(** * parseAnswers *)
(* ================================================================== *)


Lemma split_answers_length : forall s skip line_start cur,
  1 <= length (ChatController.split_answers skip line_start cur s).
Proof.
  induction s as [|c r IH]; intros skip line_start cur; [cbn; lia|].
  cbn [ChatController.split_answers]. destruct skip as [|k]; [|apply IH].
  destruct (if line_start then ChatController.answer_header_at (c :: r)
            else None); [cbn; lia|apply IH].
Qed.

Lemma potentialAnswers_nonempty : forall s piece,
  In piece (ChatController.potentialAnswers s) -> piece <> [].
Proof.
  intros s piece H. apply filter_In in H as [_ H].
  destruct piece; [discriminate|discriminate].
Qed.

Lemma answers_from_length : forall texts i,
  length (answers_from i texts) = length texts.
Proof.
  induction texts as [|t rest IH]; intros i; [reflexivity|].
  cbn. now rewrite IH.
Qed.

Lemma answers_from_nth : forall texts i0 i a,
  nth_error (answers_from i0 texts) i = Some a ->
  ChatController.answer_number a = i0 + i + 1
  /\ exists t, nth_error texts i = Some t
               /\ ChatController.answer_text a = trim t.
Proof.
  induction texts as [|t rest IH]; intros i0 i a H.
  - destruct i; discriminate.
  - destruct i as [|i]; cbn in H.
    + injection H as <-. cbn. split; [lia|]. exists t. auto.
    + destruct (IH (S i0) i a H) as [Hn Ht]. split; [lia|exact Ht].
Qed.

Lemma answers_loop : forall pieces pre k,
  Forall (fun piece => piece <> []) pieces ->
  k <= length pieces ->
  flat_map (ChatController.answer_at (pre ++ pieces)) (seq (length pre) k)
  = answers_from (length pre) (firstn k pieces).
Proof.
  induction pieces as [|p rest IH]; intros pre k Hne Hk.
  - cbn in Hk. assert (k = 0) by lia. subst k. reflexivity.
  - destruct k as [|k]; [reflexivity|].
    cbn [seq flat_map firstn answers_from].
    unfold ChatController.answer_at at 1.
    rewrite nth_error_app2 by lia. rewrite Nat.sub_diag. cbn [nth_error].
    inversion Hne as [|? ? Hp Hrest]; subst.
    destruct p as [|c p']; [congruence|]. cbn [length Nat.eqb negb app].
    f_equal.
    specialize (IH (pre ++ [c :: p']) k Hrest).
    rewrite <- app_assoc, length_app in IH. cbn [length app] in IH.
    replace (length pre + 1) with (S (length pre)) in IH by lia.
    apply IH. cbn in Hk. lia.
Qed.

Lemma parseAnswers_pieces : forall s expectedCount,
  ChatController.parseAnswers (VStr s) expectedCount
  = if negb (length s =? 0)
       && (expectedCount <=? length (ChatController.potentialAnswers s))
    then Some (answers_from 0
                 (firstn expectedCount (ChatController.potentialAnswers s)))
    else None.
Proof.
  intros s k. unfold ChatController.parseAnswers.
  destruct (length s =? 0); [reflexivity|]. cbn [negb andb].
  destruct (k <=? length (ChatController.potentialAnswers s)) eqn:Hk;
    [|reflexivity].
  apply Nat.leb_le in Hk.
  assert (Hall : Forall (fun piece => piece <> [])
                    (ChatController.potentialAnswers s)).
  { apply Forall_forall. intros p Hp.
    now apply potentialAnswers_nonempty with (s := s). }
  pose proof (answers_loop (ChatController.potentialAnswers s) [] k Hall Hk)
    as Hloop.
  cbn [app length] in Hloop. rewrite Hloop.
  rewrite answers_from_length, length_firstn, Nat.min_l by exact Hk.
  now rewrite Nat.eqb_refl.
Qed.

(** X10.  [parseAnswers] numbers the answers by their position, not by
    the numbers that were typed: it returns [null] exactly when the text
    is no string, is empty, or splits into fewer pieces than expected;
    else exactly [expectedCount] answers, the [i]-th with the number
    [i + 1] and the trimmed [i]-th piece as its text, the pieces beyond
    being dropped.  The check of the count after the loop never
    fails. *)
Theorem parseAnswers_by_position : forall text expectedCount,
  (forall answers,
     ChatController.parseAnswers text expectedCount = Some answers ->
     length answers = expectedCount
     /\ forall i a, nth_error answers i = Some a ->
          ChatController.answer_number a = i + 1
          /\ trim (ChatController.answer_text a) = ChatController.answer_text a
          /\ exists s piece,
               text = VStr s
               /\ nth_error (ChatController.potentialAnswers s) i = Some piece
               /\ piece <> []
               /\ ChatController.answer_text a = trim piece)
  /\ (ChatController.parseAnswers text expectedCount = None <->
        match text with
        | VStr s =>
            s = [] \/ length (ChatController.potentialAnswers s) < expectedCount
        | _ => True
        end).
Proof.
  intros text k. destruct text as [| |b|x|s|elems|props];
    try (split; [intros answers H; discriminate|split; auto]).
  rewrite parseAnswers_pieces. split.
  - intros answers H.
    destruct (negb (length s =? 0)
              && (k <=? length (ChatController.potentialAnswers s))) eqn:Hc;
      [|discriminate].
    apply andb_true_iff in Hc as [_ Hk]. apply Nat.leb_le in Hk.
    injection H as <-. split.
    + now rewrite answers_from_length, length_firstn, Nat.min_l.
    + intros i a Ha.
      apply answers_from_nth in Ha as (Hn & t & Ht & Htext).
      split; [exact Hn|]. split; [rewrite Htext; apply trim_idempotent|].
      exists s, t.
      assert (Hi : i < k).
      { assert (Hb : nth_error (firstn k (ChatController.potentialAnswers s)) i
                     <> None) by congruence.
        apply nth_error_Some in Hb. rewrite length_firstn in Hb. lia. }
      rewrite nth_error_firstn in Ht.
      destruct (Nat.ltb_spec i k) as [_|Hge]; [|lia].
      repeat split; auto.
      apply nth_error_In in Ht.
      now apply potentialAnswers_nonempty with (s := s).
  - destruct s as [|c r].
    + cbn. split; auto.
    + cbn [length Nat.eqb negb andb].
      destruct (Nat.leb_spec k (length (ChatController.potentialAnswers (c :: r))))
        as [Hle|Hlt].
      * split; [discriminate|]. intros [H|H]; [discriminate|lia].
      * split; auto.
Qed.

(* ================================================================== *)
(** * From the answers the page sends to the answers the server reads *)
(* ================================================================== *)












(* ================================================================== *)
(** * The questions of the page and of the server *)
(* ================================================================== *)

Lemma drop_trailing_app_spaces : forall s sp,
  forallb is_space sp = true -> drop_trailing (s ++ sp) = drop_trailing s.
Proof.
  intros s sp Hsp. induction s as [|c r IH].
  - cbn. now apply drop_trailing_nil.
  - cbn [app drop_trailing]. now rewrite IH.
Qed.

Lemma trim_app_spaces : forall t sp,
  forallb is_space sp = true -> trim (t ++ sp) = trim t.
Proof.
  intros t sp Hsp. rewrite !trim_drop_trailing, drop_while_app.
  destruct (forallb is_space t) eqn:Ht.
  - rewrite (drop_while_all sp Hsp), (drop_while_all t Ht). reflexivity.
  - now apply drop_trailing_app_spaces.
Qed.

Lemma trim_spaces : forall sp, forallb is_space sp = true -> trim sp = [].
Proof.
  intros sp Hsp. rewrite trim_drop_trailing, (drop_while_all sp Hsp).
  reflexivity.
Qed.

Lemma take_while_app_spaces : forall p u sp,
  forallb is_space sp = true ->
  exists sp',
    take_while p (u ++ sp) = take_while p u ++ sp'
    /\ forallb is_space sp' = true.
Proof.
  intros p u sp Hsp. induction u as [|c u (sp' & Hu & Hsp')].
  - exists (take_while p sp). split; [reflexivity|].
    clear -Hsp. induction sp as [|x sp IH]; [reflexivity|].
    cbn in Hsp. apply andb_true_iff in Hsp as [Hx Hsp].
    cbn. destruct (p x); [cbn; now rewrite Hx, IH|reflexivity].
  - cbn [app take_while]. destruct (p c).
    + exists sp'. rewrite Hu. split; [reflexivity|exact Hsp'].
    + exists []. split; reflexivity.
Qed.

Lemma dot_plus_spaces : forall sp g,
  forallb is_space sp = true ->
  ChatController.dot_plus sp = Some g -> trim g = [].
Proof.
  intros sp g Hsp. unfold ChatController.dot_plus.
  destruct (take_while_app_spaces
              (fun c => negb (ChatController.is_line_terminator c)) [] sp Hsp)
    as (sp' & Hg & Hsp').
  cbn [app take_while] in Hg. rewrite Hg.
  destruct sp' as [|x sp'']; [discriminate|].
  intros [= <-]. now apply trim_spaces.
Qed.

Lemma spaces_then_text_spaces : forall sp g,
  forallb is_space sp = true ->
  ChatController.spaces_then_text sp = Some g -> trim g = [].
Proof.
  induction sp as [|c sp IH]; intros g Hsp; [discriminate|].
  cbn in Hsp. apply andb_true_iff in Hsp as [Hc Hsp'].
  cbn [ChatController.spaces_then_text]. rewrite Hc.
  destruct (ChatController.spaces_then_text sp) as [g0|] eqn:E.
  - intros [= <-]. now apply IH.
  - apply dot_plus_spaces. cbn. now rewrite Hc, Hsp'.
Qed.

Lemma spaces_then_text_app : forall r sp,
  r <> [] -> ends_clean r = true -> forallb is_space sp = true ->
  exists g g',
    ChatController.spaces_then_text r = Some g
    /\ ChatController.spaces_then_text (r ++ sp) = Some g'
    /\ trim g' = trim g.
Proof.
  induction r as [|c r IH]; intros sp Hne Hclean Hsp; [congruence|].
  cbn [app ChatController.spaces_then_text].
  destruct (is_space c) eqn:Hc.
  - destruct r as [|c' r'].
    { cbn in Hclean. rewrite Hc in Hclean. discriminate. }
    destruct (IH sp) as (g & g' & Hg & Hg' & Ht);
      [discriminate | exact Hclean | exact Hsp |].
    exists g, g'. now rewrite Hg, Hg'.
  - unfold ChatController.dot_plus.
    pose proof (not_space_not_terminator c Hc) as Hlt.
    change (c :: r ++ sp) with ((c :: r) ++ sp).
    destruct (take_while_app_spaces
                (fun x => negb (ChatController.is_line_terminator x))
                (c :: r) sp Hsp) as (sp' & Hu & Hsp').
    rewrite Hu. cbn [take_while]. rewrite Hlt. cbn [negb app].
    eexists. eexists. split; [reflexivity|]. split; [reflexivity|].
    change (c :: ?a ++ sp') with ((c :: a) ++ sp').
    now apply trim_app_spaces.
Qed.

Lemma question_of_line_flush : forall line,
  trim line <> [] -> drop_while is_space line = line ->
  filter has_text (ChatController.question_of_line line)
  = ChatController.question_of_line (trim line).
Proof.
  intros line Hnb Hflush.
  assert (Htrim : trim line = drop_trailing line)
    by (now rewrite trim_drop_trailing, Hflush).
  destruct (drop_trailing_split line) as (sp & Hline & Hsp).
  rewrite Htrim in *. set (l := drop_trailing line) in *.
  assert (Hclean : ends_clean l = true) by apply drop_trailing_ends_clean.
  rewrite Hline. clear Hline Htrim Hflush.
  unfold ChatController.question_of_line, ChatController.question_line.
  pose proof (take_drop_while is_digit l) as Hsplit.
  pose proof (take_while_all is_digit l) as Hdigits.
  destruct (drop_while is_digit l) as [|c r] eqn:Hdr.
  - rewrite app_nil_r in Hsplit. rewrite Hsplit in Hdigits.
    destruct (take_while_whole is_digit l Hdigits) as [El _]. rewrite El.
    destruct sp as [|x sp'].
    + rewrite app_nil_r, El.
      destruct (take_while_whole is_digit l Hdigits) as [_ ->].
      destruct l; reflexivity.
    + cbn in Hsp. apply andb_true_iff in Hsp as [Hx _].
      assert (Hxd : is_digit x = false).
      { destruct (is_digit x) eqn:E; [|reflexivity].
        apply digit_not_space in E. congruence. }
      destruct (take_while_app_stop is_digit l x sp' Hdigits Hxd) as [-> ->].
      assert (Hdot : Ascii.eqb x "." = false).
      { destruct (Ascii.eqb x ".") eqn:E; [|reflexivity].
        apply Ascii.eqb_eq in E. subst x. discriminate. }
      rewrite Hdot. destruct l; reflexivity.
  - pose proof (drop_while_head _ _ _ _ Hdr) as Hc.
    assert (Hl : l ++ sp = take_while is_digit l ++ c :: (r ++ sp)).
    { rewrite <- Hsplit at 1. now rewrite <- app_assoc. }
    rewrite Hl.
    destruct (take_while_app_stop is_digit (take_while is_digit l) c (r ++ sp)
                Hdigits Hc) as [-> ->].
    destruct (take_while is_digit l) as [|d ds] eqn:Hds; [reflexivity|].
    destruct (Ascii.eqb c "."); [|reflexivity].
    destruct r as [|x r'].
    + cbn [app ChatController.spaces_then_text].
      destruct (ChatController.spaces_then_text sp) as [g|] eqn:Hg;
        [|reflexivity].
      cbn [filter]. unfold has_text. cbn [ChatController.text].
      now rewrite (spaces_then_text_spaces sp g Hsp Hg).
    + assert (Hr : ends_clean (x :: r') = true).
      { rewrite <- Hsplit in Hclean.
        change ((d :: ds) ++ c :: x :: r')
          with ((d :: ds) ++ [c] ++ x :: r') in Hclean.
        rewrite app_assoc, ends_clean_app in Hclean by discriminate.
        exact Hclean. }
      destruct (spaces_then_text_app (x :: r') sp) as (g & g' & Hg & Hg' & Ht);
        [discriminate | exact Hr | exact Hsp |].
      rewrite Hg, Hg'. cbn [filter]. unfold has_text. cbn [ChatController.text].
      rewrite Ht.
      destruct (spaces_then_text_clean (x :: r')) as
        (ws & y & g0 & rest & _ & _ & Hy & Hrun & _);
        [discriminate | exact Hr |].
      rewrite Hg in Hrun. injection Hrun as ->.
      destruct (trim_text_found y g0 Hy) as [Hne _].
      destruct (trim (y :: g0)); [congruence|reflexivity].
Qed.

(** X12.  The page and the server read the same questions from a text
    in which no line starts with white space, but for this: a line that
    holds a number and a dot and then only white space is a question
    with an empty text for the page, and no question for the server.
    Such a text exists. *)
Theorem parseQuestions_page_and_server :
  (forall s,
     Forall flush_left (split_on newline s) ->
     filter has_text (ChatPage.parseQuestions s)
     = ChatController.parseQuestions (VStr s))
  /\ (exists s,
        Forall flush_left (split_on newline s)
        /\ length (ChatPage.parseQuestions s) = 2
        /\ length (ChatController.parseQuestions (VStr s)) = 1).
Proof.
  split.
  - intros s Hlines.
    unfold ChatPage.parseQuestions, ChatController.parseQuestions.
    destruct s as [|c0 s0] eqn:Es; [reflexivity|].
    cbn [length Nat.eqb]. rewrite <- Es in *. clear Es.
    induction Hlines as [|line rest Hline Hrest IH]; [reflexivity|].
    cbn [map filter].
    destruct (trim line) as [|x t] eqn:Ht.
    + cbn [length Nat.eqb negb]. exact IH.
    + cbn [length Nat.eqb negb flat_map].
      rewrite filter_app, IH. f_equal.
      rewrite <- Ht. apply question_of_line_flush.
      * rewrite Ht. discriminate.
      * destruct Hline as [H|H]; [congruence|exact H].
  - exists (js "1. What is a closure?
2. ").
    split; [|split; vm_compute; reflexivity].
    repeat constructor; right; vm_compute; reflexivity.
Qed.

(* ================================================================== *)
(** * The chunks of chunkText *)
(* ================================================================== *)

Lemma chunkText_kept_windows : forall text n,
  1 <= n ->
  PdfProcessor.chunkText text n
  = Some (map chunk_of
            (filter kept (windows n (PdfProcessor.words_of text)))).
Proof.
  intros text n Hn. unfold PdfProcessor.chunkText.
  rewrite chunk_loop_windows by lia. reflexivity.
Qed.

Lemma windows_fuel_length : forall A fuel n (l : list A) window,
  In window (windows_fuel fuel n l) -> length window <= n.
Proof.
  intros A fuel n l window Hin.
  apply In_nth_error in Hin as [i Hi].
  apply windows_fuel_nth in Hi as [-> _].
  rewrite length_firstn. lia.
Qed.

Lemma single_spaced_word_app : forall w rest prev,
  w <> [] -> Forall (fun c => is_space c = false) w ->
  single_spaced prev (w ++ rest) = single_spaced false rest.
Proof.
  intros w rest prev Hne H. revert prev.
  induction H as [|c r Hc Hr IH]; [congruence|]. intros prev.
  cbn [app]. rewrite single_spaced_cons, Hc.
  destruct r as [|c' r']; [reflexivity|]. apply IH. discriminate.
Qed.

Lemma join_words_single_spaced : forall ws,
  Forall is_word ws -> single_spaced true (join [space] ws) = true.
Proof.
  intros ws H.
  assert (G : forall prev, single_spaced prev (join [space] ws) = true).
  { induction H as [|w rest [Hne Hw] Hrest IH]; intros prev; [reflexivity|].
    destruct rest as [|w' rest'].
    - cbn [join]. rewrite <- (app_nil_r w).
      now rewrite single_spaced_word_app.
    - change (join [space] (w :: w' :: rest'))
        with (w ++ space :: join [space] (w' :: rest')).
      rewrite single_spaced_word_app by assumption.
      rewrite single_spaced_cons, is_space_space, Ascii.eqb_refl.
      cbn [negb andb]. apply IH. }
  apply G.
Qed.

(** X13.  Every chunk that [chunkText] returns is longer than 50
    characters, has no white space at either end, holds no white space
    but single spaces between its words, and has between 1 and
    [wordsPerChunk] words, each a word of the cleaned text. *)
Theorem chunkText_chunk_shape : forall text wordsPerChunk chunks chunk,
  1 <= wordsPerChunk ->
  PdfProcessor.chunkText text wordsPerChunk = Some chunks ->
  In chunk chunks ->
  50 < length chunk
  /\ trim chunk = chunk
  /\ single_spaced true chunk = true
  /\ 1 <= word_count chunk <= wordsPerChunk
  /\ Forall is_word (split_on space chunk)
  /\ incl (split_on space chunk) (PdfProcessor.words_of text).
Proof.
  intros text n chunks chunk Hn Hrun Hin.
  rewrite chunkText_kept_windows in Hrun by exact Hn.
  injection Hrun as <-.
  apply in_map_iff in Hin as (window & <- & Hw).
  apply filter_In in Hw as [Hw Hkept].
  assert (Hlen : length window <= n)
    by (eapply windows_fuel_length; exact Hw).
  assert (Hsub : incl window (PdfProcessor.words_of text)).
  { intros w Hwin. unfold windows in Hw.
    apply In_nth_error in Hw as [i Hi].
    apply windows_fuel_nth in Hi as [-> _].
    apply firstn_In in Hwin.
    clear -Hwin. revert Hwin.
    generalize (i * n). intros k.
    revert k. induction (PdfProcessor.words_of text) as [|x l IH];
      intros k H.
    - destruct k; destruct H.
    - destruct k as [|k]; [exact H|]. right. now apply (IH k). }
  destruct (windows_of_words text n window Hn Hw) as [Hne Hshape].
  unfold kept in Hkept. apply Nat.ltb_lt in Hkept.
  destruct Hshape as [->|Hwords].
  { cbn in Hkept. lia. }
  destruct (chunk_of_window window Hne (or_intror Hwords)) as [Hchunk Hcount].
  assert (Hsplit : split_on space (chunk_of window) = window).
  { rewrite Hchunk. apply split_join; [exact Hne|].
    eapply Forall_impl; [|exact Hwords]. intros w [_ H]. exact H. }
  split; [exact Hkept|]. split; [apply trim_idempotent|].
  split; [rewrite Hchunk; now apply join_words_single_spaced|].
  assert (Hpos : 1 <= length window)
    by (destruct window; [congruence|cbn [length]; lia]).
  split; [rewrite Hcount; split; [exact Hpos|exact Hlen]|].
  rewrite Hsplit. split; [exact Hwords|exact Hsub].
Qed.

Lemma chunkText_chunk_shape_witness :
  50 < length (js "The candidate has five years of experience with Node.js and React.").
Proof.
  destruct (chunkText_chunk_shape
              (js "  The candidate   has five years of experience
with Node.js and React.  ")
              500
              [js "The candidate has five years of experience with Node.js and React."]
              (js "The candidate has five years of experience with Node.js and React."))
    as [H _].
  - lia.
  - vm_compute. reflexivity.
  - now left.
  - exact H.
Defined.

Lemma join_app : forall sep (a b : list jstring),
  a <> [] -> b <> [] ->
  join sep (a ++ b) = join sep a ++ sep ++ join sep b.
Proof.
  intros sep a b Ha Hb. induction a as [|x a IH]; [congruence|].
  destruct a as [|y a'].
  - cbn [app]. destruct b as [|z b']; [congruence|]. reflexivity.
  - change (join sep ((x :: y :: a') ++ b))
      with (x ++ sep ++ join sep ((y :: a') ++ b)).
    rewrite IH by discriminate.
    change (join sep (x :: y :: a')) with (x ++ sep ++ join sep (y :: a')).
    now rewrite <- !app_assoc.
Qed.

Lemma join_concat : forall sep (ll : list (list jstring)),
  Forall (fun l => l <> []) ll ->
  join sep (map (join sep) ll) = join sep (concat ll).
Proof.
  intros sep ll H. induction H as [|l rest Hl Hrest IH]; [reflexivity|].
  destruct rest as [|l' rest'].
  - cbn. now rewrite app_nil_r.
  - change (join sep (map (join sep) (l :: l' :: rest')))
      with (join sep l ++ sep ++ join sep (map (join sep) (l' :: rest'))).
    rewrite IH.
    change (concat (l :: l' :: rest')) with (l ++ concat (l' :: rest')).
    rewrite (join_app sep l (concat (l' :: rest'))); [reflexivity|exact Hl|].
    inversion Hrest as [|? ? Hl' _]; subst.
    destruct l'; [congruence|discriminate].
Qed.

(** X14.  When no window of words is discarded, the chunks joined by
    single spaces are the cleaned text: nothing is lost and nothing is
    added. *)
Theorem chunkText_lossless : forall text wordsPerChunk chunks,
  1 <= wordsPerChunk ->
  PdfProcessor.chunkText text wordsPerChunk = Some chunks ->
  length chunks
  = length (windows wordsPerChunk (PdfProcessor.words_of text)) ->
  join [space] chunks = PdfProcessor.cleanText text.
Proof.
  intros text n chunks Hn Hrun Hall.
  rewrite chunkText_kept_windows in Hrun by exact Hn.
  injection Hrun as <-.
  set (wins := windows n (PdfProcessor.words_of text)) in *.
  rewrite length_map in Hall.
  assert (Hkept : filter kept wins = wins).
  { clear -Hall. induction wins as [|w ws IH]; [reflexivity|].
    cbn [filter] in *. destruct (kept w).
    - cbn in Hall. f_equal. apply IH. lia.
    - pose proof (filter_length_le kept ws). cbn in Hall. lia. }
  rewrite Hkept.
  assert (Hwin : forall w, In w wins ->
            w <> [] /\ chunk_of w = join [space] w).
  { intros w Hw.
    destruct (windows_of_words text n w Hn Hw) as [Hne Hshape].
    split; [exact Hne|]. apply (chunk_of_window w Hne Hshape). }
  replace (map chunk_of wins) with (map (join [space]) wins).
  2:{ apply map_ext_in. intros w Hw. symmetry. apply (Hwin w Hw). }
  rewrite join_concat.
  2:{ apply Forall_forall. intros w Hw. apply (Hwin w Hw). }
  subst wins. unfold windows. rewrite windows_fuel_concat by lia.
  unfold PdfProcessor.words_of. apply join_split_on.
Qed.

Lemma chunkText_lossless_witness :
  join [space]
    [js "The candidate has five years of experience with Node.js and React."]
  = PdfProcessor.cleanText (js "  The candidate   has five years of experience
with Node.js and React.  ").
Proof.
  apply (chunkText_lossless _ 500).
  - lia.
  - vm_compute. reflexivity.
  - vm_compute. reflexivity.
Defined.

(* ================================================================== *)
(** * The order of binary64 numbers is transitive *)
(* ================================================================== *)

Lemma descending_trans : forall a b c,
  descending a b -> descending b c -> descending a c.
Proof.
  unfold descending. intros a b c Hab Hbc. eapply leb_trans; eassumption.
Qed.

(* ================================================================== *)
(** * The best chunks *)
(* ================================================================== *)

Lemma StronglySorted_app_rel : forall A (R : A -> A -> Prop) a b,
  StronglySorted R (a ++ b) ->
  forall x y, In x a -> In y b -> R x y.
Proof.
  intros A R a b. induction a as [|h a IH]; intros H x y Hx Hy; [destruct Hx|].
  cbn in H. apply StronglySorted_inv in H as [Hs Hall].
  destruct Hx as [<-|Hx].
  - rewrite Forall_forall in Hall. apply Hall, in_or_app. now right.
  - now apply IH.
Qed.

Lemma sort_StronglySorted : forall l,
  Forall (fun e => PrimFloat.is_nan (similarity e) = false) l ->
  StronglySorted descending (sort by_similarity l).
Proof.
  intros l H. apply Sorted_StronglySorted; [|now apply sort_Sorted].
  intros a b c. apply descending_trans.
Qed.

Lemma insert_sorted_indices : forall x l i,
  In i (map index (insert_sorted by_similarity x l))
  <-> i = index x \/ In i (map index l).
Proof.
  intros x l i. rewrite !in_map_iff. split.
  - intros (e & <- & He). apply insert_sorted_In in He as [->|He]; [now left|].
    right. eauto.
  - intros [->|(e & <- & He)].
    + exists x. split; [reflexivity|]. apply insert_sorted_In. now left.
    + exists e. split; [reflexivity|]. apply insert_sorted_In. now right.
Qed.

Lemma insert_sorted_NoDup : forall x l,
  ~ In (index x) (map index l) -> NoDup (map index l) ->
  NoDup (map index (insert_sorted by_similarity x l)).
Proof.
  intros x l. induction l as [|y rest IH]; intros Hx Hl.
  - cbn. constructor; [intros []|constructor].
  - cbn [insert_sorted].
    destruct (0 <? by_similarity x y)%float.
    + cbn [map] in *. inversion Hl as [|? ? Hy Hrest]; subst.
      constructor.
      * rewrite insert_sorted_indices. intros [E|H]; [|auto].
        apply Hx. left. congruence.
      * apply IH; [|exact Hrest]. intros H. apply Hx. now right.
    + cbn [map]. constructor; [exact Hx|exact Hl].
Qed.

Lemma sort_NoDup : forall l,
  NoDup (map index l) -> NoDup (map index (sort by_similarity l)).
Proof.
  induction l as [|x l IH]; intros H; [constructor|].
  cbn [map] in H. inversion H as [|? ? Hx Hl]; subst.
  change (sort by_similarity (x :: l))
    with (insert_sorted by_similarity x (sort by_similarity l)).
  apply insert_sorted_NoDup; [|now apply IH].
  intros Hin. apply Hx. apply in_map_iff in Hin as (e & He & Hin).
  apply sort_In in Hin. apply in_map_iff. eauto.
Qed.

Lemma NoDup_first_n : forall A k (l : list A), NoDup l -> NoDup (firstn k l).
Proof.
  intros A k l H. revert k. induction H as [|x l Hx Hl IH]; intros k.
  - rewrite firstn_nil. constructor.
  - destruct k as [|k]; [constructor|]. cbn. constructor; [|apply IH].
    intros Hin. apply Hx. eapply firstn_In. exact Hin.
Qed.

Lemma score_chunk_scorable : forall q i c,
  score_chunk q i c
  = if has_embedding c
    then match cosineSimilarity q (get c "embedding") with
         | Normal r => Some {| index := i; chunk := c; similarity := r |}
         | Throw _ => None
         end
    else None.
Proof.
  intros q i c. unfold score_chunk, has_embedding.
  destruct c as [| |b|x|s|elems|props]; try reflexivity.
  destruct (get (VObj props) "embedding") as [| |b|x|s|elems|props'];
    reflexivity.
Qed.

(** The scored entries: one for each chunk that is given a similarity,
    in the order of the chunks, with the position of the chunk. *)
Lemma scored_entries : forall q cs i0,
  length (keep_scored (score_chunks q i0 cs)) = length (filter (scorable q) cs)
  /\ NoDup (map index (keep_scored (score_chunks q i0 cs)))
  /\ (forall i c, nth_error cs i = Some c -> scorable q c = true ->
        exists e,
          In e (keep_scored (score_chunks q i0 cs))
          /\ index e = i0 + i
          /\ cosineSimilarity q (get c "embedding") = Normal (similarity e)).
Proof.
  intros q cs. induction cs as [|c rest IH]; intros i0.
  - cbn. split; [reflexivity|]. split; [constructor|].
    intros i c H. destruct i; discriminate.
  - destruct (IH (S i0)) as (Hlen & Hnd & Hall).
    cbn [score_chunks keep_scored filter]. unfold scorable at 1.
    rewrite score_chunk_scorable.
    assert (Hrest : forall i x, nth_error rest i = Some x ->
              scorable q x = true ->
              exists e,
                In e (keep_scored (score_chunks q (S i0) rest))
                /\ index e = i0 + S i
                /\ cosineSimilarity q (get x "embedding") = Normal (similarity e)).
    { intros i x Hi Hx. destruct (Hall i x Hi Hx) as (e & He & Hidx & Hcos).
      exists e. repeat split; auto. lia. }
    assert (Hfresh : ~ In i0 (map index (keep_scored (score_chunks q (S i0) rest)))).
    { intros Hin. apply in_map_iff in Hin as (e & Hidx & He).
      apply keep_scored_In in He. lia. }
    destruct (has_embedding c) eqn:Hemb; cbn [andb].
    2:{ split; [exact Hlen|]. split; [exact Hnd|].
        intros i x Hi Hx. destruct i as [|i].
        - cbn in Hi. injection Hi as <-. unfold scorable in Hx.
          rewrite Hemb in Hx. discriminate.
        - destruct (Hrest i x Hi Hx) as (e & He & Hidx & Hcos). eauto. }
    destruct (cosineSimilarity q (get c "embedding")) as [r|err] eqn:Hcos.
    2:{ split; [exact Hlen|]. split; [exact Hnd|].
        intros i x Hi Hx. destruct i as [|i].
        - cbn in Hi. injection Hi as <-. unfold scorable in Hx.
          rewrite Hemb, Hcos in Hx. discriminate.
        - destruct (Hrest i x Hi Hx) as (e & He & Hidx & Hc). eauto. }
    cbn [similarity]. destruct (PrimFloat.is_nan r) eqn:Hnan; cbn [negb].
    + split; [exact Hlen|]. split; [exact Hnd|].
      intros i x Hi Hx. destruct i as [|i].
      * cbn in Hi. injection Hi as <-. unfold scorable in Hx.
        rewrite Hemb, Hcos, Hnan in Hx. discriminate.
      * destruct (Hrest i x Hi Hx) as (e & He & Hidx & Hc). eauto.
    + cbn [length map]. split; [now rewrite Hlen|]. split.
      * constructor; [exact Hfresh|exact Hnd].
      * intros i x Hi Hx. destruct i as [|i].
        -- cbn in Hi. injection Hi as <-.
           eexists. split; [now left|]. cbn. split; [lia|exact Hcos].
        -- destruct (Hrest i x Hi Hx) as (e & He & Hidx & Hc).
           exists e. split; [now right|]. auto.
Qed.

(** X15.  For a query that is an array and not empty,
    [findSimilarChunks] returns exactly [topK] entries, or one for each
    chunk that is given a similarity when these are fewer; no chunk is
    returned twice; and the entries are the best ones: a chunk that is
    given a similarity and is not returned has a similarity that is at
    most that of every entry returned. *)
Theorem findSimilarChunks_best : forall v vs chunks topK,
  let queryEmbedding := VArr (v :: vs) in
  let result := findSimilarChunks queryEmbedding (VArr chunks) topK in
  length result
  = Nat.min (effective_topK topK)
            (length (filter (scorable queryEmbedding) chunks))
  /\ NoDup (map index result)
  /\ (forall i c,
        nth_error chunks i = Some c -> scorable queryEmbedding c = true ->
        (exists e, In e result /\ index e = i)
        \/ (exists r,
              cosineSimilarity queryEmbedding (get c "embedding") = Normal r
              /\ forall e, In e result ->
                   (r <=? similarity e)%float = true)).
Proof.
  intros v vs chunks topK q result.
  destruct (scored_entries q chunks 0) as (Hlen & Hnd & Hall).
  set (scored := keep_scored (score_chunks q 0 chunks)) in *.
  assert (Hresult : result = firstn (effective_topK topK)
                               (sort by_similarity scored)).
  { subst result scored q. unfold findSimilarChunks.
    destruct chunks as [|c rest]; [|reflexivity].
    cbn. now rewrite firstn_nil. }
  assert (Hnan : Forall (fun e => PrimFloat.is_nan (similarity e) = false) scored).
  { apply Forall_forall. intros e He. subst scored.
    now apply keep_scored_In in He. }
  rewrite Hresult. split; [|split].
  - rewrite length_firstn, sort_length, Hlen. reflexivity.
  - rewrite <- firstn_map. apply NoDup_first_n, sort_NoDup, Hnd.
  - intros i c Hi Hc. destruct (Hall i c Hi Hc) as (e0 & He0 & Hidx & Hcos).
    cbn [Nat.add] in Hidx.
    assert (Hin : In e0 (sort by_similarity scored)) by (now apply sort_In).
    rewrite <- (firstn_skipn (effective_topK topK) (sort by_similarity scored))
      in Hin.
    apply in_app_or in Hin as [Hin|Hin]; [left; eauto|].
    right. exists (similarity e0). split; [exact Hcos|].
    intros e He.
    pose proof (sort_StronglySorted scored Hnan) as Hsorted.
    rewrite <- (firstn_skipn (effective_topK topK) (sort by_similarity scored))
      in Hsorted.
    apply (StronglySorted_app_rel _ _ _ _ Hsorted e e0 He Hin).
Qed.

(* ================================================================== *)
(** * Ties *)
(* ================================================================== *)

Lemma sub_self_not_positive : forall x : float, (0 <? x - x)%float = false.
Proof.
  intros x. destruct (0 <? x - x)%float eqn:E; [|reflexivity].
  pose proof (sub_asym _ _ E). congruence.
Qed.

Lemma insert_sorted_ties : forall x l,
  Forall (fun z => index x < index z) l ->
  StronglySorted ties_in_order l ->
  StronglySorted ties_in_order (insert_sorted by_similarity x l).
Proof.
  intros x l. induction l as [|y rest IH]; intros Hx Hl.
  - cbn. constructor; constructor.
  - cbn [insert_sorted].
    apply StronglySorted_inv in Hl as [Hrest Hy].
    inversion Hx as [|? ? Hxy Hxrest]; subst.
    destruct (0 <? by_similarity x y)%float eqn:E.
    + constructor; [now apply IH|].
      apply Forall_forall. intros z Hz.
      apply insert_sorted_In in Hz as [->|Hz].
      * intros Heq. unfold by_similarity in E. rewrite Heq in E.
        rewrite sub_self_not_positive in E. discriminate.
      * rewrite Forall_forall in Hy. now apply Hy.
    + constructor; [constructor; assumption|].
      apply Forall_forall. intros z Hz _.
      rewrite Forall_forall in Hx. now apply Hx.
Qed.

Lemma scored_entries_increasing : forall q cs i0,
  StronglySorted (fun a b => index a < index b)
    (keep_scored (score_chunks q i0 cs)).
Proof.
  intros q cs. induction cs as [|c rest IH]; intros i0; [constructor|].
  cbn [score_chunks keep_scored].
  destruct (score_chunk q i0 c) as [item|] eqn:S; [|apply IH].
  destruct (PrimFloat.is_nan (similarity item)); [apply IH|].
  constructor; [apply IH|].
  apply Forall_forall. intros e He. apply keep_scored_In in He.
  destruct (score_chunk_some _ _ _ _ S) as [-> _]. lia.
Qed.

Lemma sort_ties : forall l,
  StronglySorted (fun a b => index a < index b) l ->
  StronglySorted ties_in_order (sort by_similarity l).
Proof.
  induction l as [|x l IH]; intros H; [constructor|].
  apply StronglySorted_inv in H as [Hl Hx].
  change (sort by_similarity (x :: l))
    with (insert_sorted by_similarity x (sort by_similarity l)).
  apply insert_sorted_ties; [|now apply IH].
  apply Forall_forall. intros z Hz. apply sort_In in Hz.
  rewrite Forall_forall in Hx. now apply Hx.
Qed.

Lemma firstn_StronglySorted : forall A (R : A -> A -> Prop) k l,
  StronglySorted R l -> StronglySorted R (firstn k l).
Proof.
  intros A R k l H. revert k. induction H as [|x l Hl IH Hx]; intros k.
  - rewrite firstn_nil. constructor.
  - destruct k as [|k]; [constructor|]. cbn. constructor; [apply IH|].
    apply Forall_forall. intros z Hz. apply firstn_In in Hz.
    rewrite Forall_forall in Hx. now apply Hx.
Qed.

(** X16.  The sort of [findSimilarChunks] is stable: of two entries
    returned with the same similarity, the one that stands first is the
    chunk that comes first in the document. *)
Theorem findSimilarChunks_ties : forall queryEmbedding chunks topK,
  StronglySorted ties_in_order
    (findSimilarChunks queryEmbedding (VArr chunks) topK).
Proof.
  intros q cs topK. unfold findSimilarChunks.
  destruct q as [| |b|x|s|[|v elems]|props]; try constructor.
  destruct cs as [|c rest]; [constructor|].
  apply firstn_StronglySorted, sort_ties, scored_entries_increasing.
Qed.

(* ================================================================== *)
(** * The chunks of an uploaded document *)
(* ================================================================== *)

Lemma chunks_from_combine : forall textChunks pre embeddings,
  length embeddings = length textChunks ->
  DocumentUpload.chunks_from (length pre) textChunks (pre ++ embeddings)
  = map (fun p => DocumentUpload.chunk_record (fst p) (Some (snd p)))
        (combine textChunks embeddings).
Proof.
  induction textChunks as [|t rest IH]; intros pre embeddings Hlen;
    [reflexivity|].
  destruct embeddings as [|e es]; [discriminate|].
  cbn [DocumentUpload.chunks_from combine map fst snd].
  rewrite nth_error_app2 by lia. rewrite Nat.sub_diag. cbn [nth_error].
  f_equal.
  specialize (IH (pre ++ [e]) es).
  rewrite <- app_assoc, length_app in IH. cbn [length app] in IH.
  replace (length pre + 1) with (S (length pre)) in IH by lia.
  apply IH. cbn in Hlen. lia.
Qed.

Lemma process_text_outcome_run : forall svc extractedText w,
  exists result w',
    DocumentUpload.process_text svc extractedText w
    = (Normal (Some result), w')
    /\ match result with
       | DocumentUpload.Answered status message =>
           status = 400%Z /\ w' = w
           /\ DocumentController.chunking_step extractedText
              = Some (DocumentController.Respond 400 message)
       | DocumentUpload.Created chunks =>
           exists textChunks embeddings,
             PdfProcessor.chunkText extractedText 500 = Some textChunks
             /\ textChunks <> []
             /\ length embeddings = length textChunks
             /\ Forall (fun e => length e = 768) embeddings
             /\ embedded_in_order svc w (map VStr textChunks) embeddings w'
             /\ chunks
                = map (fun p => DocumentUpload.chunk_record (fst p) (Some (snd p)))
                      (combine textChunks embeddings)
       end.
Proof.
  intros svc extractedText w.
  unfold DocumentUpload.process_text, try_catch.
  unfold DocumentController.chunking_step.
  destruct ((length extractedText =? 0) || (length (trim extractedText) <? 50)).
  { eexists. eexists. split; [reflexivity|]. cbn. auto. }
  destruct (chunkText_returns extractedText 500) as [textChunks Hchunks]; [lia|].
  rewrite Hchunks.
  destruct textChunks as [|t rest] eqn:Et.
  { eexists. eexists. split; [reflexivity|]. cbn. auto. }
  rewrite <- Et in *.
  assert (Hne : textChunks <> []) by (subst; discriminate).
  replace (length textChunks =? 0) with false
    by (subst textChunks; reflexivity).
  destruct (embed_loop_run svc (map VStr textChunks) [] w)
    as (vs & w' & Hrun & Hlen & Hdim & Hord).
  unfold bind, generateEmbeddings, try_catch.
  assert (Hmap : exists x xs, map VStr textChunks = x :: xs)
    by (subst textChunks; cbn; eauto).
  destruct Hmap as (x & xs & Hmap). rewrite Hmap. rewrite <- Hmap.
  rewrite Hrun. cbn [app]. rewrite length_map in Hlen.
  rewrite Hlen, Nat.eqb_refl. cbn [negb].
  assert (Hex : existsb (fun e : list value => length e =? 0) vs = false).
  { clear -Hdim. induction Hdim as [|e es He Hes IH]; [reflexivity|].
    cbn. rewrite He, IH. reflexivity. }
  rewrite Hex.
  eexists. eexists. split; [reflexivity|].
  exists textChunks, vs. repeat split; auto.
  unfold DocumentUpload.chunksWithEmbeddings.
  apply (chunks_from_combine textChunks [] vs Hlen).
Qed.

Lemma chunk_not_blank : forall text n chunks chunk,
  1 <= n -> PdfProcessor.chunkText text n = Some chunks -> In chunk chunks ->
  blank_text (VStr chunk) = false.
Proof.
  intros text n chunks chunk Hn Hrun Hin.
  rewrite chunkText_kept_windows in Hrun by exact Hn.
  injection Hrun as <-.
  apply in_map_iff in Hin as (window & <- & Hw).
  apply filter_In in Hw as [_ Hkept].
  unfold kept in Hkept. apply Nat.ltb_lt in Hkept.
  rewrite blank_text_string. unfold chunk_of at 2.
  rewrite trim_idempotent. fold (chunk_of window).
  apply orb_false_iff. split; apply Nat.eqb_neq; lia.
Qed.

(** The chunking, the embeddings and the records are the same in
    [uploadDocument] and in [process_text]; [uploadDocument] goes on
    with [Document.create]. *)
Lemma uploadDocument_process : forall svc create extractedText w,
  DocumentUpload.uploadDocument svc create extractedText w
  = match DocumentUpload.process_text svc extractedText w with
    | (Normal None, w') => (Normal None, w')
    | (Normal (Some (DocumentUpload.Answered status message)), w') =>
        (Normal (Some (status, message)), w')
    | (Normal (Some (DocumentUpload.Created chunks)), w') =>
        match create chunks with
        | None =>
            (Normal (Some (201%Z,
                           js "Document uploaded and processed successfully")),
             w')
        | Some error => DocumentUpload.upload_failure error w'
        end
    | (Throw e, w') => (Throw e, w')
    end.
Proof.
  intros svc create extractedText w.
  unfold DocumentUpload.uploadDocument, DocumentUpload.process_text, try_catch.
  destruct (DocumentController.chunking_step extractedText)
    as [[status message|textChunks]|]; try reflexivity.
  unfold bind.
  destruct (generateEmbeddings svc (VArr (map VStr textChunks)) w)
    as [[embeddings|e] w1].
  - destruct (negb (length embeddings =? length textChunks)); [reflexivity|].
    destruct (existsb (fun e : list value => length e =? 0) embeddings);
      [reflexivity|].
    cbn [ret].
    destruct (create (DocumentUpload.chunksWithEmbeddings textChunks embeddings));
      reflexivity.
  - unfold DocumentUpload.upload_failure. destruct (err_message e); reflexivity.
Qed.

(** X17.  Once the text of the PDF is extracted, [uploadDocument]
    answers 400, with no request made, when the text is too short or
    gives no chunk.  Otherwise no chunk is blank, every chunk is sent
    to the embedding service, one after the other, at least once and at
    most three times, and [Document.create] is given one record for
    each chunk of [chunkText], in their order, each with its text and an
    embedding of 768 elements.  The answer is 201 when the document is
    stored; it is 500 only when [Document.create] throws, with the
    message chosen after the message of the error, and the handler
    throws itself when that error has no message. *)
Theorem uploadDocument_outcome : forall svc create extractedText w,
  exists outcome w',
    DocumentUpload.uploadDocument svc create extractedText w = (outcome, w')
    /\ ((exists message,
           outcome = Normal (Some (400%Z, message)) /\ w' = w
           /\ DocumentController.chunking_step extractedText
              = Some (DocumentController.Respond 400 message))
        \/ (exists textChunks embeddings,
              PdfProcessor.chunkText extractedText 500 = Some textChunks
              /\ textChunks <> []
              /\ Forall (fun t => blank_text (VStr t) = false) textChunks
              /\ requests_in_order svc w (map VStr textChunks) embeddings w'
              /\ length embeddings = length textChunks
              /\ Forall (fun e => length e = 768) embeddings
              /\ calls w + length textChunks <= calls w'
                 <= calls w + 3 * length textChunks
              /\ outcome
                 = match create
                           (map (fun p => DocumentUpload.chunk_record
                                            (fst p) (Some (snd p)))
                                (combine textChunks embeddings)) with
                   | None =>
                       Normal (Some (201%Z,
                                     js "Document uploaded and processed successfully"))
                   | Some error =>
                       match err_message error with
                       | Some m =>
                           Normal (Some (500%Z, DocumentUpload.failure_message m))
                       | None =>
                           Throw (Error (js "Cannot read properties of undefined (reading 'includes')"))
                       end
                   end)).
Proof.
  intros svc create extractedText w.
  rewrite uploadDocument_process.
  destruct (process_text_outcome_run svc extractedText w)
    as (result & w' & -> & Hshape).
  destruct result as [status message|chunks].
  - destruct Hshape as (-> & -> & Hstep).
    eexists. eexists. split; [reflexivity|]. left. eauto.
  - destruct Hshape
      as (textChunks & embeddings & Hc & Hne & Hlen & Hdim & Hord & ->).
    assert (Hblank : Forall (fun t => blank_text (VStr t) = false) textChunks).
    { apply Forall_forall. intros t Ht.
      apply (chunk_not_blank extractedText 500 textChunks t); [lia|assumption..]. }
    assert (Hsent : sent_texts (map VStr textChunks) = map VStr textChunks).
    { unfold sent_texts. apply forallb_filter_id. apply forallb_forall.
      intros v Hv. apply in_map_iff in Hv as (t & <- & Ht).
      rewrite Forall_forall in Hblank. now rewrite (Hblank t Ht). }
    destruct (embedded_in_order_budget _ _ _ _ _ Hord) as ((Hlo & Hhi) & Hmin & _).
    rewrite Hsent, length_map in Hmin, Hhi.
    assert (Hfacts : forall outcome,
              outcome
              = match create
                        (map (fun p => DocumentUpload.chunk_record
                                         (fst p) (Some (snd p)))
                             (combine textChunks embeddings)) with
                | None =>
                    Normal (Some (201%Z,
                                  js "Document uploaded and processed successfully"))
                | Some error =>
                    match err_message error with
                    | Some m =>
                        Normal (Some (500%Z, DocumentUpload.failure_message m))
                    | None =>
                        Throw (Error (js "Cannot read properties of undefined (reading 'includes')"))
                    end
                end ->
              exists textChunks0 embeddings0,
                PdfProcessor.chunkText extractedText 500 = Some textChunks0
                /\ textChunks0 <> []
                /\ Forall (fun t => blank_text (VStr t) = false) textChunks0
                /\ requests_in_order svc w (map VStr textChunks0) embeddings0 w'
                /\ length embeddings0 = length textChunks0
                /\ Forall (fun e => length e = 768) embeddings0
                /\ calls w + length textChunks0 <= calls w'
                   <= calls w + 3 * length textChunks0
                /\ outcome
                   = match create
                             (map (fun p => DocumentUpload.chunk_record
                                              (fst p) (Some (snd p)))
                                  (combine textChunks0 embeddings0)) with
                     | None =>
                         Normal (Some (201%Z,
                                       js "Document uploaded and processed successfully"))
                     | Some error =>
                         match err_message error with
                         | Some m =>
                             Normal (Some (500%Z, DocumentUpload.failure_message m))
                         | None =>
                             Throw (Error (js "Cannot read properties of undefined (reading 'includes')"))
                         end
                     end).
    { intros outcome Hout. exists textChunks, embeddings.
      split; [exact Hc|]. split; [exact Hne|]. split; [exact Hblank|].
      split; [now apply embedded_requests|]. split; [exact Hlen|].
      split; [exact Hdim|]. split; [lia|exact Hout]. }
    destruct (create _) as [error|] eqn:Ecreate.
    + unfold DocumentUpload.upload_failure.
      destruct (err_message error) as [m|] eqn:Em;
        (eexists; eexists; split; [reflexivity|]; right;
         apply Hfacts; reflexivity).
    + eexists. eexists. split; [reflexivity|]. right.
      apply Hfacts. reflexivity.
Qed.

Lemma zero_vector_numbers : zero_vector = map VNum (repeat 0%float 768).
Proof. unfold zero_vector, embeddingDimension. now rewrite map_repeat. Qed.

Lemma cosineSimilarity_zero_vector : forall xs,
  length xs = 768 ->
  cosineSimilarity (vector xs) (VArr zero_vector) = Normal 0%float.
Proof.
  intros xs Hlen. rewrite zero_vector_numbers.
  change (VArr (map VNum (repeat 0%float 768)))
    with (vector (repeat 0%float 768)).
  rewrite cosineSimilarity_numbers.
  - rewrite (sum_squares_zeros (repeat 0%float 768)).
    + change (PrimFloat.sqrt 0 =? 0)%float with true.
      now rewrite orb_true_r.
    + apply Forall_forall. intros z Hz. apply repeat_spec in Hz. now subst z.
  - intros E. rewrite E in Hlen. discriminate.
  - now rewrite repeat_length.
Qed.

Lemma unavailable_item : forall svc t w,
  unavailable svc -> fst (item_outcome svc t w) = zero_vector.
Proof.
  intros svc t w Hdown. unfold item_outcome.
  destruct t as [| |b|x|s|elems|props]; try reflexivity.
  destruct ((length s =? 0) || (length (trim s) =? 0)); [reflexivity|].
  destruct (retry_of_attempts svc s [] w) as [-> _].
  destruct (retry_scripted_outcome _ (embed_outcomes svc s) w)
    as (k & _ & -> & _ & _).
  unfold embed_outcomes, embed_attempt. cbn [calls].
  destruct (Hdown (calls w + k) s) as [e ->]. reflexivity.
Qed.

Lemma unavailable_batch : forall svc w texts vectors w',
  unavailable svc ->
  embedded_in_order svc w texts vectors w' ->
  vectors = repeat zero_vector (length texts).
Proof.
  intros svc w texts vectors w' Hdown H.
  induction H as [w|w t rest v vs w1 w2 Hitem _ IH]; [reflexivity|].
  cbn [length repeat]. rewrite IH. f_equal.
  pose proof (unavailable_item svc t w Hdown) as Hz.
  rewrite Hitem in Hz. exact Hz.
Qed.

Lemma sort_unranked : forall l,
  Forall (fun e => similarity e = 0%float) l -> sort by_similarity l = l.
Proof.
  intros l H. induction H as [|x l Hx Hl IH]; [reflexivity|].
  change (sort by_similarity (x :: l))
    with (insert_sorted by_similarity x (sort by_similarity l)).
  rewrite IH. destruct l as [|y rest]; [reflexivity|].
  cbn [insert_sorted]. unfold by_similarity.
  inversion Hl as [|? ? Hy _]; subst. rewrite Hx, Hy.
  reflexivity.
Qed.

Lemma placeholders_scored : forall q records i0,
  Forall (fun c => exists t,
            c = DocumentUpload.chunk_record t (Some zero_vector)) records ->
  cosineSimilarity q (VArr zero_vector) = Normal 0%float ->
  keep_scored (score_chunks q i0 records) = unranked_from i0 records.
Proof.
  intros q records i0 H Hcos. revert i0.
  induction H as [|c rest [t ->] Hrest IH]; intros i0; [reflexivity|].
  cbn [score_chunks keep_scored unranked_from].
  rewrite score_chunk_scorable.
  change (has_embedding (DocumentUpload.chunk_record t (Some zero_vector)))
    with true.
  change (get (DocumentUpload.chunk_record t (Some zero_vector)) "embedding")
    with (VArr zero_vector).
  rewrite Hcos. cbn [similarity].
  change (PrimFloat.is_nan 0) with false. cbv iota.
  rewrite IH. reflexivity.
Qed.

Lemma unranked_from_zero : forall records i0,
  Forall (fun e => similarity e = 0%float) (unranked_from i0 records).
Proof.
  induction records as [|c rest IH]; intros i0; [constructor|].
  cbn. constructor; [reflexivity|apply IH].
Qed.

(** X18.  A document uploaded while the embedding service fails on
    every request is created all the same, with zero vectors; for a
    query of 768 numbers every chunk of it then has the similarity 0,
    and [findSimilarChunks] returns its first [topK] chunks, in the
    order of the document, whatever the query. *)
Theorem unavailable_service_retrieval :
  forall svc extractedText w chunks w' xs topK,
    unavailable svc ->
    DocumentUpload.process_text svc extractedText w
    = (Normal (Some (DocumentUpload.Created chunks)), w') ->
    length xs = 768 ->
    findSimilarChunks (vector xs) (VArr chunks) topK
    = firstn (effective_topK topK) (unranked_from 0 chunks).
Proof.
  intros svc extractedText w chunks w' xs topK Hdown Hrun Hlen.
  destruct (process_text_outcome_run svc extractedText w)
    as (result & w1 & Hrun' & Hshape).
  rewrite Hrun in Hrun'. injection Hrun' as <- <-.
  destruct Hshape as (textChunks & embeddings & _ & Hne & Hcount & _ & Hord & ->).
  rewrite (unavailable_batch _ _ _ _ _ Hdown Hord) in *.
  set (records := map (fun p => DocumentUpload.chunk_record (fst p) (Some (snd p)))
                      (combine textChunks
                         (repeat zero_vector (length (map VStr textChunks))))).
  assert (Hrec : Forall (fun c => exists t,
                    c = DocumentUpload.chunk_record t (Some zero_vector)) records).
  { subst records. apply Forall_forall. intros c Hc.
    apply in_map_iff in Hc as ([t e] & <- & Hin).
    apply in_combine_r in Hin. apply repeat_spec in Hin. cbn in Hin. subst e.
    exists t. reflexivity. }
  unfold findSimilarChunks, vector.
  destruct xs as [|x0 xs0]; [discriminate|]. cbn [map].
  change (VArr (VNum x0 :: map VNum xs0)) with (vector (x0 :: xs0)).
  destruct records as [|r0 rs] eqn:Er.
  { cbn. now rewrite firstn_nil. }
  rewrite <- Er in *.
  rewrite (placeholders_scored _ records 0 Hrec
             (cosineSimilarity_zero_vector (x0 :: xs0) Hlen)).
  rewrite sort_unranked by apply unranked_from_zero.
  reflexivity.
Qed.

Lemma unavailable_service_retrieval_witness :
  exists chunks w',
    DocumentUpload.process_text overloaded_service
      (js "The candidate has five years of experience with Node.js and React.")
      (mkWorld 0 [])
    = (Normal (Some (DocumentUpload.Created chunks)), w')
    /\ findSimilarChunks (vector (repeat 1%float 768)) (VArr chunks) (VNum 3)
       = firstn 3 (unranked_from 0 chunks).
Proof.
  eexists. eexists. split.
  - vm_compute. reflexivity.
  - eapply (unavailable_service_retrieval overloaded_service
              (js "The candidate has five years of experience with Node.js and React.")
              (mkWorld 0 []) _ _ (repeat 1%float 768) (VNum 3)).
    + intros n t. eexists. reflexivity.
    + vm_compute. reflexivity.
    + reflexivity.
Defined.

(* ================================================================== *)
(** * The similarity is symmetric *)
(* ================================================================== *)

Lemma SFmul_comm : forall x y, SFmul prec emax x y = SFmul prec emax y x.
Proof.
  intros x y. unfold SFmul.
  destruct x as [sx|sx| |sx mx ex], y as [sy|sy| |sy my ey];
    try reflexivity;
    try (now rewrite xorb_comm).
  now rewrite xorb_comm, Pos.mul_comm, Z.add_comm.
Qed.

Lemma mul_comm : forall x y : float, (x * y = y * x)%float.
Proof.
  intros x y. apply Prim2SF_inj. rewrite !mul_spec. apply SFmul_comm.
Qed.

Lemma dot_comm : forall xs ys, dot xs ys = dot ys xs.
Proof.
  intros xs ys. unfold dot. generalize 0%float as acc. revert ys.
  induction xs as [|x xs IH]; intros ys acc.
  - destruct ys; reflexivity.
  - destruct ys as [|y ys]; [reflexivity|].
    cbn [combine fold_left fst snd]. rewrite (mul_comm x y). apply IH.
Qed.

(** X19.  [cosineSimilarity] is symmetric: the two orders of the
    arguments throw in the same cases, and else return the same
    number. *)
Theorem cosineSimilarity_symmetric : forall vecA vecB,
  match cosineSimilarity vecA vecB, cosineSimilarity vecB vecA with
  | Normal r1, Normal r2 => r1 = r2
  | Throw _, Throw _ => True
  | _, _ => False
  end.
Proof.
  intros vecA vecB. unfold cosineSimilarity.
  destruct vecA as [| |b1|x1|s1|a|p1], vecB as [| |b2|x2|s2|b|p2];
    try reflexivity.
  rewrite (Nat.eqb_sym (length b) (length a)).
  destruct (length a =? length b) eqn:Hlen.
  - apply Nat.eqb_eq in Hlen. rewrite <- Hlen.
    destruct (length a =? 0); cbn [negb orb]; [exact I|].
    destruct (numbers_of a) as [xs|], (numbers_of b) as [ys|]; try exact I.
    rewrite (dot_comm ys xs).
    rewrite (mul_comm (PrimFloat.sqrt (sum_squares ys))
                      (PrimFloat.sqrt (sum_squares xs))).
    rewrite (orb_comm (PrimFloat.sqrt (sum_squares ys) =? 0)%float).
    destruct ((PrimFloat.sqrt (sum_squares xs) =? 0)%float
              || (PrimFloat.sqrt (sum_squares ys) =? 0)%float); reflexivity.
  - cbn [negb]. rewrite !orb_true_r. exact I.
Qed.

(* ================================================================== *)
(** * A reply that follows the template *)
(* ================================================================== *)

Lemma drop_trailing_app_clean : forall a x,
  a <> [] -> ends_clean a = true ->
  drop_trailing (a ++ x) = a ++ drop_trailing x.
Proof.
  induction a as [|c a IH]; intros x Hne Hclean; [congruence|].
  destruct a as [|c' a'].
  - cbn in Hclean. apply negb_true_iff in Hclean.
    cbn [app drop_trailing]. rewrite Hclean.
    destruct (drop_trailing x); reflexivity.
  - change (drop_trailing ((c :: c' :: a') ++ x))
      with (match drop_trailing ((c' :: a') ++ x) with
            | [] => if is_space c then [] else [c]
            | r' => c :: r'
            end).
    rewrite IH by (try discriminate; exact Hclean).
    reflexivity.
Qed.

Lemma drop_while_drop_trailing : forall u,
  drop_while is_space (drop_trailing u) = drop_trailing (drop_while is_space u).
Proof.
  induction u as [|c r IH]; [reflexivity|].
  cbn [drop_trailing drop_while]. destruct (is_space c) eqn:Hc.
  - rewrite <- IH. destruct (drop_trailing r) as [|c' r'].
    + reflexivity.
    + cbn [drop_while]. now rewrite Hc.
  - cbn [drop_trailing].
    destruct (drop_trailing r) as [|c' r']; cbn [drop_while]; now rewrite Hc.
Qed.

Lemma drop_while_idempotent : forall u,
  drop_while is_space (drop_while is_space u) = drop_while is_space u.
Proof.
  induction u as [|c r IH]; [reflexivity|].
  cbn [drop_while]. destruct (is_space c) eqn:Hc; [exact IH|].
  cbn [drop_while]. now rewrite Hc.
Qed.

Lemma drop_trailing_idempotent : forall u,
  drop_trailing (drop_trailing u) = drop_trailing u.
Proof.
  intros u. apply ends_clean_fixed, drop_trailing_ends_clean.
Qed.

(** The feedback captured after the label, for what is left of the
    block [" " ++ f] once the block is trimmed. *)
Lemma feedback_of_rest : forall f,
  trim (drop_while is_space (drop_trailing (space :: f))) = trim f.
Proof.
  intros f. rewrite trim_drop_trailing, drop_while_idempotent.
  rewrite drop_while_drop_trailing, drop_trailing_idempotent.
  cbn [drop_while]. rewrite is_space_space.
  now rewrite trim_drop_trailing.
Qed.

Lemma eqb_ci_refl : forall c, eqb_ci c c = true.
Proof. intros c. unfold eqb_ci. apply Ascii.eqb_refl. Qed.

Lemma strip_prefix_ci_app : forall p s, strip_prefix_ci p (p ++ s) = Some s.
Proof.
  induction p as [|a p IH]; intros s; [reflexivity|].
  cbn. now rewrite eqb_ci_refl.
Qed.

Lemma score_match_step : forall label c s,
  score_at label (c :: s) = None ->
  score_match label (c :: s) = score_match label s.
Proof. intros label c s H. cbn [score_match]. now rewrite H. Qed.

Lemma score_match_here : forall label s ds,
  score_at label s = Some ds -> score_match label s = Some ds.
Proof. intros label s ds H. destruct s; cbn [score_match]; now rewrite H. Qed.

Lemma digit_not_letter : forall a d,
  is_digit d = true -> is_digit a = false -> (65 <=? nat_of_ascii a) = true ->
  eqb_ci a d = false.
Proof.
  intros a d Hd Ha Hup. unfold eqb_ci.
  destruct (Ascii.eqb (to_lower a) (to_lower d)) eqn:E; [|reflexivity].
  apply Ascii.eqb_eq in E. exfalso.
  unfold is_digit in Hd. apply andb_true_iff in Hd as [H1 H2].
  apply Nat.leb_le in H1. apply Nat.leb_le in H2. apply Nat.leb_le in Hup.
  assert (Hd' : to_lower d = d).
  { unfold to_lower.
    replace (65 <=? nat_of_ascii d) with false
      by (symmetry; apply Nat.leb_gt; lia). reflexivity. }
  rewrite Hd' in E.
  apply (f_equal nat_of_ascii) in E. unfold to_lower in E.
  destruct ((65 <=? nat_of_ascii a) && (nat_of_ascii a <=? 90)) eqn:C.
  - apply andb_true_iff in C as [_ C]. apply Nat.leb_le in C.
    rewrite nat_ascii_embedding in E by lia. lia.
  - lia.
Qed.

Lemma score_match_digits : forall a label ds s,
  is_digit a = false -> (65 <=? nat_of_ascii a) = true ->
  forallb is_digit ds = true ->
  score_match (a :: label) (ds ++ s) = score_match (a :: label) s.
Proof.
  intros a label ds s Ha Hup Hds. induction ds as [|d ds IH]; [reflexivity|].
  cbn in Hds. apply andb_true_iff in Hds as [Hd Hds].
  cbn [app]. rewrite score_match_step; [now apply IH|].
  unfold score_at. cbn [strip_prefix_ci].
  now rewrite (digit_not_letter a d Hd Ha Hup).
Qed.

Lemma score_at_label : forall label ds c s,
  ds <> [] -> forallb is_digit ds = true -> is_digit c = false ->
  score_at label (label ++ space :: ds ++ c :: s) = Some ds.
Proof.
  intros label ds c s Hne Hds Hc. unfold score_at.
  rewrite strip_prefix_ci_app. cbn [drop_while]. rewrite is_space_space.
  destruct ds as [|d ds']; [congruence|].
  pose proof Hds as Hds'. cbn in Hds'. apply andb_true_iff in Hds' as [Hd _].
  cbn [app drop_while]. rewrite (digit_not_space d Hd).
  change (d :: ds' ++ c :: s) with ((d :: ds') ++ c :: s).
  destruct (take_while_app_stop is_digit (d :: ds') c s Hds Hc) as [-> _].
  reflexivity.
Qed.

Lemma feedback_match_step : forall c s,
  strip_prefix_ci (js "Feedback:") (c :: s) = None ->
  feedback_match (c :: s) = feedback_match s.
Proof. intros c s H. cbn [feedback_match]. now rewrite H. Qed.

Lemma feedback_match_digits : forall ds s,
  forallb is_digit ds = true ->
  feedback_match (ds ++ s) = feedback_match s.
Proof.
  intros ds s Hds. induction ds as [|d ds IH]; [reflexivity|].
  cbn in Hds. apply andb_true_iff in Hds as [Hd Hds].
  cbn [app]. rewrite feedback_match_step; [now apply IH|].
  change (js "Feedback:") with ("F"%char :: js "eedback:").
  cbn [strip_prefix_ci].
  now rewrite (digit_not_letter "F"%char d Hd eq_refl eq_refl).
Qed.

Ltac skip_chars :=
  repeat first
    [ rewrite score_match_step by reflexivity
    | rewrite score_match_digits by (reflexivity || assumption) ].

Ltac skip_feedback_chars :=
  repeat first
    [ rewrite feedback_match_step by reflexivity
    | rewrite feedback_match_digits by assumption ].

(** The block of the template, once trimmed. *)
Lemma template_lines_trimmed : forall dr dc dv f,
  trim (template_lines dr dc dv f)
  = js "Relevance: " ++ dr ++ js "/10" ++ [newline]
    ++ js "Correctness: " ++ dc ++ js "/10" ++ [newline]
    ++ js "Overall: " ++ dv ++ js "/10" ++ [newline]
    ++ js "Feedback:" ++ drop_trailing (space :: f).
Proof.
  intros dr dc dv f. unfold template_lines.
  rewrite trim_drop_trailing.
  change (drop_while is_space ([newline] ++ js "Relevance: " ++ ?x))
    with (js "Relevance: " ++ x).
  set (a := js "Relevance: " ++ dr ++ js "/10" ++ [newline]
            ++ js "Correctness: " ++ dc ++ js "/10" ++ [newline]
            ++ js "Overall: " ++ dv ++ js "/10" ++ [newline]
            ++ js "Feedback:").
  replace (js "Relevance: " ++ dr ++ js "/10" ++ [newline]
           ++ js "Correctness: " ++ dc ++ js "/10" ++ [newline]
           ++ js "Overall: " ++ dv ++ js "/10" ++ [newline]
           ++ js "Feedback: " ++ f)
    with (a ++ space :: f).
  2:{ subst a. repeat rewrite <- app_assoc. reflexivity. }
  rewrite drop_trailing_app_clean.
  - subst a. repeat rewrite <- app_assoc. reflexivity.
  - subst a. discriminate.
  - subst a.
    repeat (rewrite app_assoc; rewrite ends_clean_app by discriminate).
    reflexivity.
Qed.

Lemma parse_template_lines : forall dr dc dv f,
  dr <> [] -> forallb is_digit dr = true ->
  dc <> [] -> forallb is_digit dc = true ->
  dv <> [] -> forallb is_digit dv = true ->
  parse_block (template_lines dr dc dv f)
  = {| score := clamp_score (parse_digits dv);
       relevanceScore := clamp_score (parse_digits dr);
       correctnessScore := clamp_score (parse_digits dc);
       feedback := trim f |}.
Proof.
  intros dr dc dv f Hr Hdr Hc Hdc Hv Hdv. unfold parse_block.
  rewrite template_lines_trimmed.
  set (g := drop_trailing (space :: f)).
  assert (Erel : score_match (js "Relevance:")
            (js "Relevance: " ++ dr ++ js "/10" ++ [newline]
             ++ js "Correctness: " ++ dc ++ js "/10" ++ [newline]
             ++ js "Overall: " ++ dv ++ js "/10" ++ [newline]
             ++ js "Feedback:" ++ g) = Some dr).
  { apply score_match_here.
    apply (score_at_label (js "Relevance:") dr "/"%char); auto. }
  assert (Ecor : score_match (js "Correctness:")
            (js "Relevance: " ++ dr ++ js "/10" ++ [newline]
             ++ js "Correctness: " ++ dc ++ js "/10" ++ [newline]
             ++ js "Overall: " ++ dv ++ js "/10" ++ [newline]
             ++ js "Feedback:" ++ g) = Some dc).
  { change (js "Correctness:") with ("C"%char :: js "orrectness:").
    cbn [js list_ascii_of_string app]. skip_chars.
    apply score_match_here.
    apply (score_at_label (js "Correctness:") dc "/"%char); auto. }
  assert (Eall : score_match (js "Overall:")
            (js "Relevance: " ++ dr ++ js "/10" ++ [newline]
             ++ js "Correctness: " ++ dc ++ js "/10" ++ [newline]
             ++ js "Overall: " ++ dv ++ js "/10" ++ [newline]
             ++ js "Feedback:" ++ g) = Some dv).
  { change (js "Overall:") with ("O"%char :: js "verall:").
    cbn [js list_ascii_of_string app]. skip_chars.
    apply score_match_here.
    apply (score_at_label (js "Overall:") dv "/"%char); auto. }
  assert (Efb : feedback_match
            (js "Relevance: " ++ dr ++ js "/10" ++ [newline]
             ++ js "Correctness: " ++ dc ++ js "/10" ++ [newline]
             ++ js "Overall: " ++ dv ++ js "/10" ++ [newline]
             ++ js "Feedback:" ++ g) = Some (drop_while is_space g)).
  { cbn [js list_ascii_of_string app]. skip_feedback_chars.
    reflexivity. }
  rewrite Erel, Ecor, Eall, Efb. subst g.
  now rewrite feedback_of_rest.
Qed.

Lemma parse_entry_lines : forall e,
  parse_block (entry_lines e) = entry_evaluation e
  /\ parse_block (entry_lines e ++ [newline; newline]) = entry_evaluation e.
Proof.
  intros e.
  assert (H : parse_block (entry_lines e) = entry_evaluation e).
  { unfold entry_lines, entry_evaluation.
    destruct (of_nat_digits (reply_relevance e)) as (Hr1 & Hr2 & Hr3).
    destruct (of_nat_digits (reply_correctness e)) as (Hc1 & Hc2 & Hc3).
    destruct (of_nat_digits (reply_overall e)) as (Hv1 & Hv2 & Hv3).
    rewrite parse_template_lines by assumption.
    now rewrite Hr3, Hc3, Hv3. }
  split; [exact H|].
  rewrite <- H. unfold parse_block.
  now rewrite (trim_app_spaces (entry_lines e) [newline; newline]).
Qed.

Lemma clamp_score_cases : forall n,
  clamp_score (Z.of_nat n)
  = if n =? 0 then 1%Z else if 10 <? n then 10%Z else Z.of_nat n.
Proof.
  intros n. unfold clamp_score.
  destruct (Nat.eqb_spec n 0) as [->|Hn]; [reflexivity|].
  replace (Z.of_nat n =? 0)%Z with false by (symmetry; apply Z.eqb_neq; lia).
  destruct (Nat.ltb_spec 10 n); lia.
Qed.

(** X20.  A block that follows the template is parsed to the scores it
    states and to its feedback, trimmed, whatever the feedback is; the
    blank line after a block changes nothing.  A score within 1..10 is
    kept, a score of 0 becomes 1 and a score above 10 becomes 10. *)
Theorem parse_block_template : forall e,
  let parsed := parse_block (entry_lines e) in
  parse_block (entry_lines e ++ [newline; newline]) = parsed
  /\ feedback parsed = trim (reply_feedback e)
  /\ relevanceScore parsed
     = (if reply_relevance e =? 0 then 1%Z
        else if 10 <? reply_relevance e then 10%Z
        else Z.of_nat (reply_relevance e))
  /\ correctnessScore parsed
     = (if reply_correctness e =? 0 then 1%Z
        else if 10 <? reply_correctness e then 10%Z
        else Z.of_nat (reply_correctness e))
  /\ score parsed
     = (if reply_overall e =? 0 then 1%Z
        else if 10 <? reply_overall e then 10%Z
        else Z.of_nat (reply_overall e)).
Proof.
  intros e parsed. subst parsed.
  destruct (parse_entry_lines e) as [H1 H2]. rewrite H1, H2.
  unfold entry_evaluation. cbn [feedback relevanceScore correctnessScore score].
  rewrite !clamp_score_cases. repeat split.
Qed.

(* ================================================================== *)
(** * The split of a reply that follows the template *)
(* ================================================================== *)

Lemma split_headers_cur : forall s skip cur,
  split_headers skip cur s
  = match split_headers skip [] s with
    | piece :: pieces => (rev cur ++ piece) :: pieces
    | [] => []
    end.
Proof.
  induction s as [|c r IH]; intros skip cur.
  - cbn. now rewrite app_nil_r.
  - cbn [split_headers]. destruct skip as [|k]; [|apply IH].
    destruct (question_header_at (c :: r)) as [len|].
    + cbn. now rewrite app_nil_r.
    + rewrite (IH 0 (c :: cur)), (IH 0 [c]).
      destruct (split_headers 0 [] r); [reflexivity|].
      cbn. now rewrite <- app_assoc.
Qed.

Lemma question_header_at_head : forall c s,
  eqb_ci "Q" c = false -> question_header_at (c :: s) = None.
Proof.
  intros c s H. unfold question_header_at.
  change (js "Question") with ("Q"%char :: js "uestion").
  cbn [strip_prefix_ci]. now rewrite H.
Qed.

Lemma split_headers_plain : forall pre cur s,
  Forall (fun c => eqb_ci "Q" c = false) pre ->
  split_headers 0 cur (pre ++ s) = split_headers 0 (rev pre ++ cur) s.
Proof.
  intros pre cur s H. revert cur.
  induction H as [|c pre Hc Hpre IH]; intros cur; [reflexivity|].
  cbn [app split_headers]. rewrite (question_header_at_head c _ Hc).
  rewrite IH. cbn [rev]. now rewrite <- app_assoc.
Qed.

Lemma split_headers_skip : forall p s cur,
  split_headers (length p) cur (p ++ s) = split_headers 0 cur s.
Proof.
  induction p as [|c p IH]; intros s cur; [reflexivity|].
  cbn [app length split_headers]. apply IH.
Qed.

Lemma take_while_app_all : forall p a s,
  forallb p a = true ->
  take_while p (a ++ s) = a ++ take_while p s
  /\ drop_while p (a ++ s) = drop_while p s.
Proof.
  intros p a s Ha. induction a as [|x a IH]; [split; reflexivity|].
  cbn in Ha. apply andb_true_iff in Ha as [Hx Ha].
  cbn. rewrite Hx. destruct (IH Ha) as [-> ->]. split; reflexivity.
Qed.

Lemma prefix_split : forall (p : ascii -> bool) s,
  forallb p s = true
  \/ exists a c b, s = a ++ c :: b /\ forallb p a = true /\ p c = false.
Proof.
  intros p s. induction s as [|x s IH]; [now left|].
  destruct (p x) eqn:Hx.
  - destruct IH as [H|(a & c & b & -> & Ha & Hc)].
    + left. cbn. now rewrite Hx, H.
    + right. exists (x :: a), c, b. repeat split; auto.
      cbn. now rewrite Hx, Ha.
  - right. exists [], x, s. repeat split; auto.
Qed.

Lemma strip_prefix_ci_tail : forall p u tail,
  Forall (fun a => eqb_ci a newline = false) p ->
  strip_prefix_ci p (u ++ newline :: tail)
  = match strip_prefix_ci p u with
    | Some r => Some (r ++ newline :: tail)
    | None => None
    end.
Proof.
  intros p u tail H. revert u.
  induction H as [|a p Ha Hp IH]; intros u; [reflexivity|].
  destruct u as [|c u].
  - cbn [app strip_prefix_ci]. now rewrite Ha.
  - cbn [app strip_prefix_ci]. destruct (eqb_ci a c); [apply IH|reflexivity].
Qed.

(** A header does not start inside a text and end in what follows it,
    when what follows is a blank line and the next header. *)
Lemma question_header_none_app : forall u rest,
  question_header_at u = None ->
  question_header_at (u ++ newline :: newline :: "Q"%char :: rest) = None.
Proof.
  intros u rest. unfold question_header_at.
  rewrite strip_prefix_ci_tail by (repeat constructor).
  destruct (strip_prefix_ci (js "Question") u) as [r1|]; [|reflexivity].
  destruct (prefix_split is_space r1) as [Hall|(ws & c & r & -> & Hws & Hc)].
  - destruct (take_while_app_all is_space r1
                (newline :: newline :: "Q"%char :: rest) Hall) as [-> ->].
    intros _. cbn [take_while drop_while is_space].
    change (is_space newline) with true. cbv iota.
    change (is_space "Q") with false. cbv iota.
    change (take_while is_digit ("Q"%char :: rest)) with (@nil ascii).
    destruct (r1 ++ [newline; newline]); reflexivity.
  - rewrite <- app_assoc. cbn [app].
    destruct (take_while_app_stop is_space ws c r Hws Hc) as [-> ->].
    destruct (take_while_app_stop is_space ws c
                (r ++ newline :: newline :: "Q"%char :: rest) Hws Hc)
      as [-> ->].
    destruct (prefix_split is_digit (c :: r))
      as [Hall|(ds & c2 & r3 & E & Hds & Hc2)].
    + destruct (take_while_whole is_digit (c :: r) Hall) as [-> ->].
      change (c :: r ++ newline :: newline :: "Q"%char :: rest)
        with ((c :: r) ++ newline :: newline :: "Q"%char :: rest).
      destruct (take_while_app_stop is_digit (c :: r) newline
                  (newline :: "Q"%char :: rest) Hall eq_refl) as [-> ->].
      intros _. destruct ws; reflexivity.
    + change (c :: r ++ newline :: newline :: "Q"%char :: rest)
        with ((c :: r) ++ newline :: newline :: "Q"%char :: rest).
      rewrite E, <- app_assoc. cbn [app].
      destruct (take_while_app_stop is_digit ds c2 r3 Hds Hc2) as [-> ->].
      destruct (take_while_app_stop is_digit ds c2
                  (r3 ++ newline :: newline :: "Q"%char :: rest) Hds Hc2)
        as [-> ->].
      intros H. exact H.
Qed.

Lemma split_headers_feedback : forall f cur rest,
  split_headers 0 [] f = [f] ->
  split_headers 0 cur (f ++ newline :: newline :: "Q"%char :: rest)
  = split_headers 0 (rev f ++ cur) (newline :: newline :: "Q"%char :: rest).
Proof.
  induction f as [|c f IH]; intros cur rest Hwhole; [reflexivity|].
  cbn [split_headers] in Hwhole. cbn [app split_headers].
  destruct (question_header_at (c :: f)) as [len|] eqn:Hh; [discriminate|].
  pose proof (question_header_none_app (c :: f) rest Hh) as Hh'.
  cbn [app] in Hh'. rewrite Hh'.
  rewrite split_headers_cur in Hwhole.
  destruct (split_headers 0 [] f) as [|piece pieces] eqn:Hf; [discriminate|].
  cbn in Hwhole. injection Hwhole as <- ->.
  rewrite (IH (c :: cur) rest eq_refl).
  cbn [rev]. now rewrite <- app_assoc.
Qed.

Lemma question_header_found : forall ds s cur,
  ds <> [] -> forallb is_digit ds = true ->
  split_headers 0 cur (js "Question " ++ ds ++ ":"%char :: s)
  = rev cur :: split_headers 0 [] s.
Proof.
  intros ds s cur Hne Hds.
  change (js "Question " ++ ds ++ ":"%char :: s)
    with ("Q"%char :: (js "uestion " ++ ds ++ ":"%char :: s)).
  cbn [split_headers].
  assert (Hh : question_header_at
                 ("Q"%char :: (js "uestion " ++ ds ++ ":"%char :: s))
               = Some (8 + 1 + length ds + 1)).
  { unfold question_header_at.
    change ("Q"%char :: (js "uestion " ++ ds ++ ":"%char :: s))
      with (js "Question" ++ space :: ds ++ ":"%char :: s).
    rewrite strip_prefix_ci_app.
    destruct ds as [|d ds']; [congruence|].
    pose proof Hds as Hd. cbn in Hd. apply andb_true_iff in Hd as [Hd _].
    cbn [take_while drop_while app]. rewrite is_space_space.
    rewrite (digit_not_space d Hd).
    change (d :: ds' ++ ":"%char :: s) with ((d :: ds') ++ ":"%char :: s).
    destruct (take_while_app_stop is_digit (d :: ds') ":"%char s Hds eq_refl)
      as [-> ->].
    reflexivity. }
  rewrite Hh. f_equal.
  replace (8 + 1 + length ds + 1 - 1)
    with (length (js "uestion " ++ ds ++ [":"%char]))
    by (rewrite !length_app; cbn; lia).
  replace (js "uestion " ++ ds ++ ":"%char :: s)
    with ((js "uestion " ++ ds ++ [":"%char]) ++ s)
    by (now rewrite <- !app_assoc).
  apply split_headers_skip.
Qed.

Lemma digits_plain : forall ds,
  forallb is_digit ds = true -> Forall (fun c => eqb_ci "Q" c = false) ds.
Proof.
  intros ds H. apply Forall_forall. intros d Hd.
  rewrite forallb_forall in H.
  apply (digit_not_letter "Q"%char d (H d Hd)); reflexivity.
Qed.

(** The lines of an entry up to the feedback hold no header. *)
Lemma entry_lines_split : forall e cur tail,
  split_headers 0 cur (entry_lines e ++ tail)
  = split_headers 0
      (rev ([newline] ++ js "Relevance: " ++ of_nat (reply_relevance e)
            ++ js "/10" ++ [newline]
            ++ js "Correctness: " ++ of_nat (reply_correctness e)
            ++ js "/10" ++ [newline]
            ++ js "Overall: " ++ of_nat (reply_overall e)
            ++ js "/10" ++ [newline] ++ js "Feedback: ") ++ cur)
      (reply_feedback e ++ tail).
Proof.
  intros e cur tail. unfold entry_lines, template_lines.
  destruct (of_nat_digits (reply_relevance e)) as (_ & Hr & _).
  destruct (of_nat_digits (reply_correctness e)) as (_ & Hc & _).
  destruct (of_nat_digits (reply_overall e)) as (_ & Hv & _).
  rewrite <- split_headers_plain.
  - repeat rewrite <- app_assoc. reflexivity.
  - repeat (apply Forall_app; split);
      try (now apply digits_plain); repeat constructor.
Qed.

Lemma reply_split : forall entries i cur,
  entries <> [] ->
  Forall (fun e => no_question_header (reply_feedback e)) entries ->
  split_headers 0 cur (join [newline; newline] (reply_blocks i entries))
  = rev cur :: reply_pieces entries.
Proof.
  intros entries i cur Hne Hall. revert i cur.
  induction Hall as [|e rest He Hrest IH]; [congruence|]. intros i cur.
  destruct (of_nat_digits (i + 1)) as (Hd1 & Hd2 & _).
  destruct rest as [|e' rest'].
  - change (join [newline; newline] (reply_blocks i [e]))
      with (js "Question " ++ of_nat (i + 1) ++ ":"%char :: entry_lines e).
    rewrite question_header_found by assumption.
    rewrite <- (app_nil_r (entry_lines e)) at 1.
    rewrite entry_lines_split, !app_nil_r.
    rewrite split_headers_cur. unfold no_question_header in He. rewrite He.
    rewrite rev_involutive. cbn [reply_pieces]. f_equal. f_equal.
    unfold entry_lines, template_lines.
    repeat rewrite <- app_assoc. reflexivity.
  - change (join [newline; newline] (reply_blocks i (e :: e' :: rest')))
      with ((js "Question " ++ of_nat (i + 1) ++ ":"%char :: entry_lines e)
            ++ [newline; newline]
            ++ join [newline; newline] (reply_blocks (S i) (e' :: rest'))).
    set (J := join [newline; newline] (reply_blocks (S i) (e' :: rest'))).
    assert (HJ : exists rest, J = "Q"%char :: rest).
    { subst J. cbn [reply_blocks].
      destruct (reply_blocks (S (S i)) rest');
        eexists; cbn [join app js list_ascii_of_string]; reflexivity. }
    destruct HJ as [Jrest HJ].
    replace ((js "Question " ++ of_nat (i + 1) ++ ":"%char :: entry_lines e)
             ++ [newline; newline] ++ J)
      with (js "Question " ++ of_nat (i + 1)
            ++ ":"%char :: (entry_lines e ++ newline :: newline :: J))
      by (repeat rewrite <- app_assoc; reflexivity).
    rewrite question_header_found by assumption.
    rewrite entry_lines_split, app_nil_r.
    rewrite HJ. rewrite split_headers_feedback by exact He.
    change (newline :: newline :: "Q"%char :: Jrest)
      with ([newline; newline] ++ "Q"%char :: Jrest).
    rewrite split_headers_plain by (repeat constructor).
    rewrite <- HJ. subst J. rewrite IH by discriminate.
    change (reply_pieces (e :: e' :: rest'))
      with ((entry_lines e ++ [newline; newline]) :: reply_pieces (e' :: rest')).
    f_equal. f_equal.
    rewrite !rev_app_distr, !rev_involutive.
    unfold entry_lines, template_lines.
    repeat rewrite <- app_assoc. reflexivity.
Qed.

Lemma reply_pieces_parsed : forall entries,
  length (reply_pieces entries) = length entries
  /\ map parse_block (reply_pieces entries) = map entry_evaluation entries
  /\ filter (fun block => negb (length (trim block) =? 0)) (reply_pieces entries)
     = reply_pieces entries.
Proof.
  induction entries as [|e rest (IHl & IHp & IHf)]; [repeat split|].
  destruct (parse_entry_lines e) as [Hp1 Hp2].
  assert (Hnb : forall tail,
            forallb is_space tail = true ->
            negb (length (trim (entry_lines e ++ tail)) =? 0) = true).
  { intros tail Htail. rewrite trim_app_spaces by exact Htail.
    unfold entry_lines. rewrite template_lines_trimmed. reflexivity. }
  destruct rest as [|e' rest'].
  - cbn [reply_pieces map filter length].
    pose proof (Hnb [] eq_refl) as H. rewrite app_nil_r in H. rewrite H.
    rewrite Hp1. repeat split.
  - change (reply_pieces (e :: e' :: rest'))
      with ((entry_lines e ++ [newline; newline]) :: reply_pieces (e' :: rest')).
    cbn [map filter length]. rewrite (Hnb [newline; newline] eq_refl).
    rewrite Hp2, IHl, IHp, IHf. repeat split.
Qed.

(** X21.  When the model answers with a reply that follows the
    template, one block for each question, and no feedback holds a
    header of a question itself, [evaluateAllAnswers] returns for each
    question the scores of its block, clamped to 1..10, and its feedback,
    trimmed: nothing is padded, dropped or replaced. *)
Theorem evaluateAllAnswers_template_reply :
  forall svc qas ctx w entries w',
    qas <> [] ->
    Forall (fun qa => invalid_pair qa = false) qas ->
    length entries = length qas ->
    Forall (fun e => no_question_header (reply_feedback e)) entries ->
    generation svc qas ctx w = (Normal (template_reply entries), w') ->
    evaluateAllAnswers svc (VArr qas) ctx w
    = (Normal (map entry_evaluation entries), w').
Proof.
  intros svc qas ctx w entries w' Hne Hvalid Hlen Hfree Hgen.
  rewrite evaluateAllAnswers_array.
  destruct qas as [|qa rest] eqn:Eq; [congruence|]. rewrite <- Eq in *.
  rewrite (validate_pairs_valid qas 0 Hvalid), Hgen.
  assert (Hentries : entries <> []).
  { intros E. rewrite E, Eq in Hlen. discriminate. }
  unfold questionBlocks, template_reply.
  rewrite (reply_split entries 0 [] Hentries Hfree).
  cbn [rev filter trim drop_while length Nat.eqb negb].
  destruct (reply_pieces_parsed entries) as (Hl & Hp & Hf).
  rewrite Hf.
  destruct (reply_pieces entries) as [|piece pieces] eqn:Ep.
  { cbn in Hl. destruct entries; [congruence|discriminate]. }
  assert (Hl' : S (length pieces) = length entries) by exact Hl.
  rewrite <- Ep in *. unfold jstring in *.
  rewrite Hp, Hl', Hlen, Nat.sub_diag.
  cbn [repeat]. rewrite app_nil_r, <- Hlen, <- (length_map entry_evaluation).
  now rewrite firstn_all.
Qed.

Lemma evaluateAllAnswers_template_reply_witness :
  evaluateAllAnswers
    (replying_service
       (template_reply
          [ {| reply_relevance := 8; reply_correctness := 12;
               reply_overall := 0; reply_feedback := js " Clear answer. " |} ]))
    (VArr [qa_pair (js "What is a closure?") (js "A function with its scope.")])
    (VStr (js "Five years of Node.js")) (mkWorld 0 [])
  = (Normal [ {| score := 1; relevanceScore := 8; correctnessScore := 10;
                 feedback := js "Clear answer." |} ],
     mkWorld 1 []).
Proof.
  apply (evaluateAllAnswers_template_reply _ _ _ _
           [ {| reply_relevance := 8; reply_correctness := 12;
                reply_overall := 0; reply_feedback := js " Clear answer. " |} ]).
  - discriminate.
  - repeat constructor.
  - reflexivity.
  - repeat constructor.
  - vm_compute. reflexivity.
Defined.

(* ================================================================== *)
(** * The runs of the calls that the handlers make *)
(* ================================================================== *)

Lemma generateEmbedding_run : forall svc s w,
  exists outcome w',
    GeminiText.generateEmbedding svc (VStr s) w = (outcome, w')
    /\ calls w <= calls w' <= calls w + 3
    /\ (forall values, outcome = Normal values -> calls w < calls w').
Proof.
  intros svc s w. unfold GeminiText.generateEmbedding, try_catch.
  destruct (blank_text (VStr s)).
  { eexists. eexists. split; [reflexivity|]. cbn [throw].
    split; [lia|]. intros values H. discriminate. }
  unfold retryWithBackoff.
  rewrite (retry_loop_ext _ _ _ (single_embed_attempt_scripted svc s)).
  destruct (retry_scripted_outcome _ (single_embed_outcomes svc s) w)
    as (k & Hk & Hrun & _ & _).
  unfold retryWithBackoff in Hrun. rewrite Hrun.
  destruct (single_embed_outcomes svc s (calls w + k)) as [values|e].
  - eexists. eexists. split; [reflexivity|]. cbn [calls].
    split; [lia|]. intros; lia.
  - eexists. eexists. split; [reflexivity|]. cbn [throw calls].
    split; [lia|]. intros values H. discriminate.
Qed.

Lemma generation_budget : forall svc qas ctx w,
  calls w <= calls (snd (generation svc qas ctx w)) <= calls w + 3.
Proof.
  intros svc qas ctx w. unfold generation.
  destruct (retry_of_attempts svc []
              (evaluation_prompt qas (effective_context ctx)) w) as [_ ->].
  destruct (retry_scripted_outcome _
              (evaluation_outcomes svc
                 (evaluation_prompt qas (effective_context ctx))) w)
    as (k & Hk & -> & _ & _).
  cbn [snd calls]. lia.
Qed.

(** What [evaluateAllAnswers] returns for pairs that are valid. *)
Lemma evaluateAllAnswers_run : forall svc qas ctx w,
  qas <> [] ->
  Forall (fun qa => invalid_pair qa = false) qas ->
  exists evaluations w',
    evaluateAllAnswers svc (VArr qas) ctx w = (Normal evaluations, w')
    /\ length evaluations = length qas
    /\ Forall scores_in_range evaluations
    /\ calls w <= calls w' <= calls w + 3.
Proof.
  intros svc qas ctx w Hne Hvalid.
  rewrite evaluateAllAnswers_array.
  destruct qas as [|qa rest] eqn:Eq; [congruence|]. rewrite <- Eq in *.
  rewrite (validate_pairs_valid _ 0 Hvalid).
  pose proof (generation_budget svc qas ctx w) as Hb.
  destruct (generation svc qas ctx w) as [[evaluationText|error] w1];
    cbn [snd] in Hb.
  - destruct (questionBlocks evaluationText) as [|b blocks] eqn:B.
    + eexists _, _. split; [reflexivity|].
      split; [apply fallback_list_length|].
      split; [apply fallback_list_range|exact Hb].
    + eexists _, _. split; [reflexivity|].
      split; [apply parsed_entries_length|].
      split; [apply parsed_entries_range|exact Hb].
  - eexists _, _. split; [reflexivity|].
    split; [apply fallback_list_length|].
    split; [apply fallback_list_range|exact Hb].
Qed.

Lemma pairs_from_valid : forall questions answers idx,
  length (ChatHandlers.pairs_from idx questions answers) = length questions
  /\ Forall (fun qa => invalid_pair qa = false)
       (ChatHandlers.pairs_from idx questions answers).
Proof.
  induction questions as [|q rest IH]; intros answers idx; [split; constructor|].
  destruct (IH answers (S idx)) as [Hl Hv].
  cbn [ChatHandlers.pairs_from length]. split; [now rewrite Hl|].
  constructor; [reflexivity|exact Hv].
Qed.

(** The run of [generateInterviewQuestions] on arguments that pass its
    validation. *)
Lemma generateInterviewQuestions_run : forall svc s numQuestions n w,
  blank_text (VStr s) = false ->
  GeminiText.question_count numQuestions = Some n ->
  exists outcome w',
    GeminiText.generateInterviewQuestions svc (VStr s) numQuestions w
    = (outcome, w')
    /\ calls w < calls w' <= calls w + 3
    /\ match outcome with
       | Normal t => t <> [] /\ trim t = t
       | Throw e => True
       end.
Proof.
  intros svc s nq n w Hblank Hn.
  unfold GeminiText.generateInterviewQuestions, try_catch.
  rewrite Hblank, Hn.
  unfold retryWithBackoff, GeminiText.questions_attempt.
  rewrite (retry_loop_ext _ _ _ (generation_attempt_scripted _ _ _ _ _ svc _)).
  match goal with
  | |- context [retry_loop (scripted ?o) _ _ _ _] =>
      destruct (retry_scripted_outcome _ o w) as (k & Hk & Hrun & _ & _)
  end.
  unfold retryWithBackoff in Hrun. rewrite Hrun. clear Hrun.
  destruct (fst (GeminiText.generation_attempt _ _ _ _ _ svc _
                   (mkWorld (calls w + k) []))) as [t0|e] eqn:Ho.
  - eexists. eexists. split; [reflexivity|]. cbn [calls].
    split; [lia|].
    apply generation_attempt_normal in Ho as (response & _ & -> & Hne).
    split; [exact Hne|apply trim_idempotent].
  - eexists. eexists. split; [reflexivity|]. cbn [throw calls].
    split; [lia|exact I].
Qed.

(* ================================================================== *)
(** * generateQuestions on an uploaded job description *)
(* ================================================================== *)

Lemma chunk_texts_records : forall textChunks embeddings,
  length embeddings = length textChunks ->
  Forall (fun t => t <> []) textChunks ->
  ChatHandlers.chunk_texts
    (map (fun p => DocumentUpload.chunk_record (fst p) (Some (snd p)))
         (combine textChunks embeddings))
  = textChunks.
Proof.
  induction textChunks as [|t rest IH]; intros embeddings Hlen Hne;
    [reflexivity|].
  destruct embeddings as [|e es]; [discriminate|].
  inversion Hne as [|? ? Ht Hrest]; subst.
  cbn [combine map fst snd].
  unfold ChatHandlers.chunk_texts. cbn [flat_map].
  change (get (DocumentUpload.chunk_record t (Some e)) "text") with (VStr t).
  destruct t as [|c t']; [congruence|]. cbn [length Nat.eqb app].
  f_equal. apply IH; [cbn in Hlen; lia|exact Hrest].
Qed.

Lemma join_head : forall sep t rest,
  exists tail, join sep (t :: rest) = t ++ tail.
Proof.
  intros sep t rest. destruct rest as [|t' rest'].
  - exists []. cbn. now rewrite app_nil_r.
  - eexists. reflexivity.
Qed.

Lemma uploaded_description : forall svc extractedText w chunks w',
  DocumentUpload.process_text svc extractedText w
  = (Normal (Some (DocumentUpload.Created chunks)), w') ->
  50 <= length (ChatHandlers.jdText chunks)
  /\ blank_text (VStr (ChatHandlers.jdText chunks)) = false.
Proof.
  intros svc extractedText w chunks w' Hrun.
  destruct (process_text_outcome_run svc extractedText w)
    as (result & w1 & Hrun' & Hshape).
  rewrite Hrun in Hrun'. injection Hrun' as <- <-.
  destruct Hshape as (textChunks & embeddings & Hc & Hne & Hlen & _ & _ & ->).
  assert (Hchunk : forall t, In t textChunks ->
            50 < length t /\ blank_text (VStr t) = false).
  { intros t Ht. split.
    - rewrite chunkText_kept_windows in Hc by lia. injection Hc as <-.
      apply in_map_iff in Ht as (window & <- & Hw).
      apply filter_In in Hw as [_ Hkept].
      unfold kept in Hkept. now apply Nat.ltb_lt in Hkept.
    - apply (chunk_not_blank extractedText 500 textChunks t);
        [lia|exact Hc|exact Ht]. }
  unfold ChatHandlers.jdText.
  rewrite chunk_texts_records; [|exact Hlen|].
  2:{ apply Forall_forall. intros t Ht. destruct (Hchunk t Ht) as [H _].
      intros ->. cbn in H. lia. }
  destruct textChunks as [|t rest]; [congruence|].
  destruct (Hchunk t (or_introl eq_refl)) as [Hlong Hnb].
  destruct (join_head [newline; newline] t rest) as [tail ->].
  assert (Hjoin : 50 < length (t ++ tail)) by (rewrite length_app; lia).
  split; [rewrite length_firstn; lia|].
  rewrite blank_text_string in *.
  apply orb_false_iff in Hnb as [_ Hnb]. apply Nat.eqb_neq in Hnb.
  destruct t as [|c t']; [cbn in Hlong; lia|].
  assert (Hc0 : is_space c = false).
  { destruct (is_space c) eqn:E; [|reflexivity]. exfalso.
    rewrite chunkText_kept_windows in Hc by lia. injection Hc as Hc.
    assert (Hin : In (c :: t') (map chunk_of
                     (filter kept (windows 500 (PdfProcessor.words_of extractedText)))))
      by (rewrite Hc; now left).
    apply in_map_iff in Hin as (window & Hw & _).
    assert (Htrim : trim (c :: t') = c :: t').
    { rewrite <- Hw. unfold chunk_of. apply trim_idempotent. }
    apply trimmed_head in Htrim. congruence. }
  cbn [app firstn].
  destruct (trim_text_found c (firstn 3999 (t' ++ tail)) Hc0) as [Hne' _].
  apply orb_false_iff. split; [reflexivity|].
  apply Nat.eqb_neq. intros E. apply Hne'.
  now apply length_zero_iff_nil.
Qed.

(** X22.  For a job description that [uploadDocument] created and a
    number of questions that passes the validation, [generateQuestions]
    never answers that the text is too short: it makes between one and
    three requests, and either answers 500 or stores, as the only
    message of the session, one message of the assistant whose text is
    not empty and has no white space at either end, with the session
    not completed and its three averages cleared. *)
Theorem generateQuestions_uploaded_description :
  forall svc0 extractedText w0 chunks w0' svc chat totalQuestions resume w,
    DocumentUpload.process_text svc0 extractedText w0
    = (Normal (Some (DocumentUpload.Created chunks)), w0') ->
    GeminiText.question_count (ChatHandlers.or_three totalQuestions) <> None ->
    exists result w',
      ChatHandlers.generateQuestions svc (Some chat) totalQuestions
        (Some resume) (Some chunks) w
      = (Normal result, w')
      /\ calls w < calls w' <= calls w + 3
      /\ match result with
         | ChatHandlers.Reply status message => status = 500%Z
         | ChatHandlers.Saved chat' =>
             exists t,
               Chat.messages chat'
               = [ChatHandlers.plain_message (js "assistant") t]
               /\ t <> [] /\ trim t = t
               /\ Chat.isCompleted chat' = false
               /\ Chat.finalScore chat' = None
               /\ Chat.averageRelevance chat' = None
               /\ Chat.averageCorrectness chat' = None
         end.
Proof.
  intros svc0 extractedText w0 chunks w0' svc chat totalQuestions resume w
    Hup Hcount.
  destruct (uploaded_description _ _ _ _ _ Hup) as [Hlong Hnb].
  unfold ChatHandlers.generateQuestions.
  replace (length (ChatHandlers.jdText chunks) <? 50) with false
    by (symmetry; apply Nat.ltb_ge; exact Hlong).
  destruct (GeminiText.question_count (ChatHandlers.or_three totalQuestions))
    as [n|] eqn:Hn; [|congruence].
  destruct (generateInterviewQuestions_run svc (ChatHandlers.jdText chunks)
              (ChatHandlers.or_three totalQuestions) n w Hnb Hn)
    as (outcome & w' & Hrun & Hcalls & Hout).
  unfold try_catch, bind. rewrite Hrun.
  destruct outcome as [t|e].
  - destruct Hout as [Hne Htrim]. rewrite Htrim.
    replace ((length t =? 0) || (length t =? 0)) with false.
    2:{ symmetry. apply orb_false_iff.
        assert (length t <> 0) by (intros E; apply Hne; now apply length_zero_iff_nil).
        split; now apply Nat.eqb_neq. }
    eexists. eexists. split; [reflexivity|]. split; [exact Hcalls|].
    exists t. repeat split; auto.
  - eexists. eexists. split; [reflexivity|]. split; [exact Hcalls|reflexivity].
Qed.

Lemma generateQuestions_uploaded_description_witness :
  exists chunks,
    fst (DocumentUpload.process_text overloaded_service
           (js "We look for a developer with five years of Node.js and React.")
           (mkWorld 0 []))
    = Normal (Some (DocumentUpload.Created chunks))
    /\ exists result w',
         ChatHandlers.generateQuestions
           (replying_service (js "1. What is a closure?
2. Tell me about a conflict in a team."))
           (Some two_questions_session) (VNum 2) (Some []) (Some chunks)
           (mkWorld 0 [])
         = (Normal result, w').
Proof.
  eexists. split.
  - vm_compute. reflexivity.
  - edestruct (generateQuestions_uploaded_description overloaded_service
                 (js "We look for a developer with five years of Node.js and React.")
                 (mkWorld 0 []))
      as (result & w' & Hrun & _).
    + vm_compute. reflexivity.
    + instantiate (1 := VNum 2). vm_compute. discriminate.
    + exists result, w'. exact Hrun.
Defined.

(* ================================================================== *)
(** * submitAnswers *)
(* ================================================================== *)

(** [submitAnswers] once the answers are parsed and the resume is
    found. *)
Lemma submit_evaluation : forall svc s session questions answers chunks w,
  questions = ChatController.parseQuestions (VStr (questions_text session)) ->
  questions <> [] ->
  exists outcome w',
    (queryEmbedding <-
       GeminiText.generateEmbedding svc
         (VStr (join [space] (map ChatController.answer_text answers))) ;;
     let resumeChunks :=
       findSimilarChunks (VArr queryEmbedding) chunks (VNum 3) in
     let resumeContext :=
       join [newline; newline]
         (map (fun item => string_of (get (chunk item) "text")) resumeChunks) in
     evaluations <-
       evaluateAllAnswers svc
         (VArr (ChatHandlers.pairs_from 0 questions answers))
         (VStr resumeContext) ;;
     ret (ChatHandlers.Saved
            (Chat.calculateFinalScores
               {| Chat.messages :=
                    Chat.messages session
                    ++ [ChatHandlers.plain_message (js "user") s]
                    ++ ChatHandlers.feedback_messages 0 evaluations;
                  Chat.isCompleted := true;
                  Chat.finalScore := Chat.finalScore session;
                  Chat.averageRelevance := Chat.averageRelevance session;
                  Chat.averageCorrectness := Chat.averageCorrectness session |})))
      w
    = (outcome, w')
    /\ calls w <= calls w' <= calls w + 6
    /\ match outcome with
       | Normal result =>
           calls w < calls w'
           /\ exists evaluations ctx w1,
                evaluateAllAnswers svc
                  (VArr (ChatHandlers.pairs_from 0 questions answers)) ctx w1
                = (Normal evaluations, w')
                /\ length evaluations = length questions
                /\ Forall scores_in_range evaluations
                /\ result
                   = ChatHandlers.Saved
                       (Chat.calculateFinalScores
                          {| Chat.messages :=
                               Chat.messages session
                               ++ [ChatHandlers.plain_message (js "user") s]
                               ++ ChatHandlers.feedback_messages 0 evaluations;
                             Chat.isCompleted := true;
                             Chat.finalScore := Chat.finalScore session;
                             Chat.averageRelevance := Chat.averageRelevance session;
                             Chat.averageCorrectness := Chat.averageCorrectness session |})
       | Throw e => True
       end.
Proof.
  intros svc s session questions answers chunks w Hq Hne.
  destruct (generateEmbedding_run svc
              (join [space] (map ChatController.answer_text answers)) w)
    as (outcome & w1 & Hrun & Hcalls & Hmade).
  unfold bind at 1. rewrite Hrun.
  destruct outcome as [queryEmbedding|e].
  2:{ eexists. eexists. split; [reflexivity|]. split; [lia|exact I]. }
  specialize (Hmade queryEmbedding eq_refl).
  destruct (pairs_from_valid questions answers 0) as [Hl Hv].
  cbv zeta.
  match goal with
  | |- context [evaluateAllAnswers svc ?qas ?ctx] =>
      destruct (evaluateAllAnswers_run svc
                  (ChatHandlers.pairs_from 0 questions answers) ctx w1)
        as (evaluations & w2 & Hev & Hlen & Hrange & Hcalls2)
  end.
  { intros E. rewrite E in Hl. cbn in Hl.
    destruct questions; [congruence|discriminate]. }
  { exact Hv. }
  unfold bind. rewrite Hev. unfold ret.
  eexists. eexists. split; [reflexivity|]. split; [lia|].
  split; [lia|]. eexists evaluations, _, w1. split; [exact Hev|].
  split; [now rewrite Hlen, Hl|]. split; [exact Hrange|reflexivity].
Qed.

(** X23.  [submitAnswers] always answers: it never throws.  It makes at
    most six requests, and none when it answers 400 or 404.  When it
    saves the session, the questions parsed from the first message are
    not none, the answers were parsed to as many as the questions, at
    least one request was made, and the session saved is the one found
    with three changes: the answers are added as one message of the
    user, then one message of feedback for each question, in their
    order, with scores within 1..10; it is marked completed; and its
    averages are those that [calculateFinalScores] computes. *)
Theorem submitAnswers_outcome : forall svc answersText chat resumeDoc w,
  exists result w',
    ChatHandlers.submitAnswers svc answersText chat resumeDoc w
    = (Normal result, w')
    /\ calls w <= calls w' <= calls w + 6
    /\ match result with
       | ChatHandlers.Reply status message =>
           (status = 400%Z \/ status = 404%Z \/ status = 500%Z)
           /\ (status <> 500%Z -> w' = w)
       | ChatHandlers.Saved chat' =>
           calls w < calls w'
           /\ exists s session chunks answers evaluations,
                answersText = VStr s /\ chat = Some session
                /\ resumeDoc = Some chunks
                /\ ChatController.parseQuestions (VStr (questions_text session))
                   <> []
                /\ ChatController.parseAnswers answersText
                     (length (ChatController.parseQuestions
                                (VStr (questions_text session))))
                   = Some answers
                /\ length evaluations
                   = length (ChatController.parseQuestions
                               (VStr (questions_text session)))
                /\ Forall scores_in_range evaluations
                /\ chat'
                   = Chat.calculateFinalScores
                       {| Chat.messages :=
                            Chat.messages session
                            ++ [ChatHandlers.plain_message (js "user") s]
                            ++ ChatHandlers.feedback_messages 0 evaluations;
                          Chat.isCompleted := true;
                          Chat.finalScore := Chat.finalScore session;
                          Chat.averageRelevance := Chat.averageRelevance session;
                          Chat.averageCorrectness := Chat.averageCorrectness session |}
       end.
Proof.
  intros svc answersText chat resumeDoc w.
  unfold ChatHandlers.submitAnswers, try_catch.
  assert (Hreply : forall status message,
            status = 400%Z \/ status = 404%Z ->
            exists result w',
              (Normal (ChatHandlers.Reply status message), w) = (Normal result, w')
              /\ calls w <= calls w' <= calls w + 6
              /\ match result with
                 | ChatHandlers.Reply status message =>
                     (status = 400%Z \/ status = 404%Z \/ status = 500%Z)
                     /\ (status <> 500%Z -> w' = w)
                 | ChatHandlers.Saved chat' => False
                 end).
  { intros status message H. eexists. eexists. split; [reflexivity|].
    split; [lia|]. split; [tauto|reflexivity]. }
  assert (Hsimple : forall status message,
            status = 400%Z \/ status = 404%Z ->
            exists result w',
              (Normal (ChatHandlers.Reply status message), w) = (Normal result, w')
              /\ calls w <= calls w' <= calls w + 6
              /\ match result with
                 | ChatHandlers.Reply status message =>
                     (status = 400%Z \/ status = 404%Z \/ status = 500%Z)
                     /\ (status <> 500%Z -> w' = w)
                 | ChatHandlers.Saved chat' =>
                     calls w < calls w'
                     /\ exists s session chunks answers evaluations,
                          answersText = VStr s /\ chat = Some session
                          /\ resumeDoc = Some chunks
                          /\ ChatController.parseQuestions
                               (VStr (questions_text session)) <> []
                          /\ ChatController.parseAnswers answersText
                               (length (ChatController.parseQuestions
                                          (VStr (questions_text session))))
                             = Some answers
                          /\ length evaluations
                             = length (ChatController.parseQuestions
                                         (VStr (questions_text session)))
                          /\ Forall scores_in_range evaluations
                          /\ chat'
                             = Chat.calculateFinalScores
                                 {| Chat.messages :=
                                      Chat.messages session
                                      ++ [ChatHandlers.plain_message (js "user") s]
                                      ++ ChatHandlers.feedback_messages 0 evaluations;
                                    Chat.isCompleted := true;
                                    Chat.finalScore := Chat.finalScore session;
                                    Chat.averageRelevance := Chat.averageRelevance session;
                                    Chat.averageCorrectness := Chat.averageCorrectness session |}
                 end).
  { intros status message H.
    destruct (Hreply status message H) as (result & w' & E & Hc & Hm).
    exists result, w'. split; [exact E|]. split; [exact Hc|].
    destruct result; [exact Hm|destruct Hm]. }
  clear Hreply.
  destruct answersText as [| |b|x|s|elems|props];
    try (cbn [truthy ret]; apply Hsimple; now left).
  - cbn [truthy]. destruct b; cbn [ret throw]; [|apply Hsimple; now left].
    eexists. eexists. split; [reflexivity|]. split; [lia|].
    split; [tauto|congruence].
  - cbn [truthy]. destruct (negb (PrimFloat.is_nan x || PrimFloat.is_zero x));
      cbn [ret throw]; [|apply Hsimple; now left].
    eexists. eexists. split; [reflexivity|]. split; [lia|].
    split; [tauto|congruence].
  - destruct ((length s =? 0) || (length (trim s) =? 0));
      [cbn [ret]; apply Hsimple; now left|].
    destruct chat as [session|]; [|cbn [ret]; apply Hsimple; now right].
    change (match Chat.messages session with
            | [] => []
            | m :: _ => Chat.content m
            end) with (questions_text session).
    set (questions := ChatController.parseQuestions (VStr (questions_text session))).
    destruct (length questions =? 0) eqn:Hq;
      [cbn [ret]; apply Hsimple; now left|].
    assert (Hne : questions <> []).
    { intros E. rewrite E in Hq. discriminate. }
    destruct (ChatController.parseAnswers (VStr s) (length questions))
      as [answers|] eqn:Ha; [|cbn [ret]; apply Hsimple; now left].
    destruct resumeDoc as [chunks|]; [|cbn [ret]; apply Hsimple; now left].
    destruct (submit_evaluation svc s session questions answers chunks w
                eq_refl Hne) as (outcome & w' & Hrun & Hcalls & Hout).
    cbv zeta in Hrun. cbv zeta. rewrite Hrun. destruct outcome as [result|e].
    + destruct Hout as (Hmade & evaluations & ctx & w1 & _ & Hlen & Hrange & ->).
      eexists. eexists. split; [reflexivity|]. split; [exact Hcalls|].
      split; [exact Hmade|].
      exists s, session, chunks, answers, evaluations.
      repeat split; auto.
    + cbn [ret]. eexists. eexists. split; [reflexivity|].
      split; [exact Hcalls|]. split; [tauto|congruence].
  - cbn [truthy ret throw]. eexists. eexists. split; [reflexivity|].
    split; [lia|]. split; [tauto|congruence].
  - cbn [truthy ret throw]. eexists. eexists. split; [reflexivity|].
    split; [lia|]. split; [tauto|congruence].
Qed.

(* ================================================================== *)
(** * The averages of a session after the first submission *)
(* ================================================================== *)

Lemma additions_exact_true : additions_exact = true.
Proof. vm_compute. reflexivity. Qed.

Lemma averages_in_scale_true : forallb averages_in_scale (seq 1 10) = true.
Proof. vm_compute. reflexivity. Qed.

Lemma addition_exact : forall a v,
  (0 <= a <= 100)%Z -> (1 <= v <= 10)%Z ->
  (Chat.float_of_Z a + Chat.score_number (Chat.float_of_Z v))%float
  = Chat.float_of_Z (a + v).
Proof.
  intros a v Ha Hv. pose proof additions_exact_true as H.
  unfold additions_exact in H. rewrite forallb_forall in H.
  specialize (H a). rewrite forallb_forall in H.
  apply FloatAxioms.Leibniz.eqb_spec. apply H.
  - apply in_map_iff. exists (Z.to_nat a). split; [lia|].
    apply in_seq. lia.
  - apply in_map_iff. exists (Z.to_nat v). split; [lia|].
    apply in_seq. lia.
Qed.

Lemma sum_exact : forall zs a,
  Forall (fun z => (1 <= z <= 10)%Z) zs ->
  (0 <= a)%Z -> (a + 10 * Z.of_nat (length zs) <= 100)%Z ->
  fold_left PrimFloat.add
    (map (fun z => Chat.score_number (Chat.float_of_Z z)) zs)
    (Chat.float_of_Z a)
  = Chat.float_of_Z (a + fold_right Z.add 0%Z zs)
  /\ (Z.of_nat (length zs) <= fold_right Z.add 0%Z zs
      <= 10 * Z.of_nat (length zs))%Z.
Proof.
  intros zs a H. revert a. induction H as [|z zs Hz Hzs IH]; intros a Ha Hbound.
  - cbn. rewrite Z.add_0_r. split; [reflexivity|lia].
  - cbn [length] in Hbound. rewrite Nat2Z.inj_succ in Hbound.
    cbn [map fold_left fold_right length].
    rewrite addition_exact by lia.
    destruct (IH (a + z)%Z) as [Hsum Hrange]; [lia|lia|].
    rewrite Hsum. split; [f_equal; lia|].
    rewrite Nat2Z.inj_succ. lia.
Qed.

Lemma feedback_messages_scored : forall evaluations idx,
  filter Chat.is_scored (ChatHandlers.feedback_messages idx evaluations)
  = ChatHandlers.feedback_messages idx evaluations
  /\ length (ChatHandlers.feedback_messages idx evaluations) = length evaluations
  /\ relevance_values (ChatHandlers.feedback_messages idx evaluations)
     = map (fun z => Chat.score_number (Chat.float_of_Z z))
           (map relevanceScore evaluations)
  /\ correctness_values (ChatHandlers.feedback_messages idx evaluations)
     = map (fun z => Chat.score_number (Chat.float_of_Z z))
           (map correctnessScore evaluations).
Proof.
  induction evaluations as [|e rest IH]; intros idx; [repeat split|].
  destruct (IH (S idx)) as (Hf & Hl & Hr & Hc).
  cbn [ChatHandlers.feedback_messages filter length map].
  change (Chat.is_scored (ChatHandlers.feedback_message idx e)) with true.
  cbv iota. rewrite Hf. cbn [length].
  unfold relevance_values, correctness_values in *. cbn [map].
  rewrite Hl, Hr, Hc. repeat split.
Qed.

Lemma unscored_filter : forall msgs,
  Forall (fun m => Chat.is_scored m = false) msgs ->
  filter Chat.is_scored msgs = [].
Proof.
  intros msgs H. induction H as [|m rest Hm Hrest IH]; [reflexivity|].
  cbn. now rewrite Hm.
Qed.

(** The session that [submitAnswers] saves. *)
Lemma submitAnswers_saved : forall svc answersText session resumeDoc w chat' w',
  ChatHandlers.submitAnswers svc answersText (Some session) resumeDoc w
  = (Normal (ChatHandlers.Saved chat'), w') ->
  exists s evaluations answers ctx w1,
    answersText = VStr s
    /\ evaluateAllAnswers svc
         (VArr (ChatHandlers.pairs_from 0
                  (ChatController.parseQuestions (VStr (questions_text session)))
                  answers)) ctx w1
       = (Normal evaluations, w')
    /\ evaluations <> []
    /\ length evaluations
       = length (ChatController.parseQuestions (VStr (questions_text session)))
    /\ Forall scores_in_range evaluations
    /\ chat'
       = Chat.calculateFinalScores
           {| Chat.messages :=
                Chat.messages session
                ++ [ChatHandlers.plain_message (js "user") s]
                ++ ChatHandlers.feedback_messages 0 evaluations;
              Chat.isCompleted := true;
              Chat.finalScore := Chat.finalScore session;
              Chat.averageRelevance := Chat.averageRelevance session;
              Chat.averageCorrectness := Chat.averageCorrectness session |}.
Proof.
  intros svc answersText session resumeDoc w chat' w'.
  unfold ChatHandlers.submitAnswers, try_catch.
  destruct answersText as [| |b|x|s|elems|props];
    try (cbn [truthy ret throw]; discriminate).
  - cbn [truthy]. destruct b; cbn [ret throw]; discriminate.
  - cbn [truthy]. destruct (negb (PrimFloat.is_nan x || PrimFloat.is_zero x));
      cbn [ret throw]; discriminate.
  - destruct ((length s =? 0) || (length (trim s) =? 0));
      [cbn [ret]; discriminate|].
    change (match Chat.messages session with
            | [] => []
            | m :: _ => Chat.content m
            end) with (questions_text session).
    set (questions := ChatController.parseQuestions (VStr (questions_text session))).
    destruct (length questions =? 0) eqn:Hq; [cbn [ret]; discriminate|].
    assert (Hne : questions <> []).
    { intros E. rewrite E in Hq. discriminate. }
    destruct (ChatController.parseAnswers (VStr s) (length questions))
      as [answers|]; [|cbn [ret]; discriminate].
    destruct resumeDoc as [chunks|]; [|cbn [ret]; discriminate].
    destruct (submit_evaluation svc s session questions answers chunks w
                eq_refl Hne) as (outcome & w1 & Hrun & _ & Hout).
    cbv zeta in Hrun. cbv zeta. rewrite Hrun.
    destruct outcome as [result|e]; [|cbn [ret]; discriminate].
    destruct Hout as (_ & evaluations & ctx & w2 & Hev & Hlen & Hrange & ->).
    intros [= <- <-]. exists s, evaluations, answers, ctx, w2.
    repeat split; auto.
    intros E. rewrite E in Hlen. cbn [length] in Hlen.
    apply Hne. apply length_zero_iff_nil. symmetry. exact Hlen.
Qed.

(** X24.  After the first submission of a session of at most ten
    questions, the session is completed and its three averages are
    numbers within 1..10, whatever the model answered. *)
Theorem submitAnswers_averages_in_scale :
  forall svc answersText session resumeDoc w chat' w',
    ChatHandlers.submitAnswers svc answersText (Some session) resumeDoc w
    = (Normal (ChatHandlers.Saved chat'), w') ->
    Forall (fun m => Chat.is_scored m = false) (Chat.messages session) ->
    length (ChatController.parseQuestions (VStr (questions_text session))) <= 10 ->
    Chat.isCompleted chat' = true
    /\ exists f r c,
         Chat.finalScore chat' = Some f
         /\ Chat.averageRelevance chat' = Some r
         /\ Chat.averageCorrectness chat' = Some c
         /\ in_scale f = true /\ in_scale r = true /\ in_scale c = true.
Proof.
  intros svc answersText session resumeDoc w chat' w' Hrun Hfresh Hten.
  destruct (submitAnswers_saved _ _ _ _ _ _ _ Hrun)
    as (s & evaluations & answers & ctx & w1 & _ & _ & Hne & Hlen & Hrange & ->).
  rewrite <- Hlen in Hten. clear Hlen Hrun.
  destruct (feedback_messages_scored evaluations 0) as (Hf & Hl & Hr & Hc).
  unfold Chat.calculateFinalScores. cbn [Chat.messages Chat.isCompleted].
  rewrite !filter_app, (unscored_filter _ Hfresh), Hf.
  change (filter Chat.is_scored [ChatHandlers.plain_message (js "user") s])
    with (@nil Chat.message).
  cbn [app]. rewrite Hl.
  destruct evaluations as [|e0 rest] eqn:Ee; [congruence|].
  rewrite <- Ee in *. clear Hne.
  replace (length evaluations =? 0) with false by (subst; reflexivity).
  cbn [Chat.isCompleted Chat.finalScore Chat.averageRelevance
       Chat.averageCorrectness].
  split; [reflexivity|].
  eexists. eexists. eexists.
  split; [reflexivity|]. split; [reflexivity|]. split; [reflexivity|].
  rewrite fold_add_scores. cbn [fst snd]. rewrite Hr, Hc.
  assert (Hrel : Forall (fun z => (1 <= z <= 10)%Z) (map relevanceScore evaluations)).
  { apply Forall_forall. intros z Hz. apply in_map_iff in Hz as (e & <- & He).
    rewrite Forall_forall in Hrange. apply (Hrange e He). }
  assert (Hcor : Forall (fun z => (1 <= z <= 10)%Z) (map correctnessScore evaluations)).
  { apply Forall_forall. intros z Hz. apply in_map_iff in Hz as (e & <- & He).
    rewrite Forall_forall in Hrange. apply (Hrange e He). }
  change 0%float with (Chat.float_of_Z 0).
  destruct (sum_exact _ 0 Hrel) as [-> Hsr]; [lia|rewrite length_map; lia|].
  destruct (sum_exact _ 0 Hcor) as [-> Hsc]; [lia|rewrite length_map; lia|].
  rewrite length_map in Hsr, Hsc. rewrite !Z.add_0_l.
  set (k := length evaluations) in *.
  assert (Hk : 1 <= k <= 10) by (subst k; rewrite Ee in *; cbn in *; lia).
  pose proof averages_in_scale_true as Htable.
  rewrite forallb_forall in Htable.
  specialize (Htable k (proj2 (in_seq 10 1 k) (conj (proj1 Hk) (le_n_S _ _ (proj2 Hk))))).
  unfold averages_in_scale in Htable.
  rewrite forallb_forall in Htable.
  assert (Hin : forall z, (Z.of_nat k <= z <= 10 * Z.of_nat k)%Z ->
            In z (sums_of k)).
  { intros z Hz. unfold sums_of. apply in_map_iff.
    exists (Z.to_nat z). split; [lia|]. apply in_seq. lia. }
  specialize (Htable _ (Hin _ Hsr)). rewrite forallb_forall in Htable.
  specialize (Htable _ (Hin _ Hsc)). cbv zeta in Htable.
  apply andb_true_iff in Htable as [Htable H3].
  apply andb_true_iff in Htable as [H1 H2].
  auto.
Qed.

Lemma submitAnswers_averages_in_scale_witness :
  exists chat' w',
    ChatHandlers.submitAnswers
      (answering_service [VNum 1]
         (template_reply
            [ {| reply_relevance := 8; reply_correctness := 6;
                 reply_overall := 7; reply_feedback := js "Clear." |};
              {| reply_relevance := 5; reply_correctness := 9;
                 reply_overall := 7; reply_feedback := js "Short." |} ]))
      (VStr (js "1. A function with its scope.
2. We talked it over."))
      (Some two_questions_session) (Some (VArr [])) (mkWorld 0 [])
    = (Normal (ChatHandlers.Saved chat'), w')
    /\ Chat.isCompleted chat' = true.
Proof.
  eexists. eexists. split.
  - vm_compute. reflexivity.
  - eapply (submitAnswers_averages_in_scale
              (answering_service [VNum 1]
                 (template_reply
                    [ {| reply_relevance := 8; reply_correctness := 6;
                         reply_overall := 7; reply_feedback := js "Clear." |};
                      {| reply_relevance := 5; reply_correctness := 9;
                         reply_overall := 7; reply_feedback := js "Short." |} ]))
              (VStr (js "1. A function with its scope.
2. We talked it over."))
              two_questions_session (Some (VArr [])) (mkWorld 0 [])).
    + vm_compute. reflexivity.
    + repeat constructor.
    + vm_compute. lia.
Defined.

(* ================================================================== *)
(** * A submission while the generation service is down *)
(* ================================================================== *)









